(** * svtk: resolution of complex structural variants

    A shallow embedding of the complex-SV resolver of svtk
    ([svtk/cxsv/complex_sv.py], [svtools/cxsv/cpx_tloc.py],
    [svtk/cxsv/rescan_single_enders.py], [svtk/cli/resolve.py]) and the
    properties its specification states about it.

    Python objects are modelled the way the code uses them: a pysam record
    is a small struct with an INFO dictionary ([gmap string info_value]),
    the [ComplexSV] object is a state record threaded through its methods,
    and every statement that can raise runs in the error monad [result]. *)

From Stdlib Require Import ZArith QArith String Ascii.
From Stdlib Require SpecFloat.
From stdpp Require Import base option list gmap strings pretty sorting.

Local Open Scope string_scope.
Local Open Scope Z_scope.
Local Open Scope list_scope.

(** ** Exceptions and the error monad *)

Inductive exn : Type :=
  | KeyError (key : string)
  | TypeError
  | ValueError
  | IndexError
  | StopIteration
  | ZeroDivisionError
  | UnboundLocalError (name : string)
  | AttributeError (name : string)
  | Exception (msg : string).

Inductive result (A : Type) : Type :=
  | Raise (e : exn)
  | Return (a : A).
Arguments Raise {A} e.
Arguments Return {A} a.

#[global] Instance result_ret : MRet result := fun A a => Return a.
#[global] Instance result_bind : MBind result := fun A B f m =>
  match m with
  | Raise e => Raise e
  | Return a => f a
  end.
#[global] Instance result_fmap : FMap result := fun A B f m =>
  match m with
  | Raise e => Raise e
  | Return a => Return (f a)
  end.

Definition is_Return {A} (m : result A) : Prop := exists a, m = Return a.

(** [m] does not end in an exception raised by a [raise Exception(...)]
    statement. *)
Definition no_Exception {A} (m : result A) : Prop :=
  forall msg, m <> Raise (Exception msg).

(** [filterM p l]: a list comprehension [[r for r in l if p r]] whose test
    can raise. *)
Fixpoint filterM {A} (p : A -> result bool) (l : list A) : result (list A) :=
  match l with
  | [] => Return []
  | x :: l' =>
      b ← p x;
      rest ← filterM p l';
      Return (if b : bool then x :: rest else rest)
  end.

(** ** Strings, the way the Python code uses them *)

(** [needle in hay] *)
Fixpoint contains (needle hay : string) : bool :=
  String.prefix needle hay ||
  match hay with
  | EmptyString => false
  | String _ hay' => contains needle hay'
  end.

Definition startswith (s p : string) : bool := String.prefix p s.

Definition endswith (s p : string) : bool :=
  String.prefix (String.rev p) (String.rev s).

(** [s.split(sep)] for a one-character separator. *)
Fixpoint split_on (sep : ascii) (s : string) : list string :=
  match s with
  | EmptyString => [EmptyString]
  | String c s' =>
      if Ascii.eqb c sep then EmptyString :: split_on sep s'
      else match split_on sep s' with
           | [] => [String c EmptyString]
           | w :: ws => String c w :: ws
           end
  end.

(** [s.strip(chars)] *)
Fixpoint lstrip (chars : list ascii) (s : string) : string :=
  match s with
  | EmptyString => EmptyString
  | String c s' => if bool_decide (c ∈ chars) then lstrip chars s' else s
  end.

Definition strip (chars : list ascii) (s : string) : string :=
  String.rev (lstrip chars (String.rev (lstrip chars s))).

(** [sorted(l, key=key)] on string keys: a stable insertion sort ([x] is put
    in front of the later elements whose key is not smaller), so equal keys
    keep their input order as Python's sort does. *)
Fixpoint insert_by {A} (key : A -> string) (x : A) (l : list A) : list A :=
  match l with
  | [] => [x]
  | y :: l' => if String.ltb (key y) (key x)
               then y :: insert_by key x l' else x :: y :: l'
  end.

Definition sorted_by {A} (key : A -> string) (l : list A) : list A :=
  foldr (fun x acc => insert_by key x acc) [] l.

Definition sorted_strings (l : list string) : list string := sorted_by id l.

(** [sorted(set(l))] *)
Fixpoint dedup_strings (l : list string) : list string :=
  match l with
  | [] => []
  | x :: l' => if bool_decide (x ∈ l') then dedup_strings l'
               else x :: dedup_strings l'
  end.

(** ** pysam records

    Only what the resolver touches: the fixed columns [id], [chrom], [pos],
    [ref], [alts] and the INFO dictionary.  INFO values are strings,
    integers, tuples of strings or flags. *)

Inductive info_value : Type :=
  | IStr (s : string)
  | IInt (z : Z)
  | ITuple (l : list string)
  | IFlag.

#[global] Instance info_value_eq_dec : EqDecision info_value.
Proof. solve_decision. Defined.

Record VariantRecord : Type := mkRecord {
  id : string;
  chrom : string;
  pos : Z;
  ref : string;
  alts : list string;
  info : gmap string info_value
}.

#[global] Instance VariantRecord_eq_dec : EqDecision VariantRecord.
Proof. solve_decision. Defined.

Definition set_id (v : string) (r : VariantRecord) : VariantRecord :=
  mkRecord v (chrom r) (pos r) (ref r) (alts r) (info r).
Definition set_chrom (v : string) (r : VariantRecord) : VariantRecord :=
  mkRecord (id r) v (pos r) (ref r) (alts r) (info r).
Definition set_pos (v : Z) (r : VariantRecord) : VariantRecord :=
  mkRecord (id r) (chrom r) v (ref r) (alts r) (info r).
Definition with_info (f : gmap string info_value -> gmap string info_value)
    (r : VariantRecord) : VariantRecord :=
  mkRecord (id r) (chrom r) (pos r) (ref r) (alts r) (f (info r)).

(** [r.info[k] = v] *)
Definition set_info (k : string) (v : info_value) : VariantRecord -> VariantRecord :=
  with_info (insert k v).

(** [r.info.pop(k)], without a default: [KeyError] on an absent key. *)
Definition pop_info (k : string) (r : VariantRecord) : result VariantRecord :=
  match info r !! k with
  | Some _ => Return (with_info (delete k) r)
  | None => Raise (KeyError k)
  end.

(** [r.info[k]]: raises [KeyError] on an absent key. *)
Definition info_get (r : VariantRecord) (k : string) : result info_value :=
  match info r !! k with
  | Some v => Return v
  | None => Raise (KeyError k)
  end.

(** [k in r.info.keys()] *)
Definition info_has (r : VariantRecord) (k : string) : bool :=
  bool_decide (is_Some (info r !! k)).

Definition as_int (v : info_value) : result Z :=
  match v with IInt z => Return z | _ => Raise TypeError end.
Definition as_str (v : info_value) : result string :=
  match v with IStr s => Return s | _ => Raise TypeError end.
Definition as_tuple (v : info_value) : result (list string) :=
  match v with ITuple l => Return l | _ => Raise TypeError end.

Definition info_int (r : VariantRecord) (k : string) : result Z :=
  info_get r k ≫= as_int.
Definition info_str (r : VariantRecord) (k : string) : result string :=
  info_get r k ≫= as_str.
Definition info_tuple (r : VariantRecord) (k : string) : result (list string) :=
  info_get r k ≫= as_tuple.

(** [r.stop].  The end coordinate is the INFO field END; a record without
    END reports the end of its REF allele. *)
Definition stop (r : VariantRecord) : Z :=
  match info r !! "END" with
  | Some (IInt e) => e
  | _ => pos r - 1 + Z.of_nat (String.length (ref r))
  end.

(** [r.stop = v] writes END. *)
Definition set_stop (v : Z) : VariantRecord -> VariantRecord :=
  set_info "END" (IInt v).

(** [r.alts = a].  Assigning the alt alleles removes END from the record
    ("Setting alts removes END", complex_sv.py lines 189, 228 and 294). *)
Definition set_alts (a : list string) (r : VariantRecord) : VariantRecord :=
  mkRecord (id r) (chrom r) (pos r) (ref r) a (delete "END" (info r)).

(** ['{0}'.format(z)] *)
Definition fmt_int (z : Z) : string := pretty z.

(** ** svtools/cxsv/cpx_tloc.py *)

Module cpx_tloc.

Definition mh_buffer_default : Z := 50.

(** The nested [_greater(p1, p2)]: [p1 > p2 - mh_buffer]. *)
Definition _greater (mh_buffer p1 p2 : Z) : bool := p2 - mh_buffer <? p1.

Definition classify_simple_translocation (plus minus : VariantRecord)
    (mh_buffer : Z) : result string :=
  mismatch ←
    (if bool_decide (chrom plus ≠ chrom minus) then Return true
     else
       plus_chr2 ← info_get plus "CHR2";
       minus_chr2 ← info_get minus "CHR2";
       Return (bool_decide (plus_chr2 ≠ minus_chr2)));
  if mismatch : bool then Return "TLOC_MISMATCH_CHROM"
  else
    let plus_A := pos plus in
    let minus_A := pos minus in
    plus_B ← info_int plus "END";
    minus_B ← info_int minus "END";
    plus_strands ← info_get plus "STRANDS";
    let gt := _greater mh_buffer in
    if bool_decide (plus_strands = IStr "+-") then
      if gt minus_A plus_A && gt plus_B minus_B then Return "CTX_PP/QQ"
      else if gt minus_A plus_A && gt minus_B plus_B then Return "CTX_INS_B2A"
      else if gt plus_A minus_A && gt plus_B minus_B then Return "CTX_INS_A2B"
      else Return "CTX_UNR"
    else
      if gt minus_A plus_A && gt minus_B plus_B then Return "CTX_PQ/QP"
      else if gt minus_A plus_A && gt plus_B minus_B then Return "CTX_INV_INS_B2A"
      else if gt plus_A minus_A && gt minus_B plus_B then Return "CTX_INV_INS_A2B"
      else Return "CTX_UNR".

(** The eight labels of the classification. *)
Definition labels : list string :=
  ["TLOC_MISMATCH_CHROM"; "CTX_PP/QQ"; "CTX_PQ/QP"; "CTX_INS_B2A"; "CTX_INS_A2B";
   "CTX_INV_INS_B2A"; "CTX_INV_INS_A2B"; "CTX_UNR"].

(** A breakend that carries the INFO fields the classification reads. *)
Definition has_breakend_fields (r : VariantRecord) : Prop :=
  is_Some (info r !! "CHR2") /\
  (exists e, info r !! "END" = Some (IInt e)) /\
  is_Some (info r !! "STRANDS").

End cpx_tloc.

(** ** svtk/cxsv/complex_sv.py *)

(** What the resolver takes from outside this module.  [cytobands] and
    [mei_coverage] stand for the tabix and bedtools queries;
    [classify_complex_inversion] ([svtk/cxsv/cpx_inv.py]) and
    [classify_insertion] are imported by complex_sv.py, and
    [update_best_genotypes] comes from [svtk.utils]: the three are kept
    abstract, and so is the set of INFO keys the VCF header declares. *)
Record Externals : Type := {
  (** band names (fourth column) of the cytoband rows at [chrom:pos-pos] *)
  cytobands : string -> Z -> list string;
  (** fraction of [chrom:start-end] covered by the MEI reference *)
  mei_coverage : string -> Z -> Z -> Q;
  classify_complex_inversion :
    VariantRecord -> VariantRecord -> list VariantRecord ->
    result (string * list VariantRecord);
  classify_insertion : VariantRecord -> VariantRecord -> result string;
  update_best_genotypes :
    VariantRecord -> list VariantRecord -> result VariantRecord;
  header_info : list string
}.

Module complex_sv.

(** The attributes of a [ComplexSV] object.  [cluster_type], [svtype] and
    [cpx_type] are [None] until the object assigns them. *)
Record ComplexSV : Type := mkCpx {
  records : list VariantRecord;
  inversions : list VariantRecord;
  tlocs : list VariantRecord;
  breakends : list VariantRecord;
  insertions : list VariantRecord;
  cnvs : list VariantRecord;
  cluster_type : option string;
  svtype : option string;
  cpx_type : option string;
  vcf_record : VariantRecord
}.

Definition set_records v (c : ComplexSV) : ComplexSV :=
  mkCpx v (inversions c) (tlocs c) (breakends c) (insertions c) (cnvs c)
        (cluster_type c) (svtype c) (cpx_type c) (vcf_record c).
Definition set_partitions inv tl bnd ins cnv (c : ComplexSV) : ComplexSV :=
  mkCpx (records c) inv tl bnd ins cnv
        (cluster_type c) (svtype c) (cpx_type c) (vcf_record c).
Definition set_cluster_type_attr v (c : ComplexSV) : ComplexSV :=
  mkCpx (records c) (inversions c) (tlocs c) (breakends c) (insertions c) (cnvs c)
        (Some v) (svtype c) (cpx_type c) (vcf_record c).
Definition set_svtype v (c : ComplexSV) : ComplexSV :=
  mkCpx (records c) (inversions c) (tlocs c) (breakends c) (insertions c) (cnvs c)
        (cluster_type c) (Some v) (cpx_type c) (vcf_record c).
Definition set_cpx_type v (c : ComplexSV) : ComplexSV :=
  mkCpx (records c) (inversions c) (tlocs c) (breakends c) (insertions c) (cnvs c)
        (cluster_type c) (svtype c) v (vcf_record c).
Definition set_vcf_record v (c : ComplexSV) : ComplexSV :=
  mkCpx (records c) (inversions c) (tlocs c) (breakends c) (insertions c) (cnvs c)
        (cluster_type c) (svtype c) (cpx_type c) v.
Definition upd_vcf_record (f : VariantRecord -> VariantRecord) (c : ComplexSV) :=
  set_vcf_record (f (vcf_record c)) c.

(** [r.info['SVTYPE'] == s] *)
Definition svtype_is (s : string) (r : VariantRecord) : result bool :=
  v ← info_get r "SVTYPE"; Return (bool_decide (v = IStr s)).

Definition is_tloc (r : VariantRecord) : result bool :=
  c ← info_get r "CHR2"; Return (bool_decide (IStr (chrom r) ≠ c)).

Definition is_breakend (r : VariantRecord) : result bool :=
  c ← info_get r "CHR2";
  if bool_decide (IStr (chrom r) = c) then svtype_is "BND" r else Return false.

Definition is_cnv (r : VariantRecord) : result bool :=
  v ← info_get r "SVTYPE";
  Return (bool_decide (v ∈ [IStr "DEL"; IStr "DUP"])).

Definition organize_records (self : ComplexSV) : result ComplexSV :=
  inv ← filterM (svtype_is "INV") (records self);
  tl ← filterM is_tloc (records self);
  bnd ← filterM is_breakend (records self);
  ins ← filterM (svtype_is "INS") (records self);
  cnv ← filterM is_cnv (records self);
  Return (set_partitions inv tl bnd ins cnv self).

Definition _is_SR_only (record : VariantRecord) : bool :=
  bool_decide (info record !! "EVIDENCE" = Some (ITuple ["SR"])).

Section WithExternals.
Variable ext : Externals.

Definition remove_SR_only_breakpoints (self : ComplexSV) : result ComplexSV :=
  match records self with
  | [] => Raise IndexError
  | _ :: _ =>
      if bool_decide ("EVIDENCE" ∈ header_info ext) then
        let clean_records :=
          List.filter (fun r => negb (_is_SR_only r)) (records self) in
        if (0 <? Z.of_nat (length clean_records))
        then Return (set_records clean_records self)
        else Return self
      else Return self
  end.

Definition sorted_strand_pair (t1 t2 : VariantRecord) : result (string * string) :=
  s1 ← info_str t1 "STRANDS";
  s2 ← info_str t2 "STRANDS";
  match sorted_strings [s1; s2] with
  | [a; b] => Return (a, b)
  | _ => Raise ValueError
  end.

Definition ok_tloc_strands (tloc1 tloc2 : VariantRecord) : result bool :=
  '(strand1, strand2) ← sorted_strand_pair tloc1 tloc2;
  Return ((String.eqb strand1 "++" && String.eqb strand2 "--") ||
          (String.eqb strand1 "+-" && String.eqb strand2 "-+")).

Definition ok_ins_strands (bnd1 bnd2 : VariantRecord) : result bool :=
  '(strand1, strand2) ← sorted_strand_pair bnd1 bnd2;
  Return (String.eqb strand1 "+-" && String.eqb strand2 "-+").

(** A call that unpacks a list into the two arguments of [f]. *)
Definition apply2 {A B} (f : A -> A -> result B) (l : list A) : result B :=
  match l with
  | [a; b] => f a b
  | _ => Raise TypeError
  end.

(** [np.where(paired)[0]] *)
Definition np_where (l : list bool) : list nat :=
  map fst (List.filter snd (imap (fun i b => (i, b)) l)).

(** [self.insertions == 1]: a list compared with an integer; the two are
    never equal. *)
Definition list_eq_int (l : list VariantRecord) (n : Z) : bool := false.

(** The sizes of the four classes, and the test "one class is paired and
    the rest are absent" of [set_cluster_type]. *)
Definition class_counts (self : ComplexSV) : list Z :=
  map (fun l => Z.of_nat (length l))
      [inversions self; tlocs self; breakends self; insertions self].

Definition one_class_paired (self : ComplexSV) : bool :=
  let paired := map (fun count => count =? 2) (class_counts self) in
  let absent := map (fun count => count =? 0) (class_counts self) in
  forallb (fun b => b) (zip_with xorb paired absent)
  && (Z.of_nat (length (np_where paired)) =? 1).

Definition set_cluster_type (self : ComplexSV) : result ComplexSV :=
  let paired := map (fun count => count =? 2) (class_counts self) in
  let total := foldr Z.add 0 (class_counts self) in
  ct ←
    (if one_class_paired self then
       match np_where paired with
       | [] => Raise IndexError
       | idx :: _ =>
           if (idx =? 0)%nat then
             match inversions self with
             | i0 :: i1 :: _ =>
                 s0 ← info_get i0 "STRANDS";
                 s1 ← info_get i1 "STRANDS";
                 if bool_decide (s0 = s1) then Return "MATCHED_STRANDS"
                 else Return "CANDIDATE_INVERSION"
             | _ => Raise IndexError
             end
           else if (idx =? 1)%nat then
             if 0 <? Z.of_nat (length (cnvs self)) then Return "TLOC_WITH_CNV"
             else
               ok ← apply2 ok_tloc_strands (tlocs self);
               if ok : bool then Return "CANDIDATE_TRANSLOCATION"
               else Return "STRAND_MISMATCH_TLOC"
           else if (idx =? 2)%nat then
             if 0 <? Z.of_nat (length (cnvs self)) then Return "INS_WITH_CNV"
             else
               ok ← apply2 ok_ins_strands (breakends self);
               if ok : bool then Return "CANDIDATE_INSERTION"
               else Return "STRAND_MISMATCH_INS"
           else if (idx =? 3)%nat then Return "MULTIPLE_RESOLVED_INSERTIONS"
           else Raise (AttributeError "cluster_type")
       end
     else if total =? 0 then Return "ERROR_CNV_ONLY"
     else if total =? 1 then
       if Z.of_nat (length (insertions self)) =? 1 then Return "RESOLVED_INSERTION"
       else Return "SINGLE_ENDER"
     else if 2 <=? total then
       if list_eq_int (insertions self) 1
          && (1 <=? Z.of_nat (length (breakends self)))
       then Return "RESOLVED_INSERTION"
       else Return "MIXED_BREAKENDS"
     else Return "ERROR_UNCLASSIFIED");
  Return (set_cluster_type_attr ct self).

Definition set_unresolved (self : ComplexSV) : ComplexSV :=
  set_cpx_type (cluster_type self) (set_svtype "UNR" self).

Definition _get_arm (chrom_ : string) (pos_ : Z) : result string :=
  match cytobands ext chrom_ pos_ with
  | [] => Raise StopIteration
  | band :: _ =>
      match band with
      | EmptyString => Raise IndexError
      | String c _ => Return (String c EmptyString)
      end
  end.

Definition get_arms (record : VariantRecord) : result (string * string) :=
  chr2 ← info_str record "CHR2";
  armA ← _get_arm (chrom record) (pos record);
  armB ← _get_arm chr2 (stop record);
  Return (armA, armB).

(** ['{svtype}_{chrom}:{start}-{end}'] *)
Definition fmt_interval (svtype_ chrom_ : string) (start end_ : Z) : string :=
  svtype_ +:+ "_" +:+ chrom_ +:+ ":" +:+ fmt_int start +:+ "-" +:+ fmt_int end_.

Definition make_inversion_intervals (FF RR : VariantRecord)
    (cnvs_ : list VariantRecord) (cpx_type_ : string) : list string :=
  let chrom_ := chrom FF in
  (if startswith cpx_type_ "del"
   then [fmt_interval "DEL" chrom_ (pos FF) (pos RR)] else []) ++
  (if startswith cpx_type_ "dup"
   then [fmt_interval "DUP" chrom_ (pos RR) (pos FF)] else []) ++
  [fmt_interval "INV" chrom_ (pos RR) (stop FF)] ++
  (if endswith cpx_type_ "del"
   then [fmt_interval "DEL" chrom_ (stop FF) (stop RR)] else []) ++
  (if endswith cpx_type_ "dup"
   then [fmt_interval "DUP" chrom_ (stop RR) (stop FF)] else []).

Definition check_mei_overlap (chrom_ : string) (start end_ : Z) : bool :=
  Qle_bool (1 # 2) (mei_coverage ext chrom_ start end_).

(** ['<{0}>'.format(svtype)] as the one-element tuple of alt alleles *)
Definition symbolic_alt (svtype_ : string) : list string :=
  ["<" +:+ svtype_ +:+ ">"].

Definition resolve_inversion (self : ComplexSV) : result ComplexSV :=
  match inversions self with
  | [] => Raise IndexError
  | i0 :: _ =>
      s0 ← info_get i0 "STRANDS";
      '(FF, RR) ←
        match inversions self with
        | [a; b] => if bool_decide (s0 = IStr "++") then Return (a, b)
                    else Return (b, a)
        | _ => Raise ValueError
        end;
      '(cpx_type_, cnvs_) ← classify_complex_inversion ext FF RR (cnvs self);
      let self := set_cpx_type (Some cpx_type_) self in
      let self := set_records ([FF; RR] ++ cnvs_) self in
      let svtype_ :=
        if String.eqb cpx_type_ "INV" then "INV"
        else if String.eqb cpx_type_ "UNK" then "UNR"
        else if String.eqb cpx_type_ "COMPLEX_INS" then "UNR"
        else if contains "INS" cpx_type_ then "INS"
        else "CPX" in
      let self := set_svtype svtype_ self in
      self ←
        (if bool_decide (svtype_ ∈ ["INV"; "CPX"; "UNR"]) then
           let self := upd_vcf_record (set_pos (Z.min (pos FF) (pos RR))) self in
           let self := upd_vcf_record (set_stop (Z.max (stop FF) (stop RR))) self in
           let self :=
             upd_vcf_record
               (set_info "SVLEN"
                  (IInt (Z.abs (stop (vcf_record self) - pos (vcf_record self)))))
               self in
           let cpx_intervals := make_inversion_intervals FF RR (cnvs self) cpx_type_ in
           Return (upd_vcf_record (set_info "CPX_INTERVALS" (ITuple cpx_intervals)) self)
         else if String.eqb svtype_ "INS" then
           '(source_start, source_end, sink_start, sink_end) ←
             (if String.eqb cpx_type_ "DUP5/INS3"
              then Return (pos RR, pos FF, stop FF, stop RR)
              else if String.eqb cpx_type_ "DUP3/INS5"
              then Return (stop RR, stop FF, pos FF, pos RR)
              else Raise (UnboundLocalError "source_start"));
           let is_mei :=
             check_mei_overlap (chrom (vcf_record self)) source_start source_end in
           self ←
             (if is_mei then
                match split_on "/" cpx_type_ with
                | _ :: part :: _ => Return (set_cpx_type (Some ("MEI_" +:+ part)) self)
                | _ => Raise IndexError
                end
              else Return self);
           let self := upd_vcf_record (set_pos sink_start) self in
           let self := upd_vcf_record (set_stop sink_end) self in
           let self :=
             upd_vcf_record
               (set_info "SVLEN" (IInt (Z.abs (source_end - source_start)))) self in
           let source :=
             fmt_interval "INV" (chrom (vcf_record self)) source_start source_end in
           Return (upd_vcf_record (set_info "SOURCE" (IStr source)) self)
         else Return self);
      (* Setting alts removes END, so do it up front *)
      let self := upd_vcf_record (set_alts (symbolic_alt svtype_)) self in
      let self := upd_vcf_record (set_info "SVTYPE" (IStr svtype_)) self in
      cpx_type_now ←
        match cpx_type self with
        | Some t => Return t
        | None => Raise (AttributeError "cpx_type")
        end;
      Return (upd_vcf_record (set_info "CPX_TYPE" (IStr cpx_type_now)) self)
  end.

(** [sorted(l, key=lambda t: t.info['STRANDS'])], unpacked into two names *)
Definition sorted_pair_by_strands (l : list VariantRecord)
    : result (VariantRecord * VariantRecord) :=
  keyed ← mapM (fun t => k ← info_str t "STRANDS"; Return (k, t)) l;
  match map snd (sorted_by fst keyed) with
  | [plus; minus] => Return (plus, minus)
  | _ => Raise ValueError
  end.

Definition resolve_translocation (self : ComplexSV) : result ComplexSV :=
  '(plus, minus) ← sorted_pair_by_strands (tlocs self);
  '(armA, armB) ← get_arms plus;
  cpx_type_ ← cpx_tloc.classify_simple_translocation plus minus cpx_tloc.mh_buffer_default;
  let duplicate_coords :=
    bool_decide (pos plus = pos minus) && bool_decide (stop plus = stop minus) in
  '(svtype_, cpx_type_) ←
    (if contains "INS" cpx_type_ then Return ("INS", cpx_type_)
     else if bool_decide (cpx_type_ ∈ ["TLOC_MISMATCH_CHROM"; "CTX_UNR"])
     then Return ("UNR", cpx_type_)
     else if String.eqb cpx_type_ "CTX_PP/QQ" then
       if duplicate_coords then Return ("UNR", cpx_type_ +:+ "_DUPLICATE_COORDS")
       else if String.eqb armA armB then Return ("CTX", cpx_type_)
       else Return ("UNR", cpx_type_ +:+ "_MISMATCH")
     else if String.eqb cpx_type_ "CTX_PQ/QP" then
       if duplicate_coords then Return ("UNR", cpx_type_ +:+ "_DUPLICATE_COORDS")
       else if negb (String.eqb armA armB) then Return ("CTX", cpx_type_)
       else Return ("UNR", cpx_type_ +:+ "_MISMATCH")
     else Raise (Exception ("Invalid cpx type: " +:+ cpx_type_)));
  let self := set_cpx_type (Some cpx_type_) (set_svtype svtype_ self) in
  (* Setting alts removes END, so do it up front *)
  let self := upd_vcf_record (set_alts (symbolic_alt svtype_)) self in
  let self := upd_vcf_record (set_info "SVTYPE" (IStr svtype_)) self in
  let self := upd_vcf_record (set_info "CPX_TYPE" (IStr cpx_type_)) self in
  if String.eqb svtype_ "CTX" then
    let self := upd_vcf_record (set_chrom (chrom plus)) self in
    let self := upd_vcf_record (set_pos (pos plus)) self in
    plus_chr2 ← info_get plus "CHR2";
    let self := upd_vcf_record (set_info "CHR2" plus_chr2) self in
    let self := upd_vcf_record (set_stop (stop plus)) self in
    Return (upd_vcf_record (set_info "SVLEN" (IInt (-1))) self)
  else if String.eqb svtype_ "INS" then
    plus_chr2 ← info_get plus "CHR2";
    let '(sink_chrom, source_chrom) :=
      if contains "B2A" cpx_type_ then (IStr (chrom plus), plus_chr2)
      else (plus_chr2, IStr (chrom plus)) in
    '(sink_start, sink_end, source_start, source_end) ←
      (if String.eqb cpx_type_ "CTX_INS_B2A"
       then Return (pos plus, pos minus, stop plus, stop minus)
       else if String.eqb cpx_type_ "CTX_INV_INS_B2A"
       then Return (pos plus, pos minus, stop minus, stop plus)
       else if String.eqb cpx_type_ "CTX_INS_A2B"
       then Return (stop minus, stop plus, pos minus, pos plus)
       else if String.eqb cpx_type_ "CTX_INV_INS_A2B"
       then Return (stop plus, stop minus, pos minus, pos plus)
       else Raise (UnboundLocalError "sink_start"));
    sink_chrom_s ← as_str sink_chrom;
    source_chrom_s ← as_str source_chrom;
    let self := upd_vcf_record (set_chrom sink_chrom_s) self in
    let self := upd_vcf_record (set_pos sink_start) self in
    let self := upd_vcf_record (set_stop sink_end) self in
    let self := upd_vcf_record (set_info "CHR2" source_chrom) self in
    let self :=
      upd_vcf_record
        (set_info "SVLEN" (IInt (Z.abs (source_end - source_start)))) self in
    let interval_type := if contains "INV" cpx_type_ then "INV" else "INS" in
    let source :=
      fmt_interval interval_type source_chrom_s source_start source_end in
    Return (upd_vcf_record (set_info "SOURCE" (IStr source)) self)
  else Return self.

Definition resolve_insertion (self : ComplexSV) : result ComplexSV :=
  '(plus, minus) ← sorted_pair_by_strands (breakends self);
  cpx_type_ ← classify_insertion ext plus minus;
  let self := set_cpx_type (Some cpx_type_) self in
  if String.eqb cpx_type_ "INS_UNCLASSIFIED" then Return (set_svtype "UNR" self)
  else
    let self := set_svtype "INS" self in
    (* Setting alts removes END, so do it up front *)
    let self := upd_vcf_record (set_alts (symbolic_alt "INS")) self in
    let self := upd_vcf_record (set_info "SVTYPE" (IStr "INS")) self in
    let self := upd_vcf_record (set_info "CPX_TYPE" (IStr cpx_type_)) self in
    let sink_chrom := chrom plus in
    let source_chrom := chrom plus in
    '(sink_start, sink_end, source_start, source_end) ←
      (if String.eqb cpx_type_ "INS_B2A"
       then Return (pos plus, pos minus, stop plus, stop minus)
       else if String.eqb cpx_type_ "INS_A2B"
       then Return (stop minus, stop plus, pos minus, pos plus)
       else Raise (UnboundLocalError "sink_end"));
    (* Don't report insertions with large deletions at insertion site *)
    if 100 <=? sink_end - sink_start then Return (set_unresolved self)
    else
      let self := upd_vcf_record (set_chrom sink_chrom) self in
      let self := upd_vcf_record (set_pos sink_start) self in
      let self := upd_vcf_record (set_stop sink_end) self in
      let self := upd_vcf_record (set_info "CHR2" (IStr source_chrom)) self in
      let self :=
        upd_vcf_record
          (set_info "SVLEN" (IInt (Z.abs (source_end - source_start)))) self in
      let source := fmt_interval "INS" source_chrom source_start source_end in
      let self := upd_vcf_record (set_info "SOURCE" (IStr source)) self in
      if Z.of_nat (length (insertions self)) =? 1 then
        b_algs ← info_tuple (vcf_record self) "ALGORITHMS";
        match insertions self with
        | [] => Raise IndexError
        | ins0 :: _ =>
            mei_algs ← info_tuple ins0 "ALGORITHMS";
            let algs := sorted_strings (dedup_strings (b_algs ++ mei_algs)) in
            let self := set_vcf_record ins0 self in
            Return (upd_vcf_record (set_info "ALGORITHMS" (ITuple algs)) self)
        end
      else Return self.

Definition report_simple_insertion (self : ComplexSV) : result ComplexSV :=
  let n_breakends := Z.of_nat (length (breakends self)) in
  let n_cnvs := Z.of_nat (length (cnvs self)) in
  if (0 <? n_breakends) && (n_cnvs =? 0) then
    match insertions self with
    | [] => Raise IndexError
    | record :: _ =>
        match alts record with
        | [] => Raise IndexError
        | alt0 :: _ =>
            let cpx_type_ := strip ["<"%char; ">"%char] alt0 in
            let self := set_svtype "INS" (set_cpx_type (Some cpx_type_) self) in
            let self := upd_vcf_record (set_alts (alts record)) self in
            let self := upd_vcf_record (set_info "SVTYPE" (IStr "INS")) self in
            let self := upd_vcf_record (set_info "CPX_TYPE" (IStr cpx_type_)) self in
            chr2 ← info_get record "CHR2";
            let self := upd_vcf_record (set_info "CHR2" chr2) self in
            svlen ← info_get record "SVLEN";
            Return (upd_vcf_record (set_info "SVLEN" svlen) self)
        end
    end
  else if (n_cnvs =? 1) && (n_breakends =? 0) then
    match cnvs self with
    | [] => Raise IndexError
    | record :: _ =>
        is_dup ← svtype_is "DUP" record;
        if is_dup : bool then
          let self := set_svtype "DUP" self in
          let self := upd_vcf_record (set_alts (alts record)) self in
          let self := upd_vcf_record (set_info "SVTYPE" (IStr "DUP")) self in
          chr2 ← info_get record "CHR2";
          let self := upd_vcf_record (set_info "CHR2" chr2) self in
          svlen ← info_get record "SVLEN";
          Return (upd_vcf_record (set_info "SVLEN" svlen) self)
        else Return (set_unresolved self)
    end
  else Return (set_unresolved self).

(** The dispatch on [self.cluster_type] that [resolve] makes twice; [other]
    is its final [else] branch. *)
Definition dispatch (other : ComplexSV -> result ComplexSV)
    (self : ComplexSV) : result ComplexSV :=
  if bool_decide (cluster_type self = Some "CANDIDATE_INVERSION")
  then resolve_inversion self
  else if bool_decide (cluster_type self = Some "CANDIDATE_TRANSLOCATION")
  then resolve_translocation self
  else if bool_decide (cluster_type self = Some "CANDIDATE_INSERTION")
  then resolve_insertion self
  else if bool_decide (cluster_type self = Some "RESOLVED_INSERTION")
  then report_simple_insertion self
  else other self.

Definition resolve (self : ComplexSV) : result ComplexSV :=
  self ← set_cluster_type self;
  dispatch
    (fun self =>
       self ← remove_SR_only_breakpoints self;
       self ← organize_records self;
       self ← set_cluster_type self;
       dispatch (fun self => Return (set_unresolved self)) self)
    self.

(** [[v for r in l if k in r.info.keys()]] with [v = r.info[k]] *)
Definition present_values (k : string) (l : list VariantRecord) : list info_value :=
  omap (fun r => info r !! k) l.

Definition clean_record (self : ComplexSV) : result ComplexSV :=
  per_record ← mapM (fun r => info_tuple r "ALGORITHMS") (records self);
  let sources := dedup_strings (concat per_record) in
  vr ← pop_info "ALGORITHMS" (vcf_record self);
  let vr :=
    set_info "ALGORITHMS" (IStr (String.concat "," (sorted_strings sources))) vr in
  let members := map id (records self) in
  let vr := set_info "MEMBERS" (ITuple (sorted_strings members)) vr in
  varGQs ← mapM as_int (present_values "varGQ" (records self));
  let vr :=
    if (0 <? Z.of_nat (length varGQs)) && bool_decide ("varGQ" ∈ header_info ext)
    then match varGQs with
         | [] => vr
         | g :: gs => set_info "varGQ" (IInt (foldr Z.max g gs)) vr
         end
    else vr in
  Return (set_vcf_record vr self).

Definition record_ids (self : ComplexSV) : list string :=
  map id (records self).

(** [self.records[0].copy()] followed by [svu.update_best_genotypes]. *)
Definition make_record (self : ComplexSV) : result ComplexSV :=
  match records self with
  | [] => Raise IndexError
  | r0 :: _ =>
      vr ← update_best_genotypes ext r0 (records self);
      Return (set_vcf_record vr self)
  end.

(** [ComplexSV(records, cytobands, mei_bed)].  The object starts with its
    record list only; the other attributes are assigned by the four calls
    of the constructor, and [vcf_record] (a placeholder here until
    [make_record] assigns it) is not read before that. *)
Definition __init__ (records_ : list VariantRecord) : result ComplexSV :=
  let placeholder := mkRecord "" "" 0 "" [] ∅ in
  let self := mkCpx records_ [] [] [] [] [] None None None placeholder in
  self ← organize_records self;
  self ← make_record self;
  self ← resolve self;
  clean_record self.

(** [c'] has the record list, the inversions and the CNVs of [c]. *)
Definition same_records (c c' : ComplexSV) : Prop :=
  records c' = records c /\ inversions c' = inversions c /\ cnvs c' = cnvs c.

(** [c] holds records of [l] only. *)
Definition drawn_from (l : list VariantRecord) (c : ComplexSV) : Prop :=
  (forall r, In r (records c) -> In r l) /\
  (forall r, In r (inversions c) -> In r l) /\
  (forall r, In r (cnvs c) -> In r l).

(** The MEMBERS list of the record a [ComplexSV] ends with. *)
Definition members (self : ComplexSV) : list string :=
  match info (vcf_record self) !! "MEMBERS" with
  | Some (ITuple l) => l
  | _ => []
  end.

(** The CNVs that [classify_complex_inversion] hands back are among those
    it was given. *)
Definition keeps_given_cnvs : Prop :=
  forall FF RR cnvs_ cpx_type_ kept,
    classify_complex_inversion ext FF RR cnvs_ = Return (cpx_type_, kept) ->
    forall r, In r kept -> In r cnvs_.

End WithExternals.
End complex_sv.

(** ** Python floats

    A Python float is an IEEE 754 binary64 number: [spec_float] of the
    Standard Library at precision 53 and maximal exponent 1024. *)

Definition py_float : Type := SpecFloat.spec_float.

Definition float_prec : Z := 53.
Definition float_emax : Z := 1024.

(** [0.0] and [0.5]. *)
Definition float_zero : py_float := SpecFloat.S754_zero false.
Definition float_half : py_float := SpecFloat.S754_finite false 4503599627370496 (-53).

(** [a <= b] on floats; false when one of them is a NaN. *)
Definition float_le (a b : py_float) : bool := SpecFloat.SFleb a b.
Definition float_lt (a b : py_float) : bool := SpecFloat.SFltb a b.

(** [a / b] for two ints, [b] not zero (the caller raises
    ZeroDivisionError there): the float nearest to the exact quotient, ties
    to even.  A quotient too large for a float, where Python raises
    OverflowError, comes out as an infinity; the quotients taken here are
    at most 1. *)
Definition int_truediv (a b : Z) : py_float :=
  if a =? 0 then SpecFloat.S754_zero (b <? 0)
  else
    let '(q, e, l) :=
      SpecFloat.SFdiv_core_binary float_prec float_emax (Z.abs a) 0 (Z.abs b) 0 in
    SpecFloat.binary_round_aux float_prec float_emax
      (xorb (a <? 0) (b <? 0)) q e l.

(** A float that is zero, positive or the positive infinity, with the sign
    bit clear. *)
Definition float_nonneg (x : py_float) : Prop :=
  match x with
  | SpecFloat.S754_zero false | SpecFloat.S754_finite false _ _
  | SpecFloat.S754_infinity false => True
  | _ => False
  end.

(** ** svtk/cxsv/rescan_single_enders.py *)

Module rescan_single_enders.

Record DiscPair : Type := mkDiscPair {
  chrA : string;
  posA : Z;
  strandA : string;
  chrB : string;
  posB : Z;
  strandB : string;
  sample : string
}.

Definition is_inversion (p : DiscPair) : bool :=
  String.eqb (chrA p) (chrB p) && String.eqb (strandA p) (strandB p).

(** [max(...)] and [min(...)] of a generator: [ValueError] when it is empty. *)
Definition py_max (l : list Z) : result Z :=
  match l with
  | [] => Raise ValueError
  | x :: l' => Return (foldl Z.max x l')
  end.
Definition py_min (l : list Z) : result Z :=
  match l with
  | [] => Raise ValueError
  | x :: l' => Return (foldl Z.min x l')
  end.

Definition with_strandA (s : string) (cluster : list DiscPair) : list DiscPair :=
  List.filter (fun p => String.eqb (strandA p) s) cluster.
Definition with_strandB (s : string) (cluster : list DiscPair) : list DiscPair :=
  List.filter (fun p => String.eqb (strandB p) s) cluster.

Definition match_cluster (record : VariantRecord) (cluster : list DiscPair)
    (dist : Z) : result bool :=
  let r_start := pos record in
  let r_end := stop record in
  strands ← info_get record "STRANDS";
  ends ←
    (if bool_decide (strands = IStr "++") then
       if negb (existsb (fun p => String.eqb (strandA p) "+") cluster)
       then Return None
       else
         c_start ← py_max (map posA (with_strandA "+" cluster));
         c_end ← py_max (map posB (with_strandB "+" cluster));
         Return (Some (c_start, c_end))
     else if bool_decide (strands = IStr "--") then
       if negb (existsb (fun p => String.eqb (strandA p) "-") cluster)
       then Return None
       else
         c_start ← py_min (map posA (with_strandA "-" cluster));
         c_end ← py_min (map posB (with_strandB "-" cluster));
         Return (Some (c_start, c_end))
     else
       Raise (Exception ("Invalid inversion orientation: " +:+
                         match strands with IStr t => t | _ => "" end)));
  match ends with
  | None => Return false
  | Some (c_start, c_end) =>
      Return ((Z.abs (r_start - c_start) <? dist) && (Z.abs (r_end - c_end) <? dist))
  end.

Definition make_new_record (pairs : list DiscPair) (old_record : VariantRecord)
    : result VariantRecord :=
  let record := old_record in
  let record := set_id (id record +:+ "_OPPSTRAND") record in
  match pairs with
  | [] => Raise IndexError
  | p0 :: _ =>
      record ←
        (if String.eqb (strandA p0) "+" then
           new_pos ← py_max (map posA pairs);
           new_stop ← py_max (map posB pairs);
           Return (set_info "STRANDS" (IStr "++")
                     (set_stop new_stop (set_pos new_pos record)))
         else
           new_pos ← py_min (map posA pairs);
           new_stop ← py_min (map posB pairs);
           Return (set_info "STRANDS" (IStr "--")
                     (set_stop new_stop (set_pos new_pos record))));
      let record := set_info "SVLEN" (IInt (stop record - pos record)) record in
      Return (set_info "ALGORITHMS" (ITuple ["rescan"]) record)
  end.

(** [max(clusters, key=len)]: the first cluster of maximal length. *)
Fixpoint largest {A} (best : list A) (rest : list (list A)) : list A :=
  match rest with
  | [] => best
  | c :: rest' =>
      if (length best <? length c)%nat then largest c rest' else largest best rest'
  end.

(** [sample_support[s]] after the counting loop *)
Definition sample_support (supporting_pairs : list DiscPair) (s : string) : Z :=
  Z.of_nat (length (List.filter (fun p => String.eqb (sample p) s) supporting_pairs)).

Section WithEvidence.
(** The collaborators of the rescan: the tabix query on the discordant-pair
    file (already parsed into pairs), [svu.get_called_samples] and the
    clustering of [svtk.genomeslink.GenomeSLINK]. *)
Variable pe_fetch : string -> Z -> Z -> list DiscPair.
Variable get_called_samples : VariantRecord -> list string.
Variable slink_cluster : list DiscPair -> Z -> list (list DiscPair).

Definition matching_clusters (record : VariantRecord) (window dist : Z)
    : result (list (list DiscPair)) :=
  let pairs := pe_fetch (chrom record) (pos record - window) (pos record + window) in
  let called := get_called_samples record in
  let pairs :=
    List.filter (fun p => bool_decide (sample p ∈ called) && is_inversion p) pairs in
  filterM (fun c => match_cluster record c window) (slink_cluster pairs dist).

Definition supporting_pairs_of (record : VariantRecord) (cluster : list DiscPair)
    : list DiscPair :=
  let missing_strand :=
    if bool_decide (info record !! "STRANDS" = Some (IStr "--")) then "+" else "-" in
  with_strandA missing_strand cluster.

Definition n_supported_samples (called : list string)
    (supporting_pairs : list DiscPair) (min_support : Z) : Z :=
  Z.of_nat (length (List.filter
                      (fun s => min_support <=? sample_support supporting_pairs s)
                      called)).

(** [n_supported_samples / len(called) >= min_frac_samples]: the quotient
    of the two ints is a float, and so is the threshold. *)
Definition rescan_single_ender (record : VariantRecord)
    (window dist min_support : Z) (min_frac_samples : py_float)
    : result (option VariantRecord) :=
  clusters ← matching_clusters record window dist;
  let called := get_called_samples record in
  match clusters with
  | [] => Return None
  | c :: rest =>
      let cluster := largest c rest in
      let supporting_pairs := supporting_pairs_of record cluster in
      let n := n_supported_samples called supporting_pairs min_support in
      if Z.of_nat (length called) =? 0 then Raise ZeroDivisionError
      else if float_le min_frac_samples (int_truediv n (Z.of_nat (length called)))
      then Some <$> make_new_record supporting_pairs record
      else Return None
  end.

(** The extremal coordinate of the supporting pairs: the largest for pairs
    on the '+' strand, the smallest for pairs on the '-' strand. *)
Definition extremal (strand : string) (coords : list Z) (v : Z) : Prop :=
  In v coords /\
  forall x, In x coords -> if String.eqb strand "+" then x <= v else v <= x.

(** [r] is the complementary record for [old_record]: a copy of it with the
    marker on its id, both strands set to [strand], the span taken from the
    extremal coordinates of [support], SVLEN the length of that span, and
    [tag] as its only algorithm. *)
Definition synthesized_from (tag strand : string) (old_record : VariantRecord)
    (support : list DiscPair) (r : VariantRecord) : Prop :=
  id r = id old_record +:+ "_OPPSTRAND" /\
  chrom r = chrom old_record /\ ref r = ref old_record /\ alts r = alts old_record /\
  info r !! "STRANDS" = Some (IStr (strand +:+ strand)) /\
  extremal strand (map posA support) (pos r) /\
  extremal strand (map posB support) (stop r) /\
  info r !! "SVLEN" = Some (IInt (stop r - pos r)) /\
  info r !! "ALGORITHMS" = Some (ITuple [tag]) /\
  forall k, k ∉ ["END"; "STRANDS"; "SVLEN"; "ALGORITHMS"] ->
            info r !! k = info old_record !! k.

(** What the specification says of the rescan of [record], with [tag] for
    the algorithm it names: the support is made of the pairs of the largest
    matching cluster that lie on the strand the record misses; a
    complementary record is returned exactly when the fraction of called
    samples with [min_support] such pairs reaches [min_frac_samples], and
    [None] otherwise.  [proviso] is a condition on the support under which
    the record is promised. *)
Definition rescan_statement (tag : string) (proviso : list DiscPair -> Prop)
    (record : VariantRecord)
    (window dist min_support : Z) (min_frac_samples : py_float) : Prop :=
  forall missing clusters,
    (info record !! "STRANDS" = Some (IStr "--") /\ missing = "+") \/
    (info record !! "STRANDS" = Some (IStr "++") /\ missing = "-") ->
    matching_clusters record window dist = Return clusters ->
    let result := rescan_single_ender record window dist min_support min_frac_samples in
    match clusters with
    | [] => result = Return None
    | _ :: _ =>
        exists cluster,
          In cluster clusters /\
          (forall c, In c clusters -> (length c <= length cluster)%nat) /\
          let support := with_strandA missing cluster in
          let called := get_called_samples record in
          let supported :=
            List.filter (fun s => min_support <=? sample_support support s) called in
          let fraction :=
            int_truediv (Z.of_nat (length supported)) (Z.of_nat (length called)) in
          (float_le min_frac_samples fraction = true -> proviso support ->
             exists r, result = Return (Some r) /\
                       synthesized_from tag missing record support r) /\
          (float_le min_frac_samples fraction = false -> result = Return None)
    end.

(** The claim as the specification states it: no proviso. *)
Definition rescan_as_specified (tag : string) :=
  rescan_statement tag (fun _ => True).

(** The claim for the case where some pair supports the missing strand. *)
Definition rescan_with_support (tag : string) :=
  rescan_statement tag (fun support => support <> []).

(** Modelled from the spec: [GenomeSLINK] is not in the sources; by its
    contract (the connected components of the entities it is given) every
    pair of a cluster is one of the pairs that were clustered. *)
Definition clusters_of_given_pairs : Prop :=
  forall pairs dist c p, In c (slink_cluster pairs dist) -> In p c -> In p pairs.

End WithEvidence.
End rescan_single_enders.

(** ** svtk/cli/resolve.py *)

Module resolve.
Import complex_sv.

(** What [resolve_complex_sv] takes from outside this module:
    [svu.is_smaller_chrom]; [link_cpx] of [svtk.cxsv], which groups the
    records of the file into clusters; the two-result [rescan_single_ender]
    that resolve.py calls with the discordant pairs, the support threshold
    and the blacklist; and the draws of the random ten-character suffix. *)
Record ResolveExternals : Type := {
  is_smaller_chrom : string -> string -> bool;
  link_cpx : list VariantRecord -> list (list VariantRecord);
  rescan : VariantRecord -> Z -> result (VariantRecord * option VariantRecord);
  random_suffix : nat -> string
}.

Section WithExternals.
Variable ext : Externals.
Variable rext : ResolveExternals.

(** The generator [_merge_records], as the list of the values it yields.
    [vcf] and [cpx_records] are what is left of the two sources, current
    elements included: an empty list is a current element [None]. *)
Fixpoint _merge_records (vcf cpx_records : list VariantRecord)
    (cpx_record_ids : gset string) {struct vcf} : list (option VariantRecord) :=
  match vcf with
  | [] =>
      (* curr_record is None: chain([curr_cpx], cpx_records) *)
      match cpx_records with
      | [] => [None]
      | _ :: _ => map Some cpx_records
      end
  | curr_record :: vcf' =>
      (fix with_cpx (cpx_records : list VariantRecord) : list (option VariantRecord) :=
         match cpx_records with
         | [] =>
             (* curr_cpx is None: chain([curr_record], vcf), filtered *)
             map Some
               (List.filter (fun record => bool_decide (id record ∉ cpx_record_ids))
                            (curr_record :: vcf'))
         | curr_cpx :: cpx_records' =>
             if bool_decide (id curr_record ∈ cpx_record_ids)
             then _merge_records vcf' cpx_records cpx_record_ids
             else if String.eqb (chrom curr_record) (chrom curr_cpx) then
               if pos curr_record <=? pos curr_cpx
               then Some curr_record :: _merge_records vcf' cpx_records cpx_record_ids
               else Some curr_cpx :: with_cpx cpx_records'
             else if is_smaller_chrom rext (chrom curr_record) (chrom curr_cpx)
             then Some curr_record :: _merge_records vcf' cpx_records cpx_record_ids
             else Some curr_cpx :: with_cpx cpx_records'
         end) cpx_records
  end.

(** A list of yielded values read back as a source: [_next_record] takes a
    [None] it is handed for the end of the iterator. *)
Fixpoint as_source (out : list (option VariantRecord)) : list VariantRecord :=
  match out with
  | Some record :: out' => record :: as_source out'
  | _ => []
  end.

(** Coordinate order of two records: by the rank of the contig, then by
    position. *)
Definition coord_le (rank : string -> nat) (a b : VariantRecord) : Prop :=
  (rank (chrom a) < rank (chrom b))%nat \/
  (rank (chrom a) = rank (chrom b) /\ pos a <= pos b).

(** Modelled from the spec: [svu.is_smaller_chrom] is not in the sources; the
    chromosome order is that of an external contig-rank table, a table that
    gives every contig its own rank. *)
Definition follows_rank_table (is_smaller : string -> string -> bool)
    (rank : string -> nat) : Prop :=
  (forall a b, is_smaller a b = (rank a <? rank b)%nat) /\
  (forall a b, rank a = rank b -> a = b).

(** The state of the loop over the clusters.  [built] is a trace of the
    [ComplexSV] objects the loop has constructed, oldest first. *)
Record LoopState : Type := mkLoop {
  cpx_records : list VariantRecord;
  cpx_record_ids : gset string;
  n_random : nat;
  built : list ComplexSV
}.

(** [cpx] was built from (part of) the cluster [u]. *)
Definition unit_ok (cpx : ComplexSV) (u : list VariantRecord) : Prop :=
  (forall r, In r (records cpx) -> In r u) /\
  members cpx = sorted_strings (map id (records cpx)).

(** The invariant of the loop: every object built so far comes from its own
    group of records, and the consumed ids are the ids of the records the
    objects hold. *)
Definition loop_inv (st : LoopState) (units : list (list VariantRecord)) : Prop :=
  Forall2 unit_ok (built st) units /\
  forall i, i ∈ cpx_record_ids st <->
            exists cpx, In cpx (built st) /\ In i (map id (records cpx)).

Definition new_id (prefix : string) (st : LoopState) : string :=
  prefix +:+ random_suffix rext (n_random st).

(** Lines 131-137: a lone inversion is rescanned for its other strand. *)
Definition rescue_cluster (min_rescan_support : Z) (cluster : list VariantRecord)
    : result (list VariantRecord) :=
  match cluster with
  | [c0] =>
      is_inv ← svtype_is "INV" c0;
      if is_inv : bool then
        '(rec, opp) ← rescan rext c0 min_rescan_support;
        match opp with
        | Some o => Return [rec; o]
        | None => Return cluster
        end
      else Return cluster
  | _ => Return cluster
  end.

(** One insertion of an all-insertion cluster (lines 142-147). *)
Definition resolve_lone_insertion (variant_prefix : string) (st : LoopState)
    (record : VariantRecord) : result LoopState :=
  cpx ← __init__ ext [record];
  let ids := cpx_record_ids st ∪ list_to_set (record_ids cpx) in
  let out := set_id (new_id variant_prefix st) (vcf_record cpx) in
  Return (mkLoop (cpx_records st ++ [out]) ids (S (n_random st)) (built st ++ [cpx])).

Fixpoint foldM {A S} (f : S -> A -> result S) (st : S) (l : list A) : result S :=
  match l with
  | [] => Return st
  | x :: l' => st' ← f st x; foldM f st' l'
  end.

(** The body of the loop over the clusters (lines 130-167). *)
Definition resolve_cluster (variant_prefix : string) (min_rescan_support : Z)
    (st : LoopState) (cluster : list VariantRecord) : result LoopState :=
  cluster ← rescue_cluster min_rescan_support cluster;
  all_ins ← mapM (svtype_is "INS") cluster;
  if forallb (fun b => b) all_ins then
    foldM (resolve_lone_insertion variant_prefix) st cluster
  else
    cpx ← __init__ ext cluster;
    let ids := cpx_record_ids st ∪ list_to_set (record_ids cpx) in
    if bool_decide (svtype cpx = Some "UNR") then
      let unresolved_vid := new_id "UNRESOLVED_" st in
      cpx_type_ ←
        match cpx_type cpx with
        | Some t => Return t
        | None => Raise (AttributeError "cpx_type")
        end;
      let tagged :=
        map (fun record =>
               set_info "UNRESOLVED" IFlag
                 (set_info "CPX_TYPE" (IStr cpx_type_)
                    (set_info "EVENT" (IStr unresolved_vid) record)))
            (records cpx) in
      Return (mkLoop (cpx_records st ++ tagged) ids
                     (S (n_random st)) (built st ++ [cpx]))
    else
      let out := set_id (new_id variant_prefix st) (vcf_record cpx) in
      Return (mkLoop (cpx_records st ++ [out]) ids (S (n_random st)) (built st ++ [cpx])).

Definition resolve_clusters (variant_prefix : string) (min_rescan_support : Z)
    (clusters : list (list VariantRecord)) : result LoopState :=
  foldM (resolve_cluster variant_prefix min_rescan_support)
        (mkLoop [] ∅ 0 []) clusters.

(** The clean-up of one merged record before it is yielded (lines 173-182). *)
Definition pop_if_present (k : string) (record : VariantRecord) : VariantRecord :=
  if info_has record k then with_info (delete k) record else record.

Definition strip_fields (record : option VariantRecord) : result VariantRecord :=
  match record with
  | None => Raise (AttributeError "info")
  | Some record =>
      record ←
        (if info_has record "CPX_TYPE" && negb (info_has record "UNRESOLVED")
         then pop_info "STRANDS" record
         else Return record);
      Return (pop_if_present "RMSSTD"
                (pop_if_present "CIEND" (pop_if_present "CIPOS" record)))
  end.

Definition resolve_complex_sv (vcf : list VariantRecord)
    (variant_prefix : string) (min_rescan_support : Z)
    : result (list VariantRecord) :=
  let clusters := link_cpx rext vcf in
  let variant_prefix :=
    if endswith variant_prefix "_" then variant_prefix
    else variant_prefix +:+ "_" in
  st ← resolve_clusters variant_prefix min_rescan_support clusters;
  mapM strip_fields (_merge_records vcf (cpx_records st) (cpx_record_ids st)).

End WithExternals.
End resolve.

(** ** Concrete records and clusters used in the examples *)

Module examples.
Import complex_sv resolve rescan_single_enders.

Definition mk (id_ chrom_ : string) (pos_ end_ : Z)
    (svtype_ chr2_ strands_ : string) : VariantRecord :=
  mkRecord id_ chrom_ pos_ "N" ["<" +:+ svtype_ +:+ ">"]
    (<["SVTYPE" := IStr svtype_]>
       (<["CHR2" := IStr chr2_]>
          (<["END" := IInt end_]>
             (<["STRANDS" := IStr strands_]>
                (<["SVLEN" := IInt (end_ - pos_)]>
                   (<["ALGORITHMS" := ITuple ["manta"]]> ∅)))))).

(** Externals for the examples: every position is on the p arm of chr1 and
    on the q arm elsewhere, nothing is covered by mobile elements, the
    inversion classifier answers a plain inversion and keeps no CNV, the
    insertion classifier answers [label]. *)
Definition demo_ext (label : string) : Externals :=
  {| cytobands := fun c _ => if String.eqb c "chr1" then ["p11.1"] else ["q11.1"];
     mei_coverage := fun _ _ _ => 0%Q;
     classify_complex_inversion := fun _ _ _ => Return ("INV", []);
     classify_insertion := fun _ _ => Return label;
     update_best_genotypes := fun r _ => Return r;
     header_info := ["SVTYPE"; "CHR2"; "END"; "STRANDS"; "SVLEN"; "ALGORITHMS"] |}.

(** A state as [__init__] leaves it before [resolve]. *)
Definition organized (ext : Externals) (records_ : list VariantRecord)
    : result ComplexSV :=
  let placeholder := mkRecord "" "" 0 "" [] ∅ in
  self ← organize_records (mkCpx records_ [] [] [] [] [] None None None placeholder);
  make_record ext self.

(** Three records of one file, in coordinate order.  The two inversion
    breakpoints [rec_a] and [rec_c] are linked to each other (both ends
    within 300 bp); the insertion [rec_b] lies between them and is linked
    to neither. *)
Definition rec_a := mk "a" "chr1" 100 10000 "INV" "chr1" "++".
Definition rec_b := mk "b" "chr1" 200 201 "INS" "chr1" "+-".
Definition rec_c := mk "c" "chr1" 300 10100 "INV" "chr1" "++".

Definition demo_rext (clusters : list (list VariantRecord)) : ResolveExternals :=
  {| is_smaller_chrom := fun a b => String.ltb a b;
     link_cpx := fun _ => clusters;
     rescan := fun r _ => Return (r, None);
     random_suffix := fun n => pretty (Z.of_nat n) |}.

(** A single-ended inversion on the '-' strand, called in two samples, and
    discordant pairs around it: three on the '-' strand, four per sample on
    the '+' strand; all of them form one cluster. *)
Definition single_ender := mk "se" "chr1" 1000 2000 "INV" "chr1" "--".

Definition pair (posA_ posB_ : Z) (strand sample_ : string) : DiscPair :=
  mkDiscPair "chr1" posA_ strand "chr1" posB_ strand sample_.

Definition demo_pairs : list DiscPair :=
  [pair 1000 2000 "-" "s1"; pair 1010 2010 "-" "s2"; pair 1020 2020 "-" "s1";
   pair 900 1900 "+" "s1"; pair 910 1910 "+" "s1"; pair 920 1920 "+" "s1";
   pair 930 1930 "+" "s1";
   pair 905 1905 "+" "s2"; pair 915 1915 "+" "s2"; pair 925 1925 "+" "s2";
   pair 935 1935 "+" "s2"].

Definition demo_fetch (c : string) (lo hi : Z) : list DiscPair :=
  List.filter (fun p => String.eqb (chrA p) c && (lo <=? posA p) && (posA p <=? hi))
              demo_pairs.
Definition demo_called (r : VariantRecord) : list string := ["s1"; "s2"].
Definition demo_slink (pairs : list DiscPair) (dist : Z) : list (list DiscPair) :=
  match pairs with [] => [] | _ => [pairs] end.

(** A pair of interchromosomal breakends with strands '++' and '--', between
    the p arm of chr1 and the q arm of chr2, and the object that holds them
    when [resolve_translocation] is called. *)
Definition tloc_plus := mk "t1" "chr1" 1000 5000 "BND" "chr2" "++".
Definition tloc_minus := mk "t2" "chr1" 1005 4990 "BND" "chr2" "--".
Definition tloc_state : ComplexSV :=
  mkCpx [tloc_minus; tloc_plus] [] [tloc_minus; tloc_plus] [] [] []
        (Some "CANDIDATE_TRANSLOCATION") None None tloc_minus.

(** A pair of same-chromosome breakends with strands '+-' and '-+' whose
    sink spans 150 bp, and the object that holds them when
    [resolve_insertion] is called. *)
Definition ins_plus := mk "b1" "chr1" 1000 9000 "BND" "chr1" "+-".
Definition ins_minus := mk "b2" "chr1" 1150 9400 "BND" "chr1" "-+".
Definition ins_state : ComplexSV :=
  mkCpx [ins_plus; ins_minus] [] [] [ins_plus; ins_minus] [] []
        (Some "CANDIDATE_INSERTION") None None ins_plus.

(** A cluster of one insertion and one same-chromosome breakend. *)
Definition lone_ins := mk "ins1" "chr1" 1000 1001 "INS" "chr1" "+-".
Definition lone_bnd := mk "bnd1" "chr1" 1010 5000 "BND" "chr1" "+-".

(** An inversion pair. *)
Definition inv_FF := mk "ff" "chr1" 100 500 "INV" "chr1" "++".
Definition inv_RR := mk "rr" "chr1" 120 520 "INV" "chr1" "--".

End examples.

(** ** Notions used to state further properties *)

(** The records among the values a generator has yielded. *)
Definition records_of (out : list (option VariantRecord)) : list VariantRecord :=
  omap (fun o => o) out.

(** A contig-rank table that gives every contig name its own rank, and
    externals whose chromosome order follows it. *)
Definition contig_rank (c : string) : nat := Pos.to_nat (encode c).

Definition ranked_rext : resolve.ResolveExternals :=
  {| resolve.is_smaller_chrom := fun a b => (contig_rank a <? contig_rank b)%nat;
     resolve.link_cpx := fun _ => [];
     resolve.rescan := fun r _ => Return (r, None);
     resolve.random_suffix := fun n => pretty (Z.of_nat n) |}.

(** The thirteen cluster types [set_cluster_type] can assign. *)
Definition cluster_types : list string :=
  ["MATCHED_STRANDS"; "CANDIDATE_INVERSION"; "TLOC_WITH_CNV";
   "CANDIDATE_TRANSLOCATION"; "STRAND_MISMATCH_TLOC"; "INS_WITH_CNV";
   "CANDIDATE_INSERTION"; "STRAND_MISMATCH_INS"; "MULTIPLE_RESOLVED_INSERTIONS";
   "ERROR_CNV_ONLY"; "RESOLVED_INSERTION"; "SINGLE_ENDER"; "MIXED_BREAKENDS"].

(** A lone insertion record, as an object holds it before its type is set. *)
Definition lone_ins_state : complex_sv.ComplexSV :=
  complex_sv.mkCpx [examples.lone_ins] [] [] [] [examples.lone_ins] []
                   None None None examples.lone_ins.

(** [m], when it raises, raises an exception that satisfies [P]. *)
Definition raises_only {A} (P : exn -> Prop) (m : result A) : Prop :=
  forall e, m = Raise e -> P e.

(** The exceptions of a read that fails on the data: a missing INFO key, a
    value of the wrong type, a list of the wrong length, an empty query. *)
Definition data_error (e : exn) : Prop :=
  match e with
  | KeyError _ | TypeError | ValueError | IndexError | StopIteration => True
  | _ => False
  end.

(** The svtypes a [ComplexSV] can end with. *)
Definition svtypes : list string := ["INV"; "CPX"; "INS"; "UNR"; "CTX"; "DUP"].

(** The object has an svtype among [svtypes], and a cpx_type when that
    svtype is UNR. *)
Definition settled (c : complex_sv.ComplexSV) : Prop :=
  exists t, complex_sv.svtype c = Some t /\ In t svtypes /\
            (t = "UNR" -> is_Some (complex_sv.cpx_type c)).

(** Externals whose header declares EVIDENCE, and an inversion breakpoint
    with split-read evidence only. *)
Definition evidence_ext : Externals :=
  {| cytobands := cytobands (examples.demo_ext "");
     mei_coverage := mei_coverage (examples.demo_ext "");
     classify_complex_inversion :=
       classify_complex_inversion (examples.demo_ext "");
     classify_insertion := classify_insertion (examples.demo_ext "");
     update_best_genotypes :=
       update_best_genotypes (examples.demo_ext "");
     header_info := "EVIDENCE" :: header_info (examples.demo_ext "") |}.

Definition sr_only_rec : VariantRecord :=
  set_info "EVIDENCE" (ITuple ["SR"]) examples.inv_RR.

Definition sr_state : complex_sv.ComplexSV :=
  complex_sv.mkCpx [examples.inv_FF; sr_only_rec] [] [] [] [] []
                   None None None examples.inv_FF.

(** A discordant-pair file that holds the pairs of [demo_pairs] on the '-'
    strand only. *)
Definition minus_fetch (c : string) (lo hi : Z) : list rescan_single_enders.DiscPair :=
  rescan_single_enders.with_strandA "-" (examples.demo_fetch c lo hi).

(** A record as the loop over the clusters queues it, [n] random suffixes
    having been drawn: a member of an unresolved cluster, flagged and tagged
    with its event and the type its object ended with, or the record of an object
    under a fresh id that starts with the variant prefix. *)
Definition queued_ok (rext : resolve.ResolveExternals) (prefix : string) (n : nat)
    (r : VariantRecord) : Prop :=
  (info r !! "UNRESOLVED" = Some IFlag /\
   (exists t, info r !! "CPX_TYPE" = Some (IStr t)) /\
   exists k, (k < n)%nat /\
     info r !! "EVENT" = Some (IStr ("UNRESOLVED_" +:+ resolve.random_suffix rext k))) \/
  (exists k, (k < n)%nat /\ id r = prefix +:+ resolve.random_suffix rext k).

(** [variant_prefix] as [resolve_complex_sv] uses it. *)
Definition with_underscore (variant_prefix : string) : string :=
  if endswith variant_prefix "_" then variant_prefix else variant_prefix +:+ "_".

(** A resolved complex record: it has a CPX_TYPE and no UNRESOLVED flag. *)
Definition is_resolved (r : VariantRecord) : Prop :=
  is_Some (info r !! "CPX_TYPE") /\ info r !! "UNRESOLVED" = None.

(** The fields the final clean-up removes from every record. *)
Definition stripped_keys : list string := ["CIPOS"; "CIEND"; "RMSSTD"].

(** Externals whose cytoband file has no row at all. *)
Definition no_band_ext : Externals :=
  {| cytobands := fun _ _ => [];
     mei_coverage := mei_coverage (examples.demo_ext "");
     classify_complex_inversion := classify_complex_inversion (examples.demo_ext "");
     classify_insertion := classify_insertion (examples.demo_ext "");
     update_best_genotypes := update_best_genotypes (examples.demo_ext "");
     header_info := header_info (examples.demo_ext "") |}.

(** The reconciliation of [resolve_complex_sv] (lines 172-182): the merge of
    the file with the queue, and the clean-up of every record it yields. *)
Definition reconcile (rext : resolve.ResolveExternals)
    (vcf cpx_records : list VariantRecord) (cpx_record_ids : gset string)
    : result (list VariantRecord) :=
  mapM resolve.strip_fields (resolve._merge_records rext vcf cpx_records cpx_record_ids).

(** [i] is listed in the MEMBERS of [r]. *)
Definition lists_member (i : string) (r : VariantRecord) : bool :=
  match info r !! "MEMBERS" with
  | Some (ITuple m) => bool_decide (i ∈ m)
  | _ => false
  end.

(** A record emitted for a member of an unresolved cluster. *)
Definition flagged_unresolved (r : VariantRecord) : Prop :=
  info r !! "UNRESOLVED" = Some IFlag /\ is_Some (info r !! "EVENT").

(** What the loop over the clusters queues for an object it has built: the
    record of the object under a new id, or the records the object holds,
    each tagged with the event. *)
Definition emitted_as (cpx : complex_sv.ComplexSV) (group : list VariantRecord) : Prop :=
  (exists new_id, group = [set_id new_id (complex_sv.vcf_record cpx)]) \/
  (exists vid t,
      group = map (fun record =>
                     set_info "UNRESOLVED" IFlag
                       (set_info "CPX_TYPE" (IStr t)
                          (set_info "EVENT" (IStr vid) record)))
                  (complex_sv.records cpx)).

(** A cluster made of insertion records only. *)
Definition all_insertions (cluster : list VariantRecord) : Prop :=
  Forall (fun r => info r !! "SVTYPE" = Some (IStr "INS")) cluster.

(** The clusters and the file hold distinct ids, none of which an input
    record lists among its MEMBERS already. *)
Definition fresh_clusters (vcf : list VariantRecord)
    (rescued : list (list VariantRecord)) : Prop :=
  NoDup (map id (concat rescued)) /\
  forall r i, In r (vcf ++ concat rescued) -> In i (map id (concat rescued)) ->
              lists_member i r = false.

(** The queue is made of one group of records per object built. *)
Definition queue_groups (st : resolve.LoopState)
    (groups : list (list VariantRecord)) : Prop :=
  resolve.cpx_records st = concat groups /\
  Forall2 emitted_as (resolve.built st) groups.

(** Two insertion records with the same id, and a deletion that lists the
    id of [rec_b] among its MEMBERS. *)
Definition dup_a : VariantRecord := examples.mk "dup" "chr1" 100 101 "INS" "chr1" "+-".
Definition dup_b : VariantRecord := examples.mk "dup" "chr1" 5000 5001 "INS" "chr1" "+-".
Definition listing_del : VariantRecord :=
  set_info "MEMBERS" (ITuple ["b"]) (examples.mk "d" "chr1" 50 60 "DEL" "chr1" "+-").

(** * Properties *)

(** ** The error monad *)

Lemma bind_Return {A B} (m : result A) (f : A -> result B) (b : B) :
  m ≫= f = Return b <-> exists a, m = Return a /\ f a = Return b.
Proof.
  destruct m as [e|a]; simpl; split.
  - discriminate.
  - intros (a & Ha & _). discriminate.
  - eauto.
  - intros (a' & [= <-] & Hf). exact Hf.
Qed.

Lemma bind_Raise {A B} (m : result A) (f : A -> result B) (e : exn) :
  m ≫= f = Raise e <-> m = Raise e \/ exists a, m = Return a /\ f a = Raise e.
Proof.
  destruct m as [e'|a]; simpl; split.
  - intros [= <-]. left. reflexivity.
  - intros [[= <-] | (a & Ha & _)]; [reflexivity | discriminate].
  - eauto.
  - intros [Ha | (a' & [= <-] & Hf)]; [discriminate | exact Hf].
Qed.

Lemma fmap_Return {A B} (g : A -> B) (m : result A) (b : B) :
  g <$> m = Return b <-> exists a, m = Return a /\ b = g a.
Proof.
  destruct m as [e|a]; simpl; split.
  - discriminate.
  - intros (a & Ha & _). discriminate.
  - intros [= <-]. eauto.
  - intros (a' & [= <-] & ->). reflexivity.
Qed.

(** Take the first bind of a hypothesis [x ← m; k = Return b] apart. *)
Ltac bind_inv H :=
  let a := fresh "a" in
  let E := fresh "E" in
  apply bind_Return in H; destruct H as (a & E & H).

Lemma filterM_sub {A} (p : A -> result bool) (l l' : list A) :
  filterM p l = Return l' -> forall x, In x l' -> In x l.
Proof.
  revert l'. induction l as [|y l IH]; simpl; intros l' H x Hx.
  - injection H as <-. destruct Hx.
  - bind_inv H. bind_inv H. injection H as <-.
    destruct a; [destruct Hx as [<-|Hx]|]; eauto.
Qed.

Lemma filterM_spec {A} (p : A -> result bool) (l l' : list A) :
  filterM p l = Return l' ->
  forall x, In x l' <-> In x l /\ p x = Return true.
Proof.
  revert l'. induction l as [|y l IH]; simpl; intros l' H x.
  - injection H as <-. simpl. tauto.
  - bind_inv H. bind_inv H. injection H as <-.
    specialize (IH _ E0 x). destruct a; simpl; rewrite IH; split.
    + intros [<- | [? ?]]; auto.
    + intros [[<- | ?] ?]; auto.
    + intros [? ?]; auto.
    + intros [[<- | ?] ?]; [congruence | auto].
Qed.

Lemma info_get_Return r k v : info_get r k = Return v <-> info r !! k = Some v.
Proof.
  unfold info_get. destruct (info r !! k); split; intros H; congruence.
Qed.

Lemma info_int_Return r k z : info_int r k = Return z <-> info r !! k = Some (IInt z).
Proof.
  unfold info_int, info_get.
  destruct (info r !! k) as [[]|]; simpl; split; intros H; congruence.
Qed.

Lemma info_str_Return r k t : info_str r k = Return t <-> info r !! k = Some (IStr t).
Proof.
  unfold info_str, info_get.
  destruct (info r !! k) as [[]|]; simpl; split; intros H; congruence.
Qed.

(** ** Reading a record after assignments *)

Lemma info_set_info k v r : info (set_info k v r) = <[k:=v]> (info r).
Proof. reflexivity. Qed.
Lemma info_set_stop v r : info (set_stop v r) = <["END":=IInt v]> (info r).
Proof. reflexivity. Qed.
Lemma info_set_alts a r : info (set_alts a r) = delete "END" (info r).
Proof. reflexivity. Qed.
Lemma info_set_pos v r : info (set_pos v r) = info r.
Proof. reflexivity. Qed.
Lemma info_set_chrom v r : info (set_chrom v r) = info r.
Proof. reflexivity. Qed.
Lemma info_set_id v r : info (set_id v r) = info r.
Proof. reflexivity. Qed.

Lemma stop_set_stop v r : stop (set_stop v r) = v.
Proof. unfold stop. rewrite info_set_stop. by rewrite lookup_insert_eq. Qed.

Lemma stop_set_info k v r : k <> "END" -> stop (set_info k v r) = stop r.
Proof. intros Hk. unfold stop. rewrite info_set_info. by rewrite lookup_insert_ne. Qed.

Lemma pos_set_info k v r : pos (set_info k v r) = pos r.
Proof. reflexivity. Qed.
Lemma pos_set_stop v r : pos (set_stop v r) = pos r.
Proof. reflexivity. Qed.
Lemma chrom_set_info k v r : chrom (set_info k v r) = chrom r.
Proof. reflexivity. Qed.
Lemma chrom_set_stop v r : chrom (set_stop v r) = chrom r.
Proof. reflexivity. Qed.
Lemma id_set_info k v r : id (set_info k v r) = id r.
Proof. reflexivity. Qed.
Lemma id_set_stop v r : id (set_stop v r) = id r.
Proof. reflexivity. Qed.

(** Normalise reads of [info], [stop], [pos], [chrom] and [id] through a
    chain of assignments. *)
Ltac record_simpl :=
  repeat first
    [ rewrite stop_set_stop
    | rewrite stop_set_info by discriminate
    | rewrite info_set_info | rewrite info_set_stop | rewrite info_set_alts
    | rewrite info_set_pos | rewrite info_set_chrom | rewrite info_set_id
    | rewrite pos_set_info | rewrite pos_set_stop
    | rewrite chrom_set_info | rewrite chrom_set_stop
    | rewrite id_set_info | rewrite id_set_stop
    | rewrite lookup_insert_eq
    | rewrite lookup_insert_ne by discriminate
    | rewrite lookup_delete_eq
    | rewrite lookup_delete_ne by discriminate ].

(** Reads of the attributes of a [ComplexSV] after assignments. *)
Ltac cpx_simpl :=
  cbn [complex_sv.svtype complex_sv.cpx_type complex_sv.cluster_type
       complex_sv.records complex_sv.vcf_record complex_sv.inversions
       complex_sv.tlocs complex_sv.breakends complex_sv.insertions
       complex_sv.cnvs complex_sv.upd_vcf_record complex_sv.set_vcf_record
       complex_sv.set_svtype complex_sv.set_cpx_type complex_sv.set_records
       complex_sv.set_partitions complex_sv.set_cluster_type_attr
       complex_sv.set_unresolved] in *.
(** ** Floats *)

Section Floats.
Import SpecFloat.

Lemma shr_1_nonneg mrs : 0 <= shr_m mrs -> 0 <= shr_m (shr_1 mrs).
Proof.
  destruct mrs as [m r s]. cbn [shr_m]. intros Hm.
  destruct m as [|p|p]; [cbn; lia | destruct p; cbn; lia | lia].
Qed.

Lemma iter_pos_shr_nonneg p mrs :
  0 <= shr_m mrs -> 0 <= shr_m (iter_pos shr_1 p mrs).
Proof.
  revert mrs. induction p as [p IH|p IH|]; intros mrs Hm; cbn [iter_pos].
  - apply IH, IH, shr_1_nonneg, Hm.
  - apply IH, IH, Hm.
  - apply shr_1_nonneg, Hm.
Qed.

Lemma shr_fexp_nonneg m e l :
  0 <= m -> 0 <= shr_m (fst (shr_fexp float_prec float_emax m e l)).
Proof.
  intros Hm. unfold shr_fexp, shr.
  assert (H0 : 0 <= shr_m (shr_record_of_loc m l))
    by (destruct l as [|[]]; exact Hm).
  destruct (_ - e) as [|p|p]; cbn [fst]; [exact H0 | | exact H0].
  apply iter_pos_shr_nonneg, H0.
Qed.

Lemma round_nearest_even_nonneg m l : 0 <= m -> 0 <= round_nearest_even m l.
Proof.
  intros Hm. unfold round_nearest_even.
  destruct l as [|[]]; [lia | destruct (Z.even m); lia | lia | lia].
Qed.

Lemma binary_round_aux_nonneg m e l :
  0 <= m -> float_nonneg (binary_round_aux float_prec float_emax false m e l).
Proof.
  intros Hm. unfold binary_round_aux.
  pose proof (shr_fexp_nonneg m e l Hm) as H1.
  destruct (shr_fexp float_prec float_emax m e l) as [mrs' e'] eqn:E1.
  cbn [fst] in H1.
  pose proof (shr_fexp_nonneg
                (round_nearest_even (shr_m mrs') (loc_of_shr_record mrs')) e' loc_Exact
                (round_nearest_even_nonneg _ _ H1)) as H2.
  destruct (shr_fexp float_prec float_emax
              (round_nearest_even (shr_m mrs') (loc_of_shr_record mrs')) e' loc_Exact)
    as [mrs'' e''] eqn:E2.
  cbn [fst] in H2.
  destruct (shr_m mrs'') as [|p|p]; [exact I | | lia].
  destruct (e'' <=? _); exact I.
Qed.

(** The quotient of a count by a positive count is not negative, and is a
    number. *)
Lemma int_truediv_nonneg a b : 0 <= a -> 0 < b -> float_nonneg (int_truediv a b).
Proof.
  intros Ha Hb. unfold int_truediv.
  destruct (Z.eqb_spec a 0) as [->|Hne].
  - destruct (Z.ltb_spec b 0); [lia | exact I].
  - destruct (Z.ltb_spec a 0); [lia|]. destruct (Z.ltb_spec b 0); [lia|].
    cbn [xorb]. unfold SFdiv_core_binary.
    rewrite (Z.abs_eq a), (Z.abs_eq b) by lia.
    match goal with
    | |- context [Z.div_eucl ?x b] =>
        assert (Hx : 0 <= x); [| pose proof (Z_div_mod x b ltac:(lia)) as Hd;
                                  destruct (Z.div_eucl x b) as [q r] ]
    end.
    { destruct (_ - _ - _) as [|p|p]; [lia | | lia].
      apply Z.shiftl_nonneg. lia. }
    apply binary_round_aux_nonneg. nia.
Qed.

Lemma int_truediv_zero b : 0 < b -> int_truediv 0 b = float_zero.
Proof.
  intros Hb. unfold int_truediv. cbn [Z.eqb].
  destruct (Z.ltb_spec b 0); [lia | reflexivity].
Qed.

(** A threshold that is at most [0.0] is at most any quotient of counts. *)
Lemma float_le_nonpos_nonneg t x :
  float_le t float_zero = true -> float_nonneg x -> float_le t x = true.
Proof.
  unfold float_le, float_zero, SFleb.
  destruct t as [[]|[]| |[] m e], x as [[]|[]| |[] m' e']; cbn; try tauto;
    try discriminate.
Qed.

(** A positive threshold is above [0.0]. *)
Lemma float_le_zero_pos t :
  float_lt float_zero t = true -> float_le t float_zero = false.
Proof.
  unfold float_le, float_lt, float_zero, SFleb, SFltb.
  destruct t as [[]|[]| |[] m e]; cbn; try tauto; try discriminate.
Qed.

End Floats.
(** ** Properties of the reconciliation of the two streams *)

Section Reconciliation.
Import resolve.
Variable rext : ResolveExternals.

Lemma merge_no_cpx vcf ids :
  vcf <> [] ->
  _merge_records rext vcf [] ids =
  map Some (List.filter (fun record => bool_decide (id record ∉ ids)) vcf).
Proof. destruct vcf as [|r vcf]; [congruence | reflexivity]. Qed.

(** One turn of the loop, both current elements present. *)
Lemma merge_step r vcf c cpx ids :
  _merge_records rext (r :: vcf) (c :: cpx) ids =
  if bool_decide (id r ∈ ids) then _merge_records rext vcf (c :: cpx) ids
  else if String.eqb (chrom r) (chrom c) then
    if pos r <=? pos c then Some r :: _merge_records rext vcf (c :: cpx) ids
    else Some c :: _merge_records rext (r :: vcf) cpx ids
  else if is_smaller_chrom rext (chrom r) (chrom c)
  then Some r :: _merge_records rext vcf (c :: cpx) ids
  else Some c :: _merge_records rext (r :: vcf) cpx ids.
Proof. reflexivity. Qed.

(** Unless both sources are empty, a run yields records only. *)
Lemma merge_records_only vcf cpx ids :
  vcf <> [] \/ cpx <> [] ->
  exists l, _merge_records rext vcf cpx ids = map Some l.
Proof.
  revert cpx. induction vcf as [|r vcf IH]; intros cpx Hne.
  - destruct cpx as [|c cpx]; [destruct Hne; congruence|].
    eexists; reflexivity.
  - clear Hne. induction cpx as [|c cpx IHc].
    + eexists; reflexivity.
    + destruct (IH (c :: cpx)) as [l1 E1]; [right; discriminate|].
      destruct IHc as [l2 E2].
      rewrite merge_step, E1, E2.
      destruct (bool_decide (id r ∈ ids)); [eauto|].
      destruct (String.eqb _ _); [destruct (_ <=? _) | destruct (is_smaller_chrom _ _ _)];
        first [by exists (r :: l1) | by exists (c :: l2)].
Qed.

Lemma as_source_Some l : as_source (map Some l) = l.
Proof. induction l as [|r l IH]; simpl; congruence. Qed.

Lemma filter_nothing_consumed (l : list VariantRecord) :
  List.filter (fun record => bool_decide (id record ∉ (∅ : gset string))) l = l.
Proof.
  induction l as [|r l IH]; [reflexivity|].
  cbn [List.filter]. rewrite IH.
  rewrite bool_decide_true by set_solver. reflexivity.
Qed.

(** A non-empty stream of a run, merged again with nothing queued and
    nothing consumed, comes out as it is. *)
Lemma merge_rerun_back vcf cpx ids :
  _merge_records rext vcf cpx ids <> [] ->
  _merge_records rext (as_source (_merge_records rext vcf cpx ids)) [] ∅
  = _merge_records rext vcf cpx ids.
Proof.
  intros Hne.
  destruct (decide (vcf = [] /\ cpx = [])) as [[-> ->] | Hsome].
  - reflexivity.
  - destruct (merge_records_only vcf cpx ids) as [l E].
    { destruct vcf; [destruct cpx; [tauto|] |]; auto. }
    rewrite E in *. rewrite as_source_Some.
    destruct l as [|x l]; [done|].
    rewrite merge_no_cpx by discriminate.
    by rewrite filter_nothing_consumed.
Qed.

(** X26: re-running the merge on a stream it has produced, with nothing
    queued and nothing consumed, gives the stream back, provided the stream
    is not empty. *)
Lemma merge_rerun_nonempty vcf cpx ids :
  let out := _merge_records rext vcf cpx ids in
  out <> [] -> _merge_records rext (as_source out) [] ∅ = out.
Proof. cbv zeta. apply merge_rerun_back. Qed.

End Reconciliation.

Section SortedMerge.
Import resolve.
Variable rext : ResolveExternals.
Variable rank : string -> nat.
Hypothesis Hrank : follows_rank_table (is_smaller_chrom rext) rank.

Lemma coord_le_trans a b c :
  coord_le rank a b -> coord_le rank b c -> coord_le rank a c.
Proof. unfold coord_le. lia. Qed.

Lemma coord_le_total a b : coord_le rank a b \/ coord_le rank b a.
Proof. unfold coord_le. lia. Qed.

(** What the comparison of the two current elements decides. *)
Lemma merge_choice r c :
  (if String.eqb (chrom r) (chrom c) then pos r <=? pos c
   else is_smaller_chrom rext (chrom r) (chrom c)) = true ->
  coord_le rank r c.
Proof.
  destruct Hrank as [Hlt Hinj]. unfold coord_le.
  destruct (String.eqb_spec (chrom r) (chrom c)) as [E|NE].
  - rewrite E. intros H%Z.leb_le. lia.
  - rewrite Hlt. intros H%Nat.ltb_lt. lia.
Qed.

Lemma merge_choice_not r c :
  (if String.eqb (chrom r) (chrom c) then pos r <=? pos c
   else is_smaller_chrom rext (chrom r) (chrom c)) = false ->
  coord_le rank c r.
Proof.
  destruct Hrank as [Hlt Hinj]. unfold coord_le.
  destruct (String.eqb_spec (chrom r) (chrom c)) as [E|NE].
  - rewrite E. intros H%Z.leb_gt. lia.
  - rewrite Hlt. intros H%Nat.ltb_ge.
    assert (rank (chrom r) <> rank (chrom c)) by (intros E; apply NE, Hinj, E).
    lia.
Qed.

Lemma merge_strongly_sorted vcf cpx ids l :
  StronglySorted (coord_le rank) vcf ->
  StronglySorted (coord_le rank) cpx ->
  _merge_records rext vcf cpx ids = map Some l ->
  StronglySorted (coord_le rank) l /\ (forall x, In x l -> In x vcf \/ In x cpx).
Proof.
  revert cpx l. induction vcf as [|r vcf IH]; intros cpx l Hv Hc E.
  - destruct cpx as [|c cpx]; [destruct l; discriminate|].
    apply (inj (map Some)) in E. subst l. auto.
  - revert l E. induction Hc as [|c cpx Hc IHc Hall]; intros l E.
    + rewrite merge_no_cpx in E by discriminate.
      apply (inj (map Some)) in E. subst l. split.
      * clear IH. induction Hv as [|a v Hv IHv Ha]; [constructor|].
        cbn [List.filter]. destruct (bool_decide _); [|assumption].
        constructor; [assumption|].
        apply List.Forall_forall. intros x [Hx _]%filter_In.
        rewrite List.Forall_forall in Ha. auto.
      * intros x [Hx _]%filter_In. auto.
    + rewrite merge_step in E.
      pose proof (StronglySorted_inv Hv) as [Hv' Hr].
      assert (Hcc : StronglySorted (coord_le rank) (c :: cpx)) by (constructor; assumption).
      rewrite List.Forall_forall in Hr, Hall.
      assert (Hyield_r : forall l1,
                 (if String.eqb (chrom r) (chrom c) then pos r <=? pos c
                  else is_smaller_chrom rext (chrom r) (chrom c)) = true ->
                 _merge_records rext vcf (c :: cpx) ids = map Some l1 ->
                 StronglySorted (coord_le rank) (r :: l1) /\
                 (forall x, In x (r :: l1) -> In x (r :: vcf) \/ In x (c :: cpx))).
      { intros l1 Hle E1. destruct (IH _ _ Hv' Hcc E1) as [S1 I1].
        apply merge_choice in Hle. split.
        - constructor; [assumption|]. apply List.Forall_forall. intros x Hx.
          destruct (I1 x Hx) as [Hx'|[<-|Hx']]; auto.
          eapply coord_le_trans; [exact Hle | auto].
        - intros x [<-|Hx]; [left; left; reflexivity|].
          destruct (I1 x Hx); [left; right|right]; assumption. }
      assert (Hyield_c : forall l2,
                 (if String.eqb (chrom r) (chrom c) then pos r <=? pos c
                  else is_smaller_chrom rext (chrom r) (chrom c)) = false ->
                 _merge_records rext (r :: vcf) cpx ids = map Some l2 ->
                 StronglySorted (coord_le rank) (c :: l2) /\
                 (forall x, In x (c :: l2) -> In x (r :: vcf) \/ In x (c :: cpx))).
      { intros l2 Hle E2. destruct (IHc _ E2) as [S2 I2].
        apply merge_choice_not in Hle. split.
        - constructor; [assumption|]. apply List.Forall_forall. intros x Hx.
          destruct (I2 x Hx) as [[<-|Hx']|Hx']; auto.
          eapply coord_le_trans; [exact Hle | auto].
        - intros x [<-|Hx]; [right; left; reflexivity|].
          destruct (I2 x Hx); [left|right; right]; assumption. }
      destruct (bool_decide (id r ∈ ids)).
      { destruct (IH _ _ Hv' Hcc E) as [S1 I1]. split; [assumption|].
        intros x Hx. destruct (I1 x Hx); [left; right|right]; assumption. }
      destruct (String.eqb (chrom r) (chrom c)).
      * destruct (pos r <=? pos c) eqn:Hp;
          (destruct l as [|y l]; [discriminate|]); simpl in E;
          injection E as <- E; auto.
      * destruct (is_smaller_chrom rext (chrom r) (chrom c)) eqn:Hp;
          (destruct l as [|y l]; [discriminate|]); simpl in E;
          injection E as <- E; auto.
Qed.

(** X25: with both sources in coordinate order, so is what the merge
    yields, whatever the set of consumed ids. *)
Lemma merge_sorted vcf cpx ids l :
  Sorted (coord_le rank) vcf -> Sorted (coord_le rank) cpx ->
  _merge_records rext vcf cpx ids = map Some l ->
  Sorted (coord_le rank) l.
Proof.
  intros Hv Hc E. apply StronglySorted_Sorted.
  apply (merge_strongly_sorted vcf cpx ids l); [| |exact E];
    apply Sorted_StronglySorted; try assumption; intros a b c; apply coord_le_trans.
Qed.

End SortedMerge.

(** ** The stream reconciliation on concrete inputs *)

Section ReconciliationClaims.
Import resolve examples.

(** C10: when the original stream and the queue of synthesized records are
    both empty, [_merge_records] yields exactly one value, [None], and not
    an empty stream. *)
Theorem merge_of_nothing_yields_None (rext : ResolveExternals) (ids : gset string) :
  _merge_records rext [] [] ids = [None].
Proof. reflexivity. Qed.

(** Called on its own with its only record consumed and nothing queued,
    the merge emits the empty stream, and a re-run on that stream emits the
    value [None].  The loop of [resolve_complex_sv] never makes such a call:
    it queues a record whenever it consumes an id. *)
Lemma direct_call_with_everything_consumed :
  let out := _merge_records (demo_rext []) [rec_a] [] {["a"]} in
  out = [] /\
  _merge_records (demo_rext []) (as_source out) [] ∅ = [None] /\
  _merge_records (demo_rext []) (as_source out) [] ∅ <> out.
Proof. vm_compute. repeat split; discriminate. Qed.

(** C2 (the code departs from the claim).  The file holds [rec_a], [rec_b],
    [rec_c] in coordinate order; the clusters are [[rec_a; rec_c]] and
    [[rec_b]].  The queue receives the two unresolved inversion breakpoints
    before the insertion, and the merged stream comes out as positions
    100, 300, 200 of chr1: the last two are out of order. *)
Theorem merged_stream_out_of_order :
  let rext := demo_rext [[rec_a; rec_c]; [rec_b]] in
  let rank := fun c : string => if String.eqb c "chr1" then 1%nat else 2%nat in
  Sorted (coord_le rank) [rec_a; rec_b; rec_c] /\
  exists out,
    resolve_complex_sv (demo_ext "") rext [rec_a; rec_b; rec_c] "CPX_" 4 = Return out /\
    map (fun r => (chrom r, pos r)) out = [("chr1", 100); ("chr1", 300); ("chr1", 200)] /\
    ~ Sorted (coord_le rank) out.
Proof.
  cbv zeta. split.
  - repeat first [apply Sorted_nil | apply HdRel_nil | apply Sorted_cons
                  | apply HdRel_cons; right; split; [reflexivity | vm_compute; discriminate]].
  - eexists. split; [vm_compute; reflexivity|]. split; [reflexivity|].
    intros H. inversion H as [|? ? H1 _]; subst.
    inversion H1 as [|? ? _ H2]; subst.
    inversion H2 as [|? ? Hle]; subst.
    revert Hle. unfold coord_le. vm_compute. intros [Hlt | [_ Hle]].
    + lia.
    + apply Hle. reflexivity.
Qed.

End ReconciliationClaims.

(** ** The cluster type *)

Section ClusterType.
Import complex_sv examples.

(** With two or more breakpoints and no class paired alone, the comparison
    of the insertion list with [1] never holds, and the cluster type is
    MIXED_BREAKENDS whatever the cluster holds. *)
Lemma unpaired_cluster_is_mixed (self : ComplexSV) :
  one_class_paired self = false ->
  2 <= foldr Z.add 0 (class_counts self) ->
  cluster_type <$> set_cluster_type self = Return (Some "MIXED_BREAKENDS").
Proof.
  intros Hp Ht. unfold set_cluster_type. rewrite Hp.
  destruct (Z.eqb_spec (foldr Z.add 0 (class_counts self)) 0); [lia|].
  destruct (Z.eqb_spec (foldr Z.add 0 (class_counts self)) 1); [lia|].
  destruct (Z.leb_spec 2 (foldr Z.add 0 (class_counts self))); [|lia].
  reflexivity.
Qed.

(** C3 (the code departs from the claim).  A cluster of exactly one
    insertion record and one same-chromosome breakend has two breakpoints
    and no class paired alone; [set_cluster_type] gives it MIXED_BREAKENDS,
    not RESOLVED_INSERTION. *)
Theorem insertion_with_breakend_is_mixed :
  exists self,
    organized (demo_ext "") [lone_ins; lone_bnd] = Return self /\
    inversions self = [] /\ tlocs self = [] /\ cnvs self = [] /\
    insertions self = [lone_ins] /\ breakends self = [lone_bnd] /\
    one_class_paired self = false /\
    cluster_type <$> set_cluster_type self = Return (Some "MIXED_BREAKENDS").
Proof. eexists. split; [vm_compute; reflexivity|]. repeat split. Qed.

End ClusterType.

(** ** Where the span is written *)

Section SpanAfterAlts.
Import complex_sv examples.
Variable ext : Externals.

Lemma set_alts_clears_END a r : info (set_alts a r) !! "END" = None.
Proof. apply lookup_delete_eq. Qed.

(** The inversion branch assigns the alt allele last: whatever the
    inversion classifier answers, the record it leaves has no END. *)
Lemma resolve_inversion_loses_END (self self' : ComplexSV) :
  resolve_inversion ext self = Return self' ->
  info (vcf_record self') !! "END" = None.
Proof.
  unfold resolve_inversion. intros H.
  destruct (inversions self) as [|i0 tl]; [discriminate|].
  bind_inv H. bind_inv H. destruct a0 as [FF RR].
  bind_inv H. destruct a0 as [cpx_type_ cnvs_].
  bind_inv H. bind_inv H. injection H as <-.
  cbn [vcf_record upd_vcf_record set_vcf_record set_info with_info info].
  rewrite !lookup_insert_ne by discriminate.
  apply lookup_delete_eq.
Qed.

End SpanAfterAlts.

Section SpanAfterAltsClaim.
Import complex_sv examples.

(** C4 (the code departs from the claim).  For the inversion pair
    [inv_FF], [inv_RR] the branch computes the span 100-520, and the record
    that [ComplexSV] ends with is an INV at position 100 without any END:
    its stop is not the 520 the branch wrote. *)
Theorem inversion_span_erased :
  exists cpx,
    __init__ (demo_ext "") [inv_FF; inv_RR] = Return cpx /\
    svtype cpx = Some "INV" /\
    pos (vcf_record cpx) = Z.min (pos inv_FF) (pos inv_RR) /\
    Z.max (stop inv_FF) (stop inv_RR) = 520 /\
    info (vcf_record cpx) !! "END" = None /\
    stop (vcf_record cpx) <> 520.
Proof. eexists. split; [vm_compute; reflexivity|]. repeat split. discriminate. Qed.

End SpanAfterAltsClaim.

(** ** The classification of translocations *)

Lemma no_Exception_Return {A} (a : A) : no_Exception (Return a).
Proof. intros msg. discriminate. Qed.

Lemma no_Exception_bind {A B} (m : result A) (f : A -> result B) :
  no_Exception m -> (forall a, m = Return a -> no_Exception (f a)) ->
  no_Exception (m ≫= f).
Proof.
  intros Hm Hf msg. destruct m as [e|a]; simpl.
  - intros [= ->]. exact (Hm msg eq_refl).
  - apply Hf. reflexivity.
Qed.

Lemma no_Exception_fmap {A B} (g : A -> B) (m : result A) :
  no_Exception m -> no_Exception (g <$> m).
Proof.
  intros Hm msg. destruct m as [e|a]; simpl; [|discriminate].
  intros [= ->]. exact (Hm msg eq_refl).
Qed.

Lemma no_Exception_mapM {A B} (f : A -> result B) (l : list A) :
  (forall x, no_Exception (f x)) -> no_Exception (mapM f l).
Proof.
  intros Hf. induction l as [|x l IH]; cbn [mapM].
  - apply no_Exception_Return.
  - apply no_Exception_bind; [apply Hf|]. intros y _.
    apply no_Exception_bind; [apply IH|]. intros k _.
    apply no_Exception_Return.
Qed.

Lemma no_Exception_filterM {A} (p : A -> result bool) (l : list A) :
  (forall x, no_Exception (p x)) -> no_Exception (filterM p l).
Proof.
  intros Hp. induction l as [|x l IH]; cbn [filterM].
  - apply no_Exception_Return.
  - apply no_Exception_bind; [apply Hp|]. intros b _.
    apply no_Exception_bind; [apply IH|]. intros k _.
    apply no_Exception_Return.
Qed.

Lemma no_Exception_info_get r k : no_Exception (info_get r k).
Proof. intros msg. unfold info_get. destruct (info r !! k); discriminate. Qed.

Lemma no_Exception_as_int v : no_Exception (as_int v).
Proof. intros msg. destruct v; discriminate. Qed.
Lemma no_Exception_as_str v : no_Exception (as_str v).
Proof. intros msg. destruct v; discriminate. Qed.
Lemma no_Exception_as_tuple v : no_Exception (as_tuple v).
Proof. intros msg. destruct v; discriminate. Qed.

Lemma no_Exception_info_int r k : no_Exception (info_int r k).
Proof.
  apply no_Exception_bind; [apply no_Exception_info_get|].
  intros; apply no_Exception_as_int.
Qed.
Lemma no_Exception_info_str r k : no_Exception (info_str r k).
Proof.
  apply no_Exception_bind; [apply no_Exception_info_get|].
  intros; apply no_Exception_as_str.
Qed.
Lemma no_Exception_info_tuple r k : no_Exception (info_tuple r k).
Proof.
  apply no_Exception_bind; [apply no_Exception_info_get|].
  intros; apply no_Exception_as_tuple.
Qed.

Lemma no_Exception_pop_info k r : no_Exception (pop_info k r).
Proof. intros msg. unfold pop_info. destruct (info r !! k); discriminate. Qed.

(** Goals [no_Exception m] for a [m] built from binds, conditionals and
    matches over the primitives above. *)
Ltac no_exc :=
  repeat first
    [ apply no_Exception_Return
    | apply no_Exception_info_get | apply no_Exception_info_int
    | apply no_Exception_info_str | apply no_Exception_info_tuple
    | apply no_Exception_as_int | apply no_Exception_as_str
    | apply no_Exception_as_tuple | apply no_Exception_pop_info
    | assumption
    | apply no_Exception_fmap
    | apply no_Exception_mapM; intros ?
    | apply no_Exception_filterM; intros ?
    | apply no_Exception_bind; [| intros ? ?]
    | match goal with
      | |- no_Exception (Raise ?e) => intros ?; discriminate
      | |- no_Exception (match ?x with _ => _ end) => destruct x eqn:?
      | |- no_Exception (let '(_, _) := ?x in _) => destruct x eqn:?
      end ].

Section Translocations.
Import cpx_tloc complex_sv.

Lemma classify_labels plus minus mh l :
  classify_simple_translocation plus minus mh = Return l -> In l labels.
Proof.
  unfold classify_simple_translocation. intros H.
  bind_inv H. destruct a; [injection H as <-; simpl; tauto|].
  bind_inv H. bind_inv H. bind_inv H.
  repeat match type of H with
         | (if ?c then _ else _) = _ => destruct c
         end;
    injection H as <-; simpl; tauto.
Qed.

Lemma classify_returns plus minus mh :
  has_breakend_fields plus -> has_breakend_fields minus ->
  is_Return (classify_simple_translocation plus minus mh).
Proof.
  intros ([c1 Hc1] & [e1 He1] & [s1 Hs1]) ([c2 Hc2] & [e2 He2] & _).
  unfold classify_simple_translocation, info_int, info_get.
  rewrite Hc1, Hc2, He1, He2, Hs1. simpl.
  destruct (bool_decide (chrom plus ≠ chrom minus)); simpl;
    [eexists; reflexivity|].
  destruct (bool_decide (c1 ≠ c2)); simpl; [eexists; reflexivity|].
  repeat match goal with
         | |- is_Return (if ?c then _ else _) => destruct c
         end; eexists; reflexivity.
Qed.

Lemma no_Exception_classify plus minus mh :
  no_Exception (classify_simple_translocation plus minus mh).
Proof. unfold classify_simple_translocation. no_exc. Qed.

Lemma no_Exception_sorted_pair l : no_Exception (sorted_pair_by_strands l).
Proof. unfold sorted_pair_by_strands. no_exc. Qed.

Section WithExternals.
Variable ext : Externals.

Lemma no_Exception_get_arms r : no_Exception (get_arms ext r).
Proof. unfold get_arms, _get_arm. no_exc. Qed.

(** The guard [raise Exception('Invalid cpx type: ...')] is never reached. *)
Lemma translocation_guard_unreachable (self : ComplexSV) :
  no_Exception (resolve_translocation ext self).
Proof.
  unfold resolve_translocation.
  apply no_Exception_bind; [apply no_Exception_sorted_pair|]. intros [plus minus] _.
  apply no_Exception_bind; [apply no_Exception_get_arms|]. intros [armA armB] _.
  apply no_Exception_bind; [apply no_Exception_classify|]. intros l Hl.
  apply classify_labels in Hl. simpl in Hl.
  apply no_Exception_bind.
  - generalize (bool_decide (pos plus = pos minus) && bool_decide (stop plus = stop minus)).
    generalize (String.eqb armA armB). intros same_arm duplicate msg.
    repeat destruct Hl as [<- | Hl]; try destruct Hl;
      destruct same_arm, duplicate; vm_compute; discriminate.
  - intros [svtype_ cpx_type_] _. no_exc.
Qed.

End WithExternals.


End Translocations.

Section ClassifierExceptions.
Import cpx_tloc complex_sv.
Variable ext : Externals.

(** The collaborators of the classifier raise no [Exception] of their own. *)
Hypothesis Hinv : forall FF RR cnvs_,
  no_Exception (classify_complex_inversion ext FF RR cnvs_).
Hypothesis Hins : forall plus minus, no_Exception (classify_insertion ext plus minus).
Hypothesis Hgt : forall r l, no_Exception (update_best_genotypes ext r l).

Lemma no_Exception_organize self : no_Exception (organize_records self).
Proof.
  unfold organize_records, svtype_is, is_tloc, is_breakend, is_cnv, svtype_is. no_exc.
Qed.

Lemma no_Exception_set_cluster_type self : no_Exception (set_cluster_type self).
Proof.
  unfold set_cluster_type, apply2, ok_tloc_strands, ok_ins_strands, sorted_strand_pair.
  no_exc.
Qed.

Lemma no_Exception_resolve_inversion self : no_Exception (resolve_inversion ext self).
Proof. unfold resolve_inversion. no_exc; apply Hinv. Qed.

Lemma no_Exception_resolve_insertion self : no_Exception (resolve_insertion ext self).
Proof.
  unfold resolve_insertion.
  apply no_Exception_bind; [apply no_Exception_sorted_pair|]. intros [plus minus] _.
  apply no_Exception_bind; [apply Hins|]. intros l _. no_exc.
Qed.

Lemma no_Exception_report self : no_Exception (report_simple_insertion self).
Proof. unfold report_simple_insertion, svtype_is. no_exc. Qed.

Lemma no_Exception_dispatch other self :
  (forall c, no_Exception (other c)) -> no_Exception (dispatch ext other self).
Proof.
  intros Hother. unfold dispatch.
  repeat match goal with
         | |- no_Exception (if ?c then _ else _) => destruct c
         end;
    auto using no_Exception_resolve_inversion, translocation_guard_unreachable,
               no_Exception_resolve_insertion, no_Exception_report.
Qed.

Lemma no_Exception_resolve self : no_Exception (resolve ext self).
Proof.
  unfold resolve.
  apply no_Exception_bind; [apply no_Exception_set_cluster_type|]. intros c _.
  apply no_Exception_dispatch. intros c1.
  apply no_Exception_bind.
  { unfold remove_SR_only_breakpoints. no_exc. }
  intros c2 _.
  apply no_Exception_bind; [apply no_Exception_organize|]. intros c3 _.
  apply no_Exception_bind; [apply no_Exception_set_cluster_type|]. intros c4 _.
  apply no_Exception_dispatch. intros c5. apply no_Exception_Return.
Qed.

(** X27: building a [ComplexSV] ends in no [Exception] when its
    collaborators raise none: the guard of [resolve_translocation] is the
    only [raise] of the classifier, and it is never reached. *)
Lemma classifier_raises_no_Exception (l : list VariantRecord) :
  no_Exception (__init__ ext l).
Proof.
  unfold __init__.
  apply no_Exception_bind; [apply no_Exception_organize|]. intros c1 _.
  apply no_Exception_bind.
  { unfold make_record. no_exc. apply Hgt. }
  intros c2 _.
  apply no_Exception_bind; [apply no_Exception_resolve|]. intros c3 _.
  unfold clean_record. no_exc.
Qed.

End ClassifierExceptions.

Section ReciprocalTranslocations.
Import cpx_tloc complex_sv.
Variable ext : Externals.

(** A classification other than TLOC_MISMATCH_CHROM has read CHR2 of the
    [plus] breakend. *)
Lemma classify_reads_CHR2 plus minus mh l :
  classify_simple_translocation plus minus mh = Return l ->
  l <> "TLOC_MISMATCH_CHROM" ->
  exists c, info plus !! "CHR2" = Some c.
Proof.
  unfold classify_simple_translocation. intros H Hl.
  bind_inv H. destruct a; [injection H as <-; congruence|].
  destruct (bool_decide (chrom plus ≠ chrom minus)); [discriminate|].
  bind_inv E. apply info_get_Return in E0. eauto.
Qed.

(** C6: a pair classified CTX_PP/QQ or CTX_PQ/QP with identical pos and
    identical stop on both breakends is UNR with the suffix
    _DUPLICATE_COORDS; otherwise it is CTX exactly when the arms agree with
    the orientation (equal arms for CTX_PP/QQ, different arms for
    CTX_PQ/QP) and UNR with the suffix _MISMATCH when they do not; an
    accepted CTX record has chrom, pos, stop and CHR2 of the [plus] breakend
    and SVLEN -1. *)
Theorem reciprocal_translocation_outcome
    (self : ComplexSV) (plus minus : VariantRecord) (armA armB label : string) :
  sorted_pair_by_strands (tlocs self) = Return (plus, minus) ->
  get_arms ext plus = Return (armA, armB) ->
  classify_simple_translocation plus minus mh_buffer_default = Return label ->
  label = "CTX_PP/QQ" \/ label = "CTX_PQ/QP" ->
  let arms_agree :=
    if String.eqb label "CTX_PP/QQ" then bool_decide (armA = armB)
    else bool_decide (armA <> armB) in
  exists self',
    resolve_translocation ext self = Return self' /\
    if bool_decide (pos plus = pos minus /\ stop plus = stop minus) then
      svtype self' = Some "UNR" /\
      cpx_type self' = Some (label +:+ "_DUPLICATE_COORDS")
    else if arms_agree then
      svtype self' = Some "CTX" /\ cpx_type self' = Some label /\
      chrom (vcf_record self') = chrom plus /\
      pos (vcf_record self') = pos plus /\
      stop (vcf_record self') = stop plus /\
      info (vcf_record self') !! "CHR2" = info plus !! "CHR2" /\
      info (vcf_record self') !! "SVLEN" = Some (IInt (-1))
    else
      svtype self' = Some "UNR" /\ cpx_type self' = Some (label +:+ "_MISMATCH").
Proof.
  intros Hsort Harms Hcls Hlabel arms_agree.
  destruct (classify_reads_CHR2 _ _ _ _ Hcls) as [c Hc].
  { destruct Hlabel as [-> | ->]; discriminate. }
  unfold resolve_translocation. rewrite Hsort. cbn [mbind result_bind].
  rewrite Harms. cbn [mbind result_bind]. rewrite Hcls. cbn [mbind result_bind].
  assert (Hdup : bool_decide (pos plus = pos minus) && bool_decide (stop plus = stop minus)
                 = bool_decide (pos plus = pos minus /\ stop plus = stop minus)).
  { repeat case_bool_decide; simpl; tauto. }
  rewrite Hdup. clear Hdup.
  assert (Hget : info_get plus "CHR2" = Return c) by by apply info_get_Return.
  subst arms_agree.
  destruct (bool_decide (pos plus = pos minus /\ stop plus = stop minus));
    destruct (String.eqb_spec armA armB) as [Earm | Earm];
    destruct Hlabel as [-> | ->];
    rewrite ?(bool_decide_true (armA = armB)), ?(bool_decide_false (armA = armB)),
            ?(bool_decide_true (armA <> armB)), ?(bool_decide_false (armA <> armB))
      by tauto;
    cbn -[info_get stop set_stop set_info]; rewrite ?Hget; cbn -[stop set_stop set_info];
    eexists; (split; [reflexivity|]); cbn -[stop set_stop set_info];
    repeat split; try reflexivity.
  all: record_simpl; congruence.
Qed.

End ReciprocalTranslocations.

(** ** Insertions signalled by a pair of breakends *)

Section BreakendInsertions.
Import complex_sv.
Variable ext : Externals.

(** C8: for a breakend pair classified INS_A2B or INS_B2A, a sink span of
    100 bp or more makes the result unresolved (svtype UNR), whatever the
    strands are; under 100 bp the result is svtype INS. *)
Theorem insertion_sink_span
    (self : ComplexSV) (plus minus : VariantRecord) (label : string) :
  sorted_pair_by_strands (breakends self) = Return (plus, minus) ->
  classify_insertion ext plus minus = Return label ->
  label = "INS_A2B" \/ label = "INS_B2A" ->
  let sink_start := if String.eqb label "INS_B2A" then pos plus else stop minus in
  let sink_end := if String.eqb label "INS_B2A" then pos minus else stop plus in
  (100 <= sink_end - sink_start ->
     exists self', resolve_insertion ext self = Return self' /\
                   svtype self' = Some "UNR") /\
  (sink_end - sink_start < 100 ->
     (forall self', resolve_insertion ext self = Return self' ->
                    svtype self' = Some "INS") /\
     (insertions self = [] ->
        exists self', resolve_insertion ext self = Return self' /\
                      svtype self' = Some "INS" /\
                      pos (vcf_record self') = sink_start /\
                      stop (vcf_record self') = sink_end)).
Proof.
  intros Hsort Hcls Hlabel sink_start sink_end.
  unfold resolve_insertion. rewrite Hsort. cbn [mbind result_bind].
  rewrite Hcls. cbn [mbind result_bind].
  subst sink_start sink_end.
  destruct Hlabel as [-> | ->]; cbn [String.eqb Ascii.eqb Bool.eqb]; cbn [mbind result_bind].
  - destruct (Z.leb_spec 100 (stop plus - stop minus)) as [Hspan | Hspan].
    + split; [intros _ | lia]. eexists. split; reflexivity.
    + split; [lia | intros _]. split.
      * intros self'. cpx_simpl.
        destruct (_ =? 1).
        -- intros H. bind_inv H. destruct (insertions self); [discriminate|].
           bind_inv H. injection H as <-. reflexivity.
        -- intros [= <-]. reflexivity.
      * intros Hins. cpx_simpl.
        rewrite Hins. cbn [length Z.of_nat Z.eqb].
        eexists. split; [reflexivity|].
        cpx_simpl. record_simpl. auto.
  - destruct (Z.leb_spec 100 (pos minus - pos plus)) as [Hspan | Hspan].
    + split; [intros _ | lia]. eexists. split; reflexivity.
    + split; [lia | intros _]. split.
      * intros self'. cpx_simpl.
        destruct (_ =? 1).
        -- intros H. bind_inv H. destruct (insertions self); [discriminate|].
           bind_inv H. injection H as <-. reflexivity.
        -- intros [= <-]. reflexivity.
      * intros Hins. cpx_simpl.
        rewrite Hins. cbn [length Z.of_nat Z.eqb].
        eexists. split; [reflexivity|].
        cpx_simpl. record_simpl. auto.
Qed.

End BreakendInsertions.

(** ** The rescan of single-ended inversions *)

Section Rescan.
Import rescan_single_enders.

Lemma foldl_max_extremal (l : list Z) (x : Z) :
  In (foldl Z.max x l) (x :: l) /\ forall y, In y (x :: l) -> y <= foldl Z.max x l.
Proof.
  revert x. induction l as [|a l IH]; intros x; simpl.
  - split; [tauto|]. intros y [<-|[]]. lia.
  - destruct (IH (Z.max x a)) as [Hin Hle]. split.
    + destruct Hin as [Hin|Hin]; [|tauto].
      rewrite <- Hin. destruct (Z.max_spec x a) as [[_ ->]|[_ ->]]; tauto.
    + intros y Hy.
      assert (y <= Z.max x a \/ In y l) as [Hy'|Hy'].
      { destruct Hy as [<-|[<-|Hy]]; [left; lia | left; lia | tauto]. }
      * etrans; [exact Hy'|]. apply Hle. left. reflexivity.
      * apply Hle. right. exact Hy'.
Qed.

Lemma foldl_min_extremal (l : list Z) (x : Z) :
  In (foldl Z.min x l) (x :: l) /\ forall y, In y (x :: l) -> foldl Z.min x l <= y.
Proof.
  revert x. induction l as [|a l IH]; intros x; simpl.
  - split; [tauto|]. intros y [<-|[]]. lia.
  - destruct (IH (Z.min x a)) as [Hin Hle]. split.
    + destruct Hin as [Hin|Hin]; [|tauto].
      rewrite <- Hin. destruct (Z.min_spec x a) as [[_ ->]|[_ ->]]; tauto.
    + intros y Hy.
      assert (Z.min x a <= y \/ In y l) as [Hy'|Hy'].
      { destruct Hy as [<-|[<-|Hy]]; [left; lia | left; lia | tauto]. }
      * etrans; [|exact Hy']. apply Hle. left. reflexivity.
      * apply Hle. right. exact Hy'.
Qed.

Lemma py_max_extremal (l : list Z) :
  l <> [] -> exists v, py_max l = Return v /\ extremal "+" l v.
Proof.
  destruct l as [|x l]; [congruence|]. intros _.
  eexists. split; [reflexivity|]. apply foldl_max_extremal.
Qed.

Lemma py_min_extremal (strand : string) (l : list Z) :
  strand <> "+" -> l <> [] -> exists v, py_min l = Return v /\ extremal strand l v.
Proof.
  intros Hs. destruct l as [|x l]; [congruence|]. intros _.
  eexists. split; [reflexivity|]. unfold extremal.
  destruct (String.eqb_spec strand "+"); [congruence|].
  apply foldl_min_extremal.
Qed.

Lemma largest_spec {A} (best : list A) (rest : list (list A)) :
  In (largest best rest) (best :: rest) /\
  forall c, In c (best :: rest) -> (length c <= length (largest best rest))%nat.
Proof.
  revert best. induction rest as [|c rest IH]; intros best; simpl.
  - split; [tauto|]. intros c [<-|[]]. lia.
  - destruct (Nat.ltb_spec (length best) (length c)) as [Hlt|Hge].
    + destruct (IH c) as [Hin Hmax]. split; [tauto|].
      intros c' [<-|Hc'].
      * etrans; [|apply Hmax; left; reflexivity]. lia.
      * apply Hmax. exact Hc'.
    + destruct (IH best) as [Hin Hmax]. split.
      * destruct Hin; tauto.
      * intros c' [<-|[<-|Hc']].
        -- apply Hmax; left; reflexivity.
        -- etrans; [exact Hge|]. apply Hmax; left; reflexivity.
        -- apply Hmax; right; exact Hc'.
Qed.

Lemma make_new_record_spec (strand : string) (support : list DiscPair)
    (old_record : VariantRecord) :
  strand = "+" \/ strand = "-" ->
  support <> [] ->
  (forall p, In p support -> strandA p = strand) ->
  exists r, make_new_record support old_record = Return r /\
            synthesized_from "rescan" strand old_record support r.
Proof.
  intros Hstrand Hne Hall. unfold make_new_record.
  destruct support as [|p0 rest] eqn:Es; [congruence|]. rewrite <- Es in *.
  assert (Hp0 : strandA p0 = strand) by (apply Hall; rewrite Es; left; reflexivity).
  rewrite Hp0.
  assert (HneA : map posA support <> []) by (rewrite Es; discriminate).
  assert (HneB : map posB support <> []) by (rewrite Es; discriminate).
  destruct Hstrand as [-> | ->]; cbn [String.eqb Ascii.eqb Bool.eqb].
  - destruct (py_max_extremal _ HneA) as (pa & -> & Hpa).
    destruct (py_max_extremal _ HneB) as (pb & -> & Hpb).
    cbn [mbind result_bind]. eexists. split; [reflexivity|].
    unfold synthesized_from. record_simpl. cbn [id chrom ref alts pos set_id set_pos].
    repeat split; try assumption; try reflexivity.
    + apply Hpa.
    + apply Hpa.
    + apply Hpb.
    + apply Hpb.
    + intros k Hk. rewrite !lookup_insert_ne; [reflexivity | | | |];
        intros <-; apply Hk; set_solver.
  - assert (Hs : "-" <> "+") by discriminate.
    destruct (py_min_extremal "-" _ Hs HneA) as (pa & -> & Hpa).
    destruct (py_min_extremal "-" _ Hs HneB) as (pb & -> & Hpb).
    cbn [mbind result_bind]. eexists. split; [reflexivity|].
    unfold synthesized_from. record_simpl. cbn [id chrom ref alts pos set_id set_pos].
    repeat split; try assumption; try reflexivity.
    + apply Hpa.
    + apply Hpa.
    + apply Hpb.
    + apply Hpb.
    + intros k Hk. rewrite !lookup_insert_ne; [reflexivity | | | |];
        intros <-; apply Hk; set_solver.
Qed.

End Rescan.
Section RescanClaim.
Import rescan_single_enders.
Variable pe_fetch : string -> Z -> Z -> list DiscPair.
Variable get_called_samples : VariantRecord -> list string.
Variable slink_cluster : list DiscPair -> Z -> list (list DiscPair).
Hypothesis Hslink : clusters_of_given_pairs slink_cluster.

(** A cluster that matches a record with STRANDS '++' or '--' has a pair. *)
Lemma matched_cluster_nonempty record c dist :
  info record !! "STRANDS" = Some (IStr "++") \/
  info record !! "STRANDS" = Some (IStr "--") ->
  match_cluster record c dist = Return true -> c <> [].
Proof.
  intros Hs Hm ->. unfold match_cluster in Hm.
  destruct Hs as [Hs | Hs]; apply info_get_Return in Hs; rewrite Hs in Hm;
    discriminate Hm.
Qed.

(** A record with a matching cluster is called in some sample: the pairs of
    the cluster were kept for the samples they belong to. *)
Lemma matched_record_is_called record window dist c rest :
  info record !! "STRANDS" = Some (IStr "++") \/
  info record !! "STRANDS" = Some (IStr "--") ->
  matching_clusters pe_fetch get_called_samples slink_cluster record window dist
    = Return (c :: rest) ->
  get_called_samples record <> [].
Proof.
  intros Hs Hm. unfold matching_clusters in Hm.
  destruct (proj1 (filterM_spec _ _ _ Hm c) (or_introl eq_refl)) as [Hc Hmatch].
  pose proof (matched_cluster_nonempty _ _ _ Hs Hmatch) as Hne.
  destruct c as [|p c]; [congruence|].
  pose proof (Hslink _ _ _ p Hc (or_introl eq_refl)) as Hp.
  apply filter_In in Hp as [_ Hp]. apply andb_true_iff in Hp as [Hp _].
  apply bool_decide_eq_true in Hp. intros Hnil. rewrite Hnil in Hp.
  by apply not_elem_of_nil in Hp.
Qed.

(** The rescan does what the statement says whenever the proviso makes sure
    that a passed test comes with a supporting pair. *)
Lemma rescan_statement_holds (proviso : list DiscPair -> Prop)
    (record : VariantRecord) (window dist min_support : Z) (min_frac_samples : py_float) :
  (forall missing cluster,
      let support := with_strandA missing cluster in
      let supported :=
        List.filter (fun s => min_support <=? sample_support support s)
                    (get_called_samples record) in
      float_le min_frac_samples
        (int_truediv (Z.of_nat (length supported))
                     (Z.of_nat (length (get_called_samples record)))) = true ->
      proviso support -> support <> []) ->
  rescan_statement pe_fetch get_called_samples slink_cluster
    "rescan" proviso record window dist min_support min_frac_samples.
Proof.
  intros Hprov missing clusters Hstr Hmatch.
  unfold rescan_single_ender. rewrite Hmatch. cbn [mbind result_bind].
  destruct clusters as [|c rest]; [reflexivity|].
  destruct (largest_spec c rest) as [Hin Hmax].
  exists (largest c rest). split; [exact Hin|]. split; [exact Hmax|].
  assert (Hmissing : supporting_pairs_of record (largest c rest)
                     = with_strandA missing (largest c rest)).
  { unfold supporting_pairs_of.
    destruct Hstr as [[-> ->] | [-> ->]]; reflexivity. }
  rewrite Hmissing. unfold n_supported_samples.
  specialize (Hprov missing (largest c rest)). cbv zeta in Hprov.
  set (support := with_strandA missing (largest c rest)) in *.
  assert (Hcalled : get_called_samples record <> []).
  { eapply matched_record_is_called; [|exact Hmatch].
    destruct Hstr as [[-> _] | [-> _]]; tauto. }
  assert (Hlen : 0 < Z.of_nat (length (get_called_samples record))).
  { destruct (get_called_samples record); [congruence | simpl; lia]. }
  destruct (Z.eqb_spec (Z.of_nat (length (get_called_samples record))) 0) as [E|_]; [lia|].
  cbv zeta.
  destruct (float_le min_frac_samples _) eqn:Hq.
  - split; [intros _ Hp | discriminate].
    destruct (make_new_record_spec missing support record) as (r & Hr & Hspec).
    + destruct Hstr as [[_ ->] | [_ ->]]; tauto.
    + apply Hprov; [reflexivity | exact Hp].
    + intros p [_ Hp']%filter_In. by apply String.eqb_eq.
    + exists r. rewrite Hr. split; [reflexivity | exact Hspec].
  - split; [discriminate | reflexivity].
Qed.

(** With [min_support] at least 1 and a positive threshold, a passed test
    comes with a supporting pair. *)
Lemma passed_test_has_support
    (called : list string) (support : list DiscPair)
    (min_support : Z) (min_frac_samples : py_float) :
  0 < min_support ->
  float_lt float_zero min_frac_samples = true ->
  float_le min_frac_samples
    (int_truediv
       (Z.of_nat (length (List.filter
                            (fun s => min_support <=? sample_support support s) called)))
       (Z.of_nat (length called))) = true ->
  support <> [].
Proof.
  intros Hsup Hpos Hle Hnil.
  destruct (List.filter _ called) as [|s supported] eqn:Es.
  - assert (Hlen : 0 < Z.of_nat (length called) \/ called = []).
    { destruct called; [tauto | left; simpl; lia]. }
    destruct Hlen as [Hlen | ->].
    + change (Z.of_nat (length (@nil string))) with 0 in Hle.
      rewrite int_truediv_zero in Hle by exact Hlen.
      rewrite (float_le_zero_pos _ Hpos) in Hle. discriminate.
    + change (float_le min_frac_samples float_zero = true) in Hle.
      rewrite (float_le_zero_pos _ Hpos) in Hle. discriminate.
  - assert (Hs : In s (List.filter
                         (fun s => min_support <=? sample_support support s) called))
      by (rewrite Es; left; reflexivity).
    apply filter_In in Hs as [_ Hs%Z.leb_le].
    rewrite Hnil in Hs. unfold sample_support in Hs. simpl in Hs. lia.
Qed.

(** C7, as amended: for a single-ended inversion with STRANDS '--' (resp.
    '++'), the rescan counts only the '+' (resp. '-') pairs of the largest
    matching cluster; when one such pair exists it returns a complementary
    record exactly when the fraction of called samples with [min_support]
    such pairs reaches [min_frac_samples], and [None] otherwise; the record
    is a copy of the original with the marker on its id, the missing
    strands, the span of the extremal supporting coordinates, SVLEN equal to
    stop minus pos, and "rescan" as its algorithm.  With [min_support] at
    least 1 and a positive [min_frac_samples] a passed test always comes
    with such a pair, and the statement holds without the proviso. *)
Theorem rescan_single_ender_as_amended
    (record : VariantRecord) (window dist min_support : Z) (min_frac_samples : py_float) :
  rescan_with_support pe_fetch get_called_samples slink_cluster
    "rescan" record window dist min_support min_frac_samples /\
  (0 < min_support -> float_lt float_zero min_frac_samples = true ->
   rescan_as_specified pe_fetch get_called_samples slink_cluster
     "rescan" record window dist min_support min_frac_samples).
Proof.
  split.
  - apply rescan_statement_holds. intros missing cluster support supported _ H. exact H.
  - intros Hsup Hpos. apply rescan_statement_holds.
    intros missing cluster support supported Hle _.
    eapply passed_test_has_support; eassumption.
Qed.

End RescanClaim.

Section RescanCounterexample.
Import rescan_single_enders examples.

Lemma demo_slink_given_pairs : clusters_of_given_pairs demo_slink.
Proof.
  intros pairs dist c p Hc Hp. destruct pairs as [|q pairs]; [destruct Hc|].
  destruct Hc as [<- | []]. exact Hp.
Qed.

(** C7, as stated, fails in two ways.  For the single-ended inversion
    [single_ender], supported by four '+' pairs in each of its two called
    samples, the rescan returns the complementary record, and the algorithm
    it writes on it is "rescan", not "rescue".  With a threshold of 0.0 and
    pairs on the '-' strand only, the fraction 0/2 reaches the threshold,
    and the rescan returns no record: it fails on the first supporting
    pair, of which there is none. *)
Lemma rescan_differs_from_the_claim :
  ~ rescan_as_specified demo_fetch demo_called demo_slink
      "rescue" single_ender 500 300 4 float_half /\
  ~ rescan_as_specified minus_fetch demo_called demo_slink
      "rescan" single_ender 500 300 4 float_zero.
Proof.
  split.
  - intros H.
    specialize (H "+" [demo_pairs]).
    destruct H as (cluster & Hin & _ & Hyes & _).
    + left. split; reflexivity.
    + vm_compute. reflexivity.
    + destruct Hin as [<- | []].
      destruct Hyes as (r & Hr & Hspec).
      * vm_compute. reflexivity.
      * exact I.
      * destruct Hspec as (_ & _ & _ & _ & _ & _ & _ & _ & Halg & _).
        vm_compute in Hr. injection Hr as <-.
        vm_compute in Halg. discriminate.
  - intros H.
    specialize (H "+" [with_strandA "-" demo_pairs]).
    destruct H as (cluster & Hin & _ & Hyes & _).
    + left. split; reflexivity.
    + vm_compute. reflexivity.
    + destruct Hin as [<- | []].
      destruct Hyes as (r & Hr & _).
      * vm_compute. reflexivity.
      * exact I.
      * vm_compute in Hr. discriminate.
Qed.

(** The theorem at the same record: the complementary record comes back,
    tagged "rescan". *)
Lemma rescan_single_ender_as_amended_witness :
  exists r,
    rescan_single_ender demo_fetch demo_called demo_slink
      single_ender 500 300 4 float_half = Return (Some r) /\
    synthesized_from "rescan" "+" single_ender (with_strandA "+" demo_pairs) r.
Proof.
  assert (Hstr : (info single_ender !! "STRANDS" = Some (IStr "--") /\ "+" = "+") \/
                 (info single_ender !! "STRANDS" = Some (IStr "++") /\ "+" = "-"))
    by (left; split; reflexivity).
  assert (Hmatch : matching_clusters demo_fetch demo_called demo_slink
                     single_ender 500 300 = Return [demo_pairs])
    by (vm_compute; reflexivity).
  destruct (rescan_single_ender_as_amended demo_fetch demo_called demo_slink
              demo_slink_given_pairs single_ender 500 300 4 float_half)
    as [_ Hfull].
  destruct (Hfull ltac:(reflexivity) ltac:(reflexivity) "+" [demo_pairs] Hstr Hmatch)
    as (cluster & Hin & _ & Hyes & _).
  destruct Hin as [<- | []].
  apply Hyes; [vm_compute; reflexivity | exact I].
Defined.

End RescanCounterexample.

(** ** The records a ComplexSV keeps *)

(** Take a hypothesis [H : m = Return _] apart along the binds,
    conditionals and matches of [m]. *)
Ltac crunch H :=
  lazymatch type of H with
  | mbind _ _ = Return _ =>
      let a := fresh "a" in
      let E := fresh "E" in
      apply bind_Return in H; destruct H as (a & E & H); crunch E; crunch H
  | Return _ = Return _ =>
      first [injection H as <- | injection H as -> | inversion H; subst; clear H]
  | Raise _ = Return _ => discriminate H
  | (if ?c then _ else _) = Return _ => destruct c eqn:?; crunch H
  | (match ?x with _ => _ end) = Return _ => destruct x eqn:?; crunch H
  | (let '(_, _) := ?x in _) = Return _ => destruct x eqn:?; crunch H
  | _ => idtac
  end.

Lemma In_insert_by {A} (key : A -> string) (x y : A) (l : list A) :
  In x (insert_by key y l) <-> x = y \/ In x l.
Proof.
  induction l as [|z l IH]; simpl.
  - intuition.
  - destruct (String.ltb _ _); simpl; rewrite ?IH; intuition.
Qed.

Lemma In_sorted_by {A} (key : A -> string) (x : A) (l : list A) :
  In x (sorted_by key l) <-> In x l.
Proof.
  induction l as [|z l IH]; simpl; [tauto|].
  rewrite In_insert_by, IH. intuition.
Qed.

Lemma In_sorted_strings (x : string) (l : list string) :
  In x (sorted_strings l) <-> In x l.
Proof. apply In_sorted_by. Qed.

Section Members.
Import complex_sv.
Variable ext : Externals.

Lemma same_records_refl c : same_records c c.
Proof. repeat split. Qed.

Lemma same_records_trans c1 c2 c3 :
  same_records c1 c2 -> same_records c2 c3 -> same_records c1 c3.
Proof. unfold same_records. intuition congruence. Qed.

Lemma set_cluster_type_same self self' :
  set_cluster_type self = Return self' -> same_records self self'.
Proof.
  unfold set_cluster_type. intros H. bind_inv H. injection H as <-.
  repeat split.
Qed.

Lemma make_record_same self self' :
  make_record ext self = Return self' -> same_records self self'.
Proof. unfold make_record. intros H. crunch H. repeat split. Qed.

Lemma resolve_translocation_same self self' :
  resolve_translocation ext self = Return self' -> same_records self self'.
Proof. unfold resolve_translocation. intros H. crunch H; repeat split. Qed.

Lemma resolve_insertion_same self self' :
  resolve_insertion ext self = Return self' -> same_records self self'.
Proof. unfold resolve_insertion. intros H. crunch H; repeat split. Qed.

Lemma report_simple_insertion_same self self' :
  report_simple_insertion self = Return self' -> same_records self self'.
Proof. unfold report_simple_insertion. intros H. crunch H; repeat split. Qed.

Lemma clean_record_same self self' :
  clean_record ext self = Return self' ->
  same_records self self' /\
  members self' = sorted_strings (map id (records self)).
Proof.
  unfold clean_record. intros H. crunch H. split; [repeat split|].
  unfold members. cpx_simpl.
  destruct (_ && _); [destruct a1|]; record_simpl; reflexivity.
Qed.

Lemma drawn_from_same l c c' :
  same_records c c' -> drawn_from l c -> drawn_from l c'.
Proof. unfold drawn_from. intros (-> & -> & ->). tauto. Qed.

Lemma organize_records_drawn l self self' :
  organize_records self = Return self' ->
  (forall r, In r (records self) -> In r l) ->
  drawn_from l self'.
Proof.
  unfold organize_records. intros H Hl.
  bind_inv H. bind_inv H. bind_inv H. bind_inv H. bind_inv H.
  injection H as <-. unfold drawn_from. cpx_simpl.
  repeat split; eauto using filterM_sub.
Qed.

Lemma remove_SR_only_drawn l self self' :
  remove_SR_only_breakpoints ext self = Return self' ->
  (forall r, In r (records self) -> In r l) ->
  forall r, In r (records self') -> In r l.
Proof.
  unfold remove_SR_only_breakpoints. intros H Hl.
  destruct (records self) eqn:Er; [discriminate|]. rewrite <- Er in *.
  destruct (bool_decide _); [destruct (_ <? _)|]; injection H as <-; cpx_simpl;
    try assumption.
  intros r [Hr _]%filter_In. auto.
Qed.

Hypothesis Hcnv : keeps_given_cnvs ext.

Lemma resolve_inversion_drawn l self self' :
  resolve_inversion ext self = Return self' ->
  drawn_from l self -> drawn_from l self'.
Proof.
  unfold resolve_inversion. intros H (Hr & Hi & Hc).
  destruct (inversions self) as [|i0 tl] eqn:Ei; [discriminate|].
  bind_inv H. bind_inv H. destruct a0 as [FF RR].
  bind_inv H. destruct a0 as [cpx_type_ kept].
  assert (HFF : In FF l /\ In RR l).
  { destruct tl as [|i1 [|]]; try discriminate.
    destruct (bool_decide _); injection E0 as <- <-; split; apply Hi; simpl; tauto. }
  pose proof (Hcnv _ _ _ _ _ E1) as Hkept.
  bind_inv H. bind_inv H. injection H as <-.
  assert (Hsame : records a0 = [FF; RR] ++ kept /\ inversions a0 = inversions self
                  /\ cnvs a0 = cnvs self).
  { clear E3. crunch E2; cpx_simpl; rewrite ?Ei; repeat split; reflexivity. }
  destruct Hsame as (R1 & R2 & R3).
  unfold drawn_from. cpx_simpl. rewrite R1, R2, R3, Ei.
  repeat split; try assumption.
  intros r [<-|[<-|Hk]]; [tauto | tauto | auto].
Qed.

Lemma dispatch_drawn l other self self' :
  (forall c c', other c = Return c' -> drawn_from l c -> drawn_from l c') ->
  dispatch ext other self = Return self' ->
  drawn_from l self -> drawn_from l self'.
Proof.
  intros Hother. unfold dispatch. intros H Hd.
  repeat match type of H with
         | (if ?c then _ else _) = _ => destruct c
         end.
  - eauto using resolve_inversion_drawn.
  - eauto using drawn_from_same, resolve_translocation_same.
  - eauto using drawn_from_same, resolve_insertion_same.
  - eauto using drawn_from_same, report_simple_insertion_same.
  - eauto.
Qed.

Lemma resolve_drawn l self self' :
  resolve ext self = Return self' -> drawn_from l self -> drawn_from l self'.
Proof.
  unfold resolve. intros H Hd. bind_inv H.
  apply set_cluster_type_same in E.
  eapply dispatch_drawn; [| exact H | eauto using drawn_from_same].
  intros c c' Hc Hdc.
  bind_inv Hc. bind_inv Hc. bind_inv Hc.
  apply set_cluster_type_same in E2.
  eapply dispatch_drawn; [| exact Hc |].
  - intros c1 c1' [= <-] Hd1. exact Hd1.
  - eapply drawn_from_same; [exact E2|].
    eapply organize_records_drawn; [exact E1|].
    eapply remove_SR_only_drawn; [exact E0|]. apply Hdc.
Qed.

(** The object built from a cluster keeps records of that cluster only, and
    its MEMBERS are their ids, sorted. *)
Lemma init_members l cpx :
  __init__ ext l = Return cpx ->
  (forall r, In r (records cpx) -> In r l) /\
  members cpx = sorted_strings (map id (records cpx)).
Proof.
  unfold __init__. intros H. bind_inv H. bind_inv H. bind_inv H.
  apply clean_record_same in H as [(R1 & _ & _) Hm].
  rewrite Hm, R1. split; [|reflexivity].
  eapply resolve_drawn; [exact E1|].
  eapply drawn_from_same; [eapply make_record_same; exact E0|].
  eapply organize_records_drawn; [exact E|]. simpl. tauto.
Qed.

End Members.

(** ** The loop over the clusters *)

Section Loop.
Import complex_sv resolve.
Variable ext : Externals.
Variable rext : ResolveExternals.
Hypothesis Hcnv : keeps_given_cnvs ext.

Lemma loop_inv_init : loop_inv (mkLoop [] ∅ 0 []) [].
Proof.
  split; [constructor|]. intros i. simpl. split.
  - intros Hi. set_solver.
  - intros (cpx & [] & _).
Qed.

Lemma loop_inv_extend st units cpx u recs n :
  loop_inv st units -> unit_ok cpx u ->
  loop_inv (mkLoop recs (cpx_record_ids st ∪ list_to_set (record_ids cpx)) n
                   (built st ++ [cpx]))
           (units ++ [u]).
Proof.
  intros [HF Hids] Hu. split; cbn [built cpx_record_ids].
  - apply Forall2_app; [assumption | constructor; [assumption | constructor]].
  - intros i. rewrite elem_of_union, elem_of_list_to_set, list_elem_of_In, Hids.
    unfold record_ids. split.
    + intros [(c & Hc & Hi) | Hi].
      * exists c. split; [apply in_or_app; left; assumption | assumption].
      * exists cpx. split; [apply in_or_app; right; left; reflexivity | assumption].
    + intros (c & Hc & Hi). apply in_app_or in Hc as [Hc | [<- | []]].
      * left. eauto.
      * right. assumption.
Qed.

Lemma lone_insertion_inv prefix st st' r units :
  resolve_lone_insertion ext rext prefix st r = Return st' ->
  loop_inv st units -> loop_inv st' (units ++ [[r]]).
Proof.
  unfold resolve_lone_insertion. intros H Hinv. bind_inv H. injection H as <-.
  apply loop_inv_extend; [assumption|].
  apply (init_members ext Hcnv) in E. exact E.
Qed.

Lemma lone_insertions_inv prefix l st st' units :
  foldM (resolve_lone_insertion ext rext prefix) st l = Return st' ->
  loop_inv st units -> loop_inv st' (units ++ map (fun r => [r]) l).
Proof.
  revert st units. induction l as [|r l IH]; intros st units H Hinv; simpl in *.
  - injection H as <-. by rewrite app_nil_r.
  - bind_inv H. apply (IH _ (units ++ [[r]])) in H.
    + by rewrite <- app_assoc in H.
    + eapply lone_insertion_inv; eassumption.
Qed.

Lemma concat_singletons {A} (l : list A) : concat (map (fun r => [r]) l) = l.
Proof. induction l as [|x l IH]; simpl; congruence. Qed.

Lemma cluster_inv prefix msup st st' cluster units :
  resolve_cluster ext rext prefix msup st cluster = Return st' ->
  loop_inv st units ->
  exists rescued us,
    rescue_cluster rext msup cluster = Return rescued /\
    concat us = rescued /\ loop_inv st' (units ++ us).
Proof.
  unfold resolve_cluster. intros H Hinv.
  bind_inv H. bind_inv H. exists a.
  destruct (forallb _ _).
  - exists (map (fun r => [r]) a). split; [assumption|].
    split; [apply concat_singletons|].
    eapply lone_insertions_inv; eassumption.
  - exists [a]. split; [assumption|]. split; [simpl; apply app_nil_r|].
    bind_inv H. apply (init_members ext Hcnv) in E1.
    destruct (bool_decide _).
    + bind_inv H. injection H as <-. by apply loop_inv_extend.
    + injection H as <-. by apply loop_inv_extend.
Qed.

Lemma clusters_inv prefix msup clusters st st' units :
  foldM (resolve_cluster ext rext prefix msup) st clusters = Return st' ->
  loop_inv st units ->
  exists rescued us,
    mapM (rescue_cluster rext msup) clusters = Return rescued /\
    concat us = concat rescued /\ loop_inv st' (units ++ us).
Proof.
  revert st units. induction clusters as [|c cs IH]; intros st units H Hinv.
  - injection H as <-. exists [], []. rewrite app_nil_r. auto.
  - cbn [foldM] in H. bind_inv H.
    destruct (cluster_inv _ _ _ _ _ _ E Hinv) as (c' & us1 & Hc' & Hus1 & Hinv1).
    destruct (IH _ _ H Hinv1) as (cs' & us2 & Hcs' & Hus2 & Hinv2).
    exists (c' :: cs'), (us1 ++ us2). split; [|split].
    + cbn [mapM]. rewrite Hc'. cbn [mbind result_bind].
      rewrite Hcs'. reflexivity.
    + rewrite concat_app. simpl. congruence.
    + by rewrite app_assoc.
Qed.

(** With distinct ids, no id is in two groups. *)
Lemma group_of_id_unique (units : list (list VariantRecord)) :
  NoDup (map id (concat units)) ->
  forall k k' u u' i,
    units !! k = Some u -> units !! k' = Some u' ->
    In i (map id u) -> In i (map id u') -> k = k'.
Proof.
  induction units as [|u0 units IH]; intros Hnd k k' u u' i Hk Hk' Hi Hi'.
  - discriminate.
  - simpl in Hnd. rewrite map_app in Hnd.
    apply NoDup_app in Hnd as (_ & Hdisj & Hnd).
    assert (Hrest : forall j v, units !! j = Some v -> In i (map id v) ->
                                In i (map id (concat units))).
    { intros j v Hj Hv. apply in_map_iff in Hv as (r & <- & Hr).
      apply in_map. apply in_concat. exists v. split; [|assumption].
      apply list_elem_of_In. eapply list_elem_of_lookup_2. exact Hj. }
    destruct k as [|k], k' as [|k']; simpl in Hk, Hk'.
    + reflexivity.
    + injection Hk as <-. exfalso.
      apply (Hdisj i); apply list_elem_of_In; eauto.
    + injection Hk' as <-. exfalso.
      apply (Hdisj i); apply list_elem_of_In; eauto.
    + f_equal. eapply IH; eassumption.
Qed.


End Loop.

(** ** The theorems at concrete inputs *)

Section Witnesses.
Import cpx_tloc complex_sv resolve rescan_single_enders examples.

Lemma reciprocal_translocation_outcome_witness :
  exists self',
    resolve_translocation (demo_ext "") tloc_state = Return self' /\
    svtype self' = Some "CTX" /\ cpx_type self' = Some "CTX_PQ/QP" /\
    chrom (vcf_record self') = "chr1" /\ pos (vcf_record self') = 1000 /\
    stop (vcf_record self') = 5000 /\
    info (vcf_record self') !! "CHR2" = Some (IStr "chr2") /\
    info (vcf_record self') !! "SVLEN" = Some (IInt (-1)).
Proof.
  destruct (reciprocal_translocation_outcome (demo_ext "") tloc_state
              tloc_plus tloc_minus "p" "q" "CTX_PQ/QP")
    as (self' & Hrun & Hout).
  - reflexivity.
  - reflexivity.
  - reflexivity.
  - right. reflexivity.
  - exists self'. split; [exact Hrun|]. exact Hout.
Defined.

Lemma insertion_sink_span_witness :
  exists self',
    resolve_insertion (demo_ext "INS_B2A") ins_state = Return self' /\
    svtype self' = Some "UNR".
Proof.
  destruct (insertion_sink_span (demo_ext "INS_B2A") ins_state
              ins_plus ins_minus "INS_B2A") as [Hwide _].
  - reflexivity.
  - reflexivity.
  - right. reflexivity.
  - apply Hwide. vm_compute. discriminate.
Defined.

End Witnesses.

(** ** More on the reconciliation of the two streams *)

Section MergeContents.
Import resolve examples.
Variable rext : ResolveExternals.

Lemma records_of_Some l : records_of (map Some l) = l.
Proof. induction l as [|r l IH]; [reflexivity|]. cbn. f_equal. exact IH. Qed.

Lemma records_of_cons r out : records_of (Some r :: out) = r :: records_of out.
Proof. reflexivity. Qed.

Lemma filter_cons_consumed (ids : gset string) r vcf :
  bool_decide (id r ∈ ids) = true ->
  List.filter (fun record => bool_decide (id record ∉ ids)) (r :: vcf) =
  List.filter (fun record => bool_decide (id record ∉ ids)) vcf.
Proof.
  intros H%bool_decide_eq_true. cbn [List.filter].
  rewrite bool_decide_false by tauto. reflexivity.
Qed.

Lemma filter_cons_kept (ids : gset string) r vcf :
  bool_decide (id r ∈ ids) = false ->
  List.filter (fun record => bool_decide (id record ∉ ids)) (r :: vcf) =
  r :: List.filter (fun record => bool_decide (id record ∉ ids)) vcf.
Proof.
  intros H%bool_decide_eq_false. cbn [List.filter].
  rewrite bool_decide_true by tauto. reflexivity.
Qed.

Lemma merge_records_perm vcf cpx ids :
  records_of (_merge_records rext vcf cpx ids) ≡ₚ
  cpx ++ List.filter (fun record => bool_decide (id record ∉ ids)) vcf.
Proof.
  revert cpx. induction vcf as [|r vcf IH]; intros cpx.
  - destruct cpx as [|c cpx]; [reflexivity|].
    change (_merge_records rext [] (c :: cpx) ids) with (map Some (c :: cpx)).
    rewrite records_of_Some. by rewrite app_nil_r.
  - induction cpx as [|c cpx IHc].
    + rewrite merge_no_cpx by discriminate. by rewrite records_of_Some.
    + rewrite merge_step.
      destruct (bool_decide (id r ∈ ids)) eqn:Hcons.
      { rewrite IH. by rewrite filter_cons_consumed. }
      rewrite (filter_cons_kept _ _ _ Hcons) in IHc |- *.
      assert (Hr : records_of (Some r :: _merge_records rext vcf (c :: cpx) ids) ≡ₚ
                   (c :: cpx) ++ r :: List.filter
                     (fun record => bool_decide (id record ∉ ids)) vcf).
      { rewrite records_of_cons, IH. apply Permutation_middle. }
      assert (Hc : records_of (Some c :: _merge_records rext (r :: vcf) cpx ids) ≡ₚ
                   (c :: cpx) ++ r :: List.filter
                     (fun record => bool_decide (id record ∉ ids)) vcf).
      { rewrite records_of_cons, IHc. reflexivity. }
      destruct (String.eqb _ _); [destruct (_ <=? _) | destruct (is_smaller_chrom _ _ _)];
        assumption.
Qed.

(** X1: the merge emits every queued record and every original record whose
    id is not consumed, each as often as its source holds it, and nothing
    else. *)
Theorem merge_emits_queue_and_unconsumed vcf cpx ids :
  records_of (_merge_records rext vcf cpx ids) ≡ₚ
  cpx ++ List.filter (fun record => bool_decide (id record ∉ ids)) vcf.
Proof. apply merge_records_perm. Qed.

(** X2: the merge keeps the order of each source: the queue, and the
    unconsumed original records, are both found in order within what is
    emitted. *)
Theorem merge_keeps_source_order vcf cpx ids :
  sublist cpx (records_of (_merge_records rext vcf cpx ids)) /\
  sublist (List.filter (fun record => bool_decide (id record ∉ ids)) vcf)
          (records_of (_merge_records rext vcf cpx ids)).
Proof.
  revert cpx. induction vcf as [|r vcf IH]; intros cpx.
  - destruct cpx as [|c cpx]; [split; constructor|].
    change (_merge_records rext [] (c :: cpx) ids) with (map Some (c :: cpx)).
    rewrite records_of_Some. split; [reflexivity | apply sublist_nil_l].
  - induction cpx as [|c cpx IHc].
    + rewrite merge_no_cpx by discriminate. rewrite records_of_Some.
      split; [apply sublist_nil_l | reflexivity].
    + rewrite merge_step.
      destruct (bool_decide (id r ∈ ids)) eqn:Hcons.
      { rewrite (filter_cons_consumed _ _ _ Hcons). apply IH. }
      rewrite (filter_cons_kept _ _ _ Hcons) in IHc |- *.
      destruct (IH (c :: cpx)) as [IH1 IH2]. destruct IHc as [IHc1 IHc2].
      assert (Hr : sublist (c :: cpx)
                     (records_of (Some r :: _merge_records rext vcf (c :: cpx) ids)) /\
                   sublist (r :: List.filter
                              (fun record => bool_decide (id record ∉ ids)) vcf)
                     (records_of (Some r :: _merge_records rext vcf (c :: cpx) ids))).
      { rewrite records_of_cons. split; [by apply sublist_cons | by apply sublist_skip]. }
      assert (Hc : sublist (c :: cpx)
                     (records_of (Some c :: _merge_records rext (r :: vcf) cpx ids)) /\
                   sublist (r :: List.filter
                              (fun record => bool_decide (id record ∉ ids)) vcf)
                     (records_of (Some c :: _merge_records rext (r :: vcf) cpx ids))).
      { rewrite records_of_cons. split; [by apply sublist_skip | by apply sublist_cons]. }
      destruct (String.eqb _ _); [destruct (_ <=? _) | destruct (is_smaller_chrom _ _ _)];
        assumption.
Qed.

(** X3: the merge yields the value [None] exactly when both sources are
    empty from the start. *)
Theorem merge_yields_None_iff vcf cpx ids :
  In None (_merge_records rext vcf cpx ids) <-> vcf = [] /\ cpx = [].
Proof.
  split.
  - intros Hin.
    destruct (decide (vcf = [] /\ cpx = [])) as [|Hne]; [assumption|exfalso].
    destruct (merge_records_only rext vcf cpx ids) as [l E].
    { destruct vcf; [destruct cpx; [tauto|] |]; auto. }
    rewrite E in Hin. apply in_map_iff in Hin as (r & Hr & _). discriminate.
  - intros [-> ->]. left. reflexivity.
Qed.

End MergeContents.

Section MergeWitnesses.
Import resolve examples.

Lemma ranked_rext_follows_table :
  follows_rank_table (is_smaller_chrom ranked_rext) contig_rank.
Proof.
  split; [reflexivity|]. unfold contig_rank.
  intros a b H. apply Pos2Nat.inj in H. by apply (inj encode).
Qed.

(** The sorted sources [rec_a; rec_c] and [rec_b] give a sorted stream. *)
Lemma merge_sorted_witness :
  _merge_records ranked_rext [rec_a; rec_c] [rec_b] ∅ = map Some [rec_a; rec_b; rec_c] /\
  Sorted (coord_le contig_rank) [rec_a; rec_b; rec_c].
Proof.
  assert (E : _merge_records ranked_rext [rec_a; rec_c] [rec_b] ∅
              = map Some [rec_a; rec_b; rec_c]) by (vm_compute; reflexivity).
  split; [exact E|].
  apply (merge_sorted ranked_rext contig_rank ranked_rext_follows_table
           [rec_a; rec_c] [rec_b] ∅ _); [| |exact E].
  - repeat first [apply Sorted_nil | apply HdRel_nil | apply Sorted_cons
                  | apply HdRel_cons; right; split; [reflexivity | vm_compute; discriminate]].
  - repeat first [apply Sorted_nil | apply HdRel_nil | apply Sorted_cons].
Defined.

(** The stream of the run above is given back by the re-run. *)
Lemma merge_rerun_nonempty_witness :
  let out := _merge_records ranked_rext [rec_a; rec_c] [rec_b] ∅ in
  _merge_records ranked_rext (as_source out) [] ∅ = out.
Proof.
  apply (merge_rerun_nonempty ranked_rext [rec_a; rec_c] [rec_b] ∅).
  vm_compute. discriminate.
Defined.

End MergeWitnesses.

(** ** More on the cluster type *)

Section ClusterShapes.
Import complex_sv examples.

(** The test "one class is paired and the rest are absent", on the sizes of
    the four classes. *)
Lemma one_class_paired_sizes (self : ComplexSV) :
  one_class_paired self = true ->
  let paired := map (fun count => count =? 2) (class_counts self) in
  (np_where paired = [0%nat] /\ length (inversions self) = 2%nat /\
   tlocs self = [] /\ breakends self = [] /\ insertions self = []) \/
  (np_where paired = [1%nat] /\ inversions self = [] /\
   length (tlocs self) = 2%nat /\ breakends self = [] /\ insertions self = []) \/
  (np_where paired = [2%nat] /\ inversions self = [] /\ tlocs self = [] /\
   length (breakends self) = 2%nat /\ insertions self = []) \/
  (np_where paired = [3%nat] /\ inversions self = [] /\ tlocs self = [] /\
   breakends self = [] /\ length (insertions self) = 2%nat).
Proof.
  unfold one_class_paired, class_counts. cbn [map].
  assert (Hnil : forall l : list VariantRecord, Z.of_nat (length l) = 0 -> l = []).
  { intros [|? ?]; [reflexivity | simpl; lia]. }
  destruct (Z.eqb_spec (Z.of_nat (length (inversions self))) 2) as [Ei2|Ei2];
  destruct (Z.eqb_spec (Z.of_nat (length (inversions self))) 0) as [Ei0|Ei0];
  destruct (Z.eqb_spec (Z.of_nat (length (tlocs self))) 2) as [Et2|Et2];
  destruct (Z.eqb_spec (Z.of_nat (length (tlocs self))) 0) as [Et0|Et0];
  destruct (Z.eqb_spec (Z.of_nat (length (breakends self))) 2) as [Eb2|Eb2];
  destruct (Z.eqb_spec (Z.of_nat (length (breakends self))) 0) as [Eb0|Eb0];
  destruct (Z.eqb_spec (Z.of_nat (length (insertions self))) 2) as [En2|En2];
  destruct (Z.eqb_spec (Z.of_nat (length (insertions self))) 0) as [En0|En0];
  try lia; cbn; try discriminate; intros _;
    [left | right; left | do 2 right; left | do 3 right];
    repeat split; auto; lia.
Qed.

Lemma class_total_nonneg (self : ComplexSV) : 0 <= foldr Z.add 0 (class_counts self).
Proof. unfold class_counts. cbn. lia. Qed.

(** X4: the cluster type is always one of thirteen names; the fall-back
    ERROR_UNCLASSIFIED is never assigned. *)
Theorem cluster_type_is_known (self self' : ComplexSV) :
  set_cluster_type self = Return self' ->
  exists t, cluster_type self' = Some t /\ In t cluster_types.
Proof.
  unfold set_cluster_type. intros H. bind_inv H. injection H as <-.
  exists a. split; [reflexivity|].
  pose proof (class_total_nonneg self) as Hpos.
  destruct (one_class_paired self) eqn:Hp.
  - apply one_class_paired_sizes in Hp. cbv zeta in Hp.
    destruct Hp as [(Hw & _)|[(Hw & _)|[(Hw & _)|(Hw & _)]]];
      rewrite Hw in E; cbn [Nat.eqb] in E; crunch E; cbn; tauto.
  - destruct (Z.eqb_spec (foldr Z.add 0 (class_counts self)) 0);
      [injection E as <-; cbn; tauto|].
    destruct (Z.eqb_spec (foldr Z.add 0 (class_counts self)) 1);
      [crunch E; cbn; tauto|].
    destruct (Z.leb_spec 2 (foldr Z.add 0 (class_counts self))); [|lia].
    crunch E; cbn; tauto.
Qed.

(** X5: what the three candidate types promise to the branch that resolves
    them: a candidate inversion is two inversions with different STRANDS and
    nothing else but CNVs; a candidate translocation is two
    interchromosomal breakends with complementary strands and nothing else,
    CNVs included; a candidate insertion is two same-chromosome breakends
    with strands '+-' and '-+' and nothing else, CNVs and insertion records
    included. *)
Theorem candidate_cluster_shapes (self self' : ComplexSV) :
  set_cluster_type self = Return self' ->
  (cluster_type self' = Some "CANDIDATE_INVERSION" ->
     exists i0 i1, inversions self = [i0; i1] /\
       info i0 !! "STRANDS" <> info i1 !! "STRANDS" /\
       tlocs self = [] /\ breakends self = [] /\ insertions self = []) /\
  (cluster_type self' = Some "CANDIDATE_TRANSLOCATION" ->
     exists t0 t1, tlocs self = [t0; t1] /\ ok_tloc_strands t0 t1 = Return true /\
       inversions self = [] /\ breakends self = [] /\ insertions self = [] /\
       cnvs self = []) /\
  (cluster_type self' = Some "CANDIDATE_INSERTION" ->
     exists b0 b1, breakends self = [b0; b1] /\ ok_ins_strands b0 b1 = Return true /\
       inversions self = [] /\ tlocs self = [] /\ insertions self = [] /\
       cnvs self = []).
Proof.
  unfold set_cluster_type. intros H. bind_inv H. injection H as <-.
  cbn [cluster_type set_cluster_type_attr].
  assert (Hnil : forall l : list VariantRecord, (0 <? Z.of_nat (length l)) = false -> l = []).
  { intros [|? ?]; [reflexivity | simpl; intros H%Z.ltb_ge; lia]. }
  assert (Htwo : forall l : list VariantRecord, length l = 2%nat ->
                   exists x y, l = [x; y]).
  { intros [|x [|y [|? ?]]]; try discriminate. eauto. }
  destruct (one_class_paired self) eqn:Hp.
  - apply one_class_paired_sizes in Hp. cbv zeta in Hp.
    destruct Hp as [(Hw & H0 & H1 & H2 & H3)|[(Hw & H0 & H1 & H2 & H3)|
                    [(Hw & H0 & H1 & H2 & H3)|(Hw & H0 & H1 & H2 & H3)]]];
      rewrite Hw in E; cbn [Nat.eqb] in E.
    + destruct (Htwo _ H0) as (i0 & i1 & Hi). rewrite Hi in E.
      bind_inv E. bind_inv E. apply info_get_Return in E0, E1.
      destruct (bool_decide (a0 = a1)) eqn:Hd; injection E as <-;
        (split; [|split]); intros Hct; try discriminate Hct.
      exists i0, i1. rewrite E0, E1. apply bool_decide_eq_false in Hd.
      repeat split; auto. congruence.
    + destruct (Htwo _ H1) as (t0 & t1 & Ht). rewrite Ht in E. cbn [apply2] in E.
      destruct (0 <? _) eqn:Hc; [injection E as <-; repeat split; discriminate|].
      bind_inv E. destruct a0; injection E as <-; (split; [|split]); intros Hct; try discriminate Hct.
      exists t0, t1. repeat split; auto.
    + destruct (Htwo _ H2) as (b0 & b1 & Hb). rewrite Hb in E. cbn [apply2] in E.
      destruct (0 <? _) eqn:Hc; [injection E as <-; repeat split; discriminate|].
      bind_inv E. destruct a0; injection E as <-; (split; [|split]); intros Hct; try discriminate Hct.
      exists b0, b1. repeat split; auto.
    + injection E as <-. repeat split; discriminate.
  - crunch E; repeat split; discriminate.
Qed.

(** X6: RESOLVED_INSERTION is given to one kind of cluster only: a single
    insertion record with no inversion, no interchromosomal record and no
    same-chromosome breakend beside it.  So [report_simple_insertion], which
    [resolve] calls for this type alone, never takes its first branch there:
    it ends with svtype DUP or UNR, not INS. *)
Theorem resolved_insertion_shape (self self' : ComplexSV) :
  set_cluster_type self = Return self' ->
  cluster_type self' = Some "RESOLVED_INSERTION" ->
  (exists i, insertions self = [i]) /\
  inversions self = [] /\ tlocs self = [] /\ breakends self = [] /\
  forall self'', report_simple_insertion self' = Return self'' ->
                 svtype self'' = Some "DUP" \/ svtype self'' = Some "UNR".
Proof.
  intros H Ht.
  assert (Hsame : breakends self' = breakends self /\ cnvs self' = cnvs self).
  { unfold set_cluster_type in H. bind_inv H. injection H as <-. split; reflexivity. }
  assert (Hshape : (exists i, insertions self = [i]) /\
                   inversions self = [] /\ tlocs self = [] /\ breakends self = []).
  { unfold set_cluster_type in H. bind_inv H. injection H as <-.
    cbn [cluster_type set_cluster_type_attr] in Ht. injection Ht as ->.
    destruct (one_class_paired self) eqn:Hp.
    - apply one_class_paired_sizes in Hp. cbv zeta in Hp.
      destruct Hp as [(Hw & _)|[(Hw & _)|[(Hw & _)|(Hw & _)]]];
        rewrite Hw in E; cbn [Nat.eqb] in E; crunch E; discriminate.
    - destruct (Z.eqb_spec (foldr Z.add 0 (class_counts self)) 0);
        [discriminate|].
      destruct (Z.eqb_spec (foldr Z.add 0 (class_counts self)) 1) as [E1|].
      + destruct (Z.eqb_spec (Z.of_nat (length (insertions self))) 1) as [En|];
          [|discriminate].
        revert E1 En. unfold class_counts. cbn.
        destruct (insertions self) as [|i [|? ?]], (inversions self), (tlocs self),
          (breakends self); cbn; try lia; intros _ _. eauto.
      + destruct (2 <=? _); [|discriminate]. cbn in E. discriminate. }
  split; [apply Hshape|]. split; [apply Hshape|]. split; [apply Hshape|].
  split; [apply Hshape|].
  destruct Hshape as (_ & _ & _ & Hb). destruct Hsame as [Hb' _].
  intros self'' Hr. unfold report_simple_insertion in Hr. cbv zeta in Hr.
  rewrite Hb', Hb in Hr.
  change (Z.of_nat (length (@nil VariantRecord))) with 0 in Hr.
  change (0 <? 0) with false in Hr. cbn [andb] in Hr.
  crunch Hr; cbn; auto.
Qed.

End ClusterShapes.

Section ClusterShapeWitnesses.
Import complex_sv examples.

Lemma cluster_type_is_known_witness :
  exists self' t,
    set_cluster_type tloc_state = Return self' /\
    cluster_type self' = Some t /\ In t cluster_types.
Proof.
  destruct (set_cluster_type tloc_state) as [e|self'] eqn:H;
    [vm_compute in H; discriminate|].
  destruct (cluster_type_is_known tloc_state self' H) as (t & Ht & Hin).
  exists self', t. auto.
Defined.

Lemma candidate_cluster_shapes_witness :
  exists t0 t1,
    tlocs tloc_state = [t0; t1] /\ ok_tloc_strands t0 t1 = Return true /\
    inversions tloc_state = [] /\ breakends tloc_state = [] /\
    insertions tloc_state = [] /\ cnvs tloc_state = [].
Proof.
  destruct (set_cluster_type tloc_state) as [e|self'] eqn:H;
    [vm_compute in H; discriminate|].
  destruct (candidate_cluster_shapes tloc_state self' H) as (_ & Ht & _).
  apply Ht. vm_compute in H. injection H as <-. reflexivity.
Defined.

Lemma resolved_insertion_shape_witness :
  (exists i, insertions lone_ins_state = [i]) /\
  inversions lone_ins_state = [] /\ tlocs lone_ins_state = [] /\
  breakends lone_ins_state = [].
Proof.
  destruct (set_cluster_type lone_ins_state) as [e|self'] eqn:H;
    [vm_compute in H; discriminate|].
  destruct (resolved_insertion_shape lone_ins_state self' H)
    as (H1 & H2 & H3 & H4 & _).
  - vm_compute in H. injection H as <-. reflexivity.
  - auto.
Defined.

End ClusterShapeWitnesses.

(** ** Strand pairs *)

Section StrandPairs.
Import complex_sv examples.

Lemma ltb_asym (a b : string) : String.ltb a b = true -> String.ltb b a = false.
Proof.
  unfold String.ltb. rewrite (String.compare_antisym a b).
  destruct (String.compare b a); simpl; congruence.
Qed.

Lemma ltb_false_both (a b : string) :
  String.ltb a b = false -> String.ltb b a = false -> a = b.
Proof.
  unfold String.ltb. rewrite (String.compare_antisym a b).
  destruct (String.compare b a) eqn:E; simpl; try discriminate.
  intros _ _. symmetry. by apply String.compare_eq_iff.
Qed.

Lemma sorted_two_sym (a b : string) : sorted_strings [a; b] = sorted_strings [b; a].
Proof.
  unfold sorted_strings, sorted_by. cbn -[String.ltb].
  destruct (String.ltb b a) eqn:Hba, (String.ltb a b) eqn:Hab; try reflexivity.
  - apply ltb_asym in Hba. congruence.
  - assert (a = b) as -> by (apply ltb_false_both; assumption). reflexivity.
Qed.

Lemma sorted_strand_pair_sym t1 t2 p :
  sorted_strand_pair t1 t2 = Return p -> sorted_strand_pair t2 t1 = Return p.
Proof.
  unfold sorted_strand_pair. intros H. bind_inv H. bind_inv H.
  rewrite E0, E. cbn [mbind result_bind]. by rewrite sorted_two_sym.
Qed.

(** X7: the two strand tests do not depend on the order of the two
    breakends; and a pair that makes a valid insertion pair also makes a
    valid translocation pair. *)
Theorem strand_tests_symmetric (t1 t2 : VariantRecord) (v : bool) :
  (ok_tloc_strands t1 t2 = Return v -> ok_tloc_strands t2 t1 = Return v) /\
  (ok_ins_strands t1 t2 = Return v -> ok_ins_strands t2 t1 = Return v) /\
  (ok_ins_strands t1 t2 = Return true -> ok_tloc_strands t1 t2 = Return true).
Proof.
  unfold ok_tloc_strands, ok_ins_strands. repeat split; intros H; bind_inv H.
  - by rewrite (sorted_strand_pair_sym _ _ _ E).
  - by rewrite (sorted_strand_pair_sym _ _ _ E).
  - rewrite E. destruct a as [s1 s2]. cbn [mbind result_bind] in *.
    injection H as H. apply andb_prop in H as [-> ->]. by rewrite orb_true_r.
Qed.

(** X8: for a pair that passes the translocation strand test, the record
    named [plus] after sorting is the one whose STRANDS begin with '+', as
    the comment of [classify_simple_translocation] expects: the pair is
    ('++', '--') or ('+-', '-+'), whichever order it was given in. *)
Theorem plus_breakend_starts_with_plus (t1 t2 : VariantRecord) :
  ok_tloc_strands t1 t2 = Return true ->
  exists plus minus,
    sorted_pair_by_strands [t1; t2] = Return (plus, minus) /\
    ((plus = t1 /\ minus = t2) \/ (plus = t2 /\ minus = t1)) /\
    ((info plus !! "STRANDS" = Some (IStr "++") /\
      info minus !! "STRANDS" = Some (IStr "--")) \/
     (info plus !! "STRANDS" = Some (IStr "+-") /\
      info minus !! "STRANDS" = Some (IStr "-+"))).
Proof.
  unfold ok_tloc_strands, sorted_strand_pair. intros H.
  bind_inv H. bind_inv E. bind_inv E.
  pose proof E0 as G0. pose proof E1 as G1.
  apply info_str_Return in G0, G1.
  unfold sorted_pair_by_strands. cbn [mapM]. rewrite E0, E1.
  cbn [mbind result_bind mret result_ret].
  destruct a as [s1 s2]. injection H as H.
  unfold sorted_strings, sorted_by in E. cbn -[String.ltb] in E.
  unfold sorted_by. cbn [foldr insert_by fst].
  destruct (String.ltb a1 a0) eqn:Hlt; injection E as <- <-;
    apply orb_prop in H as [H|H]; apply andb_prop in H as [Ha Hb];
    apply String.eqb_eq in Ha, Hb; subst; try discriminate Hlt;
    cbn; eexists _, _; (split; [reflexivity|]); rewrite G0, G1; tauto.
Qed.

End StrandPairs.

Section StrandPairWitnesses.
Import complex_sv examples.

Lemma strand_tests_symmetric_witness :
  ok_tloc_strands tloc_plus tloc_minus = Return true /\
  ok_tloc_strands tloc_minus tloc_plus = Return true.
Proof.
  assert (H : ok_tloc_strands tloc_plus tloc_minus = Return true) by reflexivity.
  split; [exact H|].
  exact (proj1 (strand_tests_symmetric tloc_plus tloc_minus true) H).
Defined.

Lemma plus_breakend_starts_with_plus_witness :
  exists plus minus,
    sorted_pair_by_strands [tloc_minus; tloc_plus] = Return (plus, minus) /\
    info plus !! "STRANDS" = Some (IStr "++").
Proof.
  destruct (plus_breakend_starts_with_plus tloc_minus tloc_plus)
    as (plus & minus & Hs & _ & Hstr).
  - reflexivity.
  - exists plus, minus. split; [exact Hs|].
    destruct Hstr as [[Hp _] | [Hp Hm]]; [exact Hp|].
    exfalso. vm_compute in Hs. injection Hs as <- <-. vm_compute in Hp.
    discriminate.
Defined.

End StrandPairWitnesses.

(** ** More on translocations *)

Lemma raises_only_Return {A} P (a : A) : raises_only P (Return a).
Proof. intros e. discriminate. Qed.

Lemma raises_only_Raise {A} (P : exn -> Prop) e : P e -> raises_only P (@Raise A e).
Proof. intros He e' [= <-]. exact He. Qed.

Lemma raises_only_bind {A B} P (m : result A) (f : A -> result B) :
  raises_only P m -> (forall a, m = Return a -> raises_only P (f a)) ->
  raises_only P (m ≫= f).
Proof.
  intros Hm Hf e. destruct m as [e'|a]; simpl.
  - intros [= ->]. apply Hm. reflexivity.
  - apply Hf. reflexivity.
Qed.

Lemma raises_only_mapM {A B} P (f : A -> result B) (l : list A) :
  (forall x, raises_only P (f x)) -> raises_only P (mapM f l).
Proof.
  intros Hf. induction l as [|x l IH]; cbn [mapM].
  - apply raises_only_Return.
  - apply raises_only_bind; [apply Hf|]. intros y _.
    apply raises_only_bind; [apply IH|]. intros k _.
    apply raises_only_Return.
Qed.

Lemma raises_only_info_get r k : raises_only data_error (info_get r k).
Proof. intros e. unfold info_get. destruct (info r !! k); intros [= <-]. exact I. Qed.

Lemma raises_only_as_int v : raises_only data_error (as_int v).
Proof. intros e. destruct v; intros [= <-]; exact I. Qed.
Lemma raises_only_as_str v : raises_only data_error (as_str v).
Proof. intros e. destruct v; intros [= <-]; exact I. Qed.

Lemma raises_only_info_int r k : raises_only data_error (info_int r k).
Proof.
  apply raises_only_bind; [apply raises_only_info_get|].
  intros; apply raises_only_as_int.
Qed.
Lemma raises_only_info_str r k : raises_only data_error (info_str r k).
Proof.
  apply raises_only_bind; [apply raises_only_info_get|].
  intros; apply raises_only_as_str.
Qed.

(** Goals [raises_only data_error m]. *)
Ltac data_errors :=
  repeat first
    [ apply raises_only_Return
    | apply raises_only_info_get | apply raises_only_info_int
    | apply raises_only_info_str | apply raises_only_as_int
    | apply raises_only_as_str
    | assumption
    | apply raises_only_mapM; intros ?
    | apply raises_only_bind; [| intros ? ?]
    | match goal with
      | |- raises_only _ (Raise ?e) => apply raises_only_Raise; exact I
      | |- raises_only _ (match ?x with _ => _ end) => destruct x eqn:?
      | |- raises_only _ (let '(_, _) := ?x in _) => destruct x eqn:?
      end ].

Section MoreTranslocations.
Import cpx_tloc complex_sv examples.
Variable ext : Externals.

(** The guard apart, which is never reached, [resolve_translocation] raises
    where a read of the data fails. *)
Lemma resolve_translocation_data_errors (self : ComplexSV) :
  raises_only data_error (resolve_translocation ext self).
Proof.
  unfold resolve_translocation.
  apply raises_only_bind.
  { unfold sorted_pair_by_strands. data_errors. }
  intros [plus minus] _.
  apply raises_only_bind.
  { unfold get_arms, _get_arm. data_errors. }
  intros [armA armB] _.
  apply raises_only_bind.
  { unfold classify_simple_translocation. data_errors. }
  intros l Hl. apply classify_labels in Hl. simpl in Hl.
  generalize (bool_decide (pos plus = pos minus) && bool_decide (stop plus = stop minus)).
  generalize (String.eqb armA armB). intros same_arm duplicate.
  apply raises_only_bind.
  { intros e He.
    repeat destruct Hl as [<- | Hl]; try destruct Hl;
      destruct same_arm, duplicate; vm_compute in He; discriminate He. }
  intros [svtype_ cpx_type_] Hpair.
  repeat destruct Hl as [<- | Hl]; try destruct Hl;
    destruct same_arm, duplicate; vm_compute in Hpair; injection Hpair as <- <-;
    cbn -[info_get set_info set_stop set_alts stop];
    data_errors.
Qed.

(** X9: a failure of [resolve_translocation] is always a failure of a read
    on the data (a missing key, a value of the wrong type, a pair that is
    not a pair, an empty cytoband query): its guard is not reached, and the
    sink and source coordinates of an insertion outcome are bound for each
    of the four insertion labels. *)
Theorem translocation_fails_on_data_only (self : ComplexSV) :
  raises_only data_error (resolve_translocation ext self).
Proof. apply resolve_translocation_data_errors. Qed.

(** X10: two breakends with the same coordinates on the same pair of
    chromosomes are never reported as a translocation or an insertion:
    within the buffer they classify as a reciprocal event, and the
    duplicate-coordinates test makes the result UNR. *)
Theorem identical_breakends_are_unresolved
    (self : ComplexSV) (plus minus : VariantRecord) (armA armB : string)
    (e : Z) (s c : info_value) :
  sorted_pair_by_strands (tlocs self) = Return (plus, minus) ->
  get_arms ext plus = Return (armA, armB) ->
  chrom plus = chrom minus ->
  info plus !! "CHR2" = Some c -> info minus !! "CHR2" = Some c ->
  pos plus = pos minus ->
  info plus !! "END" = Some (IInt e) -> info minus !! "END" = Some (IInt e) ->
  info plus !! "STRANDS" = Some s ->
  exists self' label,
    resolve_translocation ext self = Return self' /\
    (label = "CTX_PP/QQ" \/ label = "CTX_PQ/QP") /\
    svtype self' = Some "UNR" /\
    cpx_type self' = Some (label +:+ "_DUPLICATE_COORDS").
Proof.
  intros Hsort Harms Hchrom Hc1 Hc2 Hpos He1 He2 Hs.
  assert (Hstop : stop plus = stop minus) by (unfold stop; by rewrite He1, He2).
  assert (Hgt : forall x, _greater mh_buffer_default x x = true).
  { intros x. unfold _greater, mh_buffer_default. apply Z.ltb_lt. lia. }
  assert (Hcls : classify_simple_translocation plus minus mh_buffer_default =
                 Return (if bool_decide (s = IStr "+-") then "CTX_PP/QQ" else "CTX_PQ/QP")).
  { unfold classify_simple_translocation, info_int, info_get.
    rewrite Hchrom, Hc1, Hc2, He1, He2, Hs, Hpos.
    rewrite (bool_decide_false (chrom minus <> chrom minus)) by tauto.
    cbn [mbind result_bind as_int].
    rewrite (bool_decide_false (c <> c)) by tauto.
    rewrite !Hgt. cbn [andb]. by destruct (bool_decide (s = IStr "+-")). }
  unfold resolve_translocation. rewrite Hsort. cbn [mbind result_bind].
  rewrite Harms. cbn [mbind result_bind]. rewrite Hcls. cbn [mbind result_bind].
  rewrite (bool_decide_true (pos plus = pos minus)) by assumption.
  rewrite (bool_decide_true (stop plus = stop minus)) by assumption.
  destruct (bool_decide (s = IStr "+-")); cbn;
    eexists _, _; (split; [reflexivity|]); cbn; eauto.
Qed.

(** X11: with a positive buffer, a pair on matching chromosomes is left
    unclassified (CTX_UNR) exactly when the [minus] breakend lies a full
    buffer or more before the [plus] breakend on chromosome A and, on
    chromosome B, the breakend expected first lies a full buffer or more
    before the other ([plus] for strands '+-', [minus] otherwise). *)
Theorem unclassified_translocation_iff
    (plus minus : VariantRecord) (mh ep em : Z) (s : info_value) (label : string) :
  0 < mh ->
  info plus !! "END" = Some (IInt ep) -> info minus !! "END" = Some (IInt em) ->
  info plus !! "STRANDS" = Some s ->
  classify_simple_translocation plus minus mh = Return label ->
  label <> "TLOC_MISMATCH_CHROM" ->
  (label = "CTX_UNR" <->
   pos minus <= pos plus - mh /\
   if bool_decide (s = IStr "+-") then ep <= em - mh else em <= ep - mh).
Proof.
  intros Hmh He1 He2 Hs H Hl. unfold classify_simple_translocation in H.
  bind_inv H. destruct a; [injection H as <-; congruence|].
  unfold info_int, info_get in H. rewrite He1, He2, Hs in H.
  cbn [mbind result_bind as_int] in H. unfold _greater in H.
  destruct (bool_decide (s = IStr "+-"));
    destruct (Z.ltb_spec (pos plus - mh) (pos minus));
    destruct (Z.ltb_spec (pos minus - mh) (pos plus));
    destruct (Z.ltb_spec (em - mh) ep);
    destruct (Z.ltb_spec (ep - mh) em);
    cbn [andb] in H; injection H as <-;
    split; try discriminate; try lia; try tauto; intros [? ?]; lia.
Qed.

(** X12: an interchromosomal pair whose [plus] breakend lies where the
    cytoband file has no row makes [resolve_translocation] fail with
    StopIteration, before the pair is classified. *)
Theorem translocation_without_cytoband
    (self : ComplexSV) (plus minus : VariantRecord) (c : string) :
  sorted_pair_by_strands (tlocs self) = Return (plus, minus) ->
  info plus !! "CHR2" = Some (IStr c) ->
  cytobands ext (chrom plus) (pos plus) = [] ->
  resolve_translocation ext self = Raise StopIteration.
Proof.
  intros Hsort Hc Hband. unfold resolve_translocation. rewrite Hsort.
  cbn [mbind result_bind]. unfold get_arms, info_str, info_get, _get_arm.
  rewrite Hc, Hband. reflexivity.
Qed.

(** X13: the record [resolve_translocation] leaves agrees with the object:
    svtype is INS, UNR or CTX, the record carries it as SVTYPE and as its
    symbolic alt allele, and carries the object's cpx_type as CPX_TYPE; the
    record has an END exactly when the pair was resolved (svtype other than
    UNR), since the span is written after the alt allele. *)
Theorem translocation_record_consistent (self self' : ComplexSV) :
  resolve_translocation ext self = Return self' ->
  exists t c,
    svtype self' = Some t /\ cpx_type self' = Some c /\
    In t ["INS"; "UNR"; "CTX"] /\
    info (vcf_record self') !! "SVTYPE" = Some (IStr t) /\
    info (vcf_record self') !! "CPX_TYPE" = Some (IStr c) /\
    alts (vcf_record self') = symbolic_alt t /\
    (t = "UNR" <-> info (vcf_record self') !! "END" = None).
Proof.
  unfold resolve_translocation. intros H.
  bind_inv H. destruct a as [plus minus].
  bind_inv H. destruct a as [armA armB].
  bind_inv H. bind_inv H. destruct a0 as [svtype_ cpx_type_].
  assert (Ht : svtype_ = "INS" \/ svtype_ = "UNR" \/ svtype_ = "CTX")
    by (clear H; crunch E2; tauto).
  clear E2. exists svtype_, cpx_type_.
  destruct Ht as [-> | [-> | ->]]; cbn [String.eqb Ascii.eqb Bool.eqb] in H;
    crunch H; cpx_simpl; record_simpl; cbn [alts set_info with_info set_alts set_stop set_pos set_chrom];
    repeat split; try reflexivity; try (cbn; tauto); try discriminate.
Qed.

End MoreTranslocations.

Section MoreTranslocationWitnesses.
Import cpx_tloc complex_sv examples.

Lemma identical_breakends_are_unresolved_witness :
  let twin := mk "t3" "chr1" 1000 5000 "BND" "chr2" "--" in
  let self := mkCpx [tloc_plus; twin] [] [tloc_plus; twin] [] [] []
                    (Some "CANDIDATE_TRANSLOCATION") None None tloc_plus in
  exists self' label,
    resolve_translocation (demo_ext "") self = Return self' /\
    (label = "CTX_PP/QQ" \/ label = "CTX_PQ/QP") /\
    svtype self' = Some "UNR" /\
    cpx_type self' = Some (label +:+ "_DUPLICATE_COORDS").
Proof.
  intros twin self.
  apply (identical_breakends_are_unresolved (demo_ext "") self tloc_plus twin
           "p" "q" 5000 (IStr "++") (IStr "chr2")); reflexivity.
Defined.

Lemma unclassified_translocation_iff_witness :
  let far := mk "t4" "chr1" 900 4900 "BND" "chr2" "--" in
  classify_simple_translocation tloc_plus far 50 = Return "CTX_UNR" /\
  pos far <= pos tloc_plus - 50.
Proof.
  intros far.
  assert (H : classify_simple_translocation tloc_plus far 50 = Return "CTX_UNR")
    by reflexivity.
  split; [exact H|].
  apply (unclassified_translocation_iff tloc_plus far 50 5000 4900 (IStr "++") "CTX_UNR");
    try reflexivity; discriminate.
Defined.

Lemma translocation_without_cytoband_witness :
  let ext := {| cytobands := fun _ _ => [];
                mei_coverage := fun _ _ _ => 0%Q;
                classify_complex_inversion := fun _ _ _ => Return ("INV", []);
                classify_insertion := fun _ _ => Return "";
                update_best_genotypes := fun r _ => Return r;
                header_info := [] |} in
  resolve_translocation ext tloc_state = Raise StopIteration.
Proof.
  intros ext.
  apply (translocation_without_cytoband ext tloc_state tloc_plus tloc_minus "chr2");
    reflexivity.
Defined.

Lemma translocation_record_consistent_witness :
  exists self' t c,
    resolve_translocation (demo_ext "") tloc_state = Return self' /\
    svtype self' = Some t /\ cpx_type self' = Some c /\
    info (vcf_record self') !! "SVTYPE" = Some (IStr t) /\
    (t = "UNR" <-> info (vcf_record self') !! "END" = None).
Proof.
  destruct (resolve_translocation (demo_ext "") tloc_state) as [e|self'] eqn:H;
    [vm_compute in H; discriminate|].
  destruct (translocation_record_consistent (demo_ext "") tloc_state self' H)
    as (t & c & H1 & H2 & _ & H3 & _ & _ & H4).
  exists self', t, c. auto.
Defined.

End MoreTranslocationWitnesses.
Section TranslocationFailures.
Import cpx_tloc complex_sv examples.

(** C5, as amended: for a pair of breakends whose CHR2, END and STRANDS can
    be read, [classify_simple_translocation] returns one of its eight
    labels; the 'Invalid cpx type' guard of [resolve_translocation], the one
    [raise] statement of the classifier, fires for no pair of breakends and
    no coordinates; and the exceptions that do escape
    [resolve_translocation] are those of a read that fails on the data (a
    missing key, a value of the wrong type, a pair that is not a pair, an
    empty cytoband query). *)
Theorem translocation_labels_exhaustive (plus minus : VariantRecord) (mh : Z) :
  has_breakend_fields plus -> has_breakend_fields minus ->
  (exists l, classify_simple_translocation plus minus mh = Return l /\ In l labels) /\
  (forall ext self msg,
      resolve_translocation ext self <> Raise (Exception msg)) /\
  (forall ext self e,
      resolve_translocation ext self = Raise e -> data_error e).
Proof.
  intros Hp Hm. split; [|split].
  - destruct (classify_returns plus minus mh Hp Hm) as [l Hl].
    exists l. split; [exact Hl | exact (classify_labels _ _ _ _ Hl)].
  - intros ext self. apply translocation_guard_unreachable.
  - intros ext self. apply resolve_translocation_data_errors.
Qed.

(** C5, as stated, fails: the guard is not the only exception that can
    escape.  For the pair [tloc_plus], [tloc_minus] and a cytoband file
    without a row at their position, [resolve_translocation] ends in
    StopIteration, raised by [next] in [get_arms]. *)
Lemma guard_is_not_the_only_exception :
  resolve_translocation no_band_ext tloc_state = Raise StopIteration /\
  forall msg, StopIteration <> Exception msg.
Proof. split; [reflexivity | discriminate]. Qed.

Lemma translocation_labels_exhaustive_witness :
  (exists l, classify_simple_translocation tloc_plus tloc_minus 50 = Return l /\
             In l labels) /\
  (forall ext self msg, resolve_translocation ext self <> Raise (Exception msg)) /\
  (forall ext self e, resolve_translocation ext self = Raise e -> data_error e).
Proof.
  apply translocation_labels_exhaustive;
    (split; [eexists; reflexivity | split; eexists; reflexivity]).
Defined.

End TranslocationFailures.

(** ** More on breakend insertions and on the classes of a cluster *)

Section InsertionLabels.
Import complex_sv examples.
Variable ext : Externals.

(** X14: what [resolve_insertion] does with the other answers of
    [classify_insertion]: INS_UNCLASSIFIED leaves the object UNR with that
    cpx_type and the record untouched; any label other than
    INS_UNCLASSIFIED, INS_B2A and INS_A2B leaves the sink coordinates unbound
    and the call fails with UnboundLocalError. *)
Theorem insertion_label_handling
    (self : ComplexSV) (plus minus : VariantRecord) (label : string) :
  sorted_pair_by_strands (breakends self) = Return (plus, minus) ->
  classify_insertion ext plus minus = Return label ->
  (label = "INS_UNCLASSIFIED" ->
     exists self', resolve_insertion ext self = Return self' /\
       svtype self' = Some "UNR" /\ cpx_type self' = Some "INS_UNCLASSIFIED" /\
       vcf_record self' = vcf_record self /\ records self' = records self) /\
  (label <> "INS_UNCLASSIFIED" -> label <> "INS_B2A" -> label <> "INS_A2B" ->
     resolve_insertion ext self = Raise (UnboundLocalError "sink_end")).
Proof.
  intros Hsort Hcls. unfold resolve_insertion. rewrite Hsort.
  cbn [mbind result_bind]. rewrite Hcls. cbn [mbind result_bind]. split.
  - intros ->. cbn [String.eqb Ascii.eqb Bool.eqb].
    eexists. split; [reflexivity|]. repeat split.
  - intros H1%String.eqb_neq H2%String.eqb_neq H3%String.eqb_neq.
    rewrite H1, H2, H3. reflexivity.
Qed.

End InsertionLabels.

Section InsertionLabelWitness.
Import complex_sv examples.

Lemma insertion_label_handling_witness :
  resolve_insertion (demo_ext "INS_C2D") ins_state = Raise (UnboundLocalError "sink_end").
Proof.
  destruct (insertion_label_handling (demo_ext "INS_C2D") ins_state
              ins_plus ins_minus "INS_C2D") as [_ H]; [reflexivity | reflexivity |].
  apply H; discriminate.
Defined.

End InsertionLabelWitness.

Section Classes.
Import complex_sv examples.

Lemma svtype_is_true s r :
  svtype_is s r = Return true <-> info r !! "SVTYPE" = Some (IStr s).
Proof.
  unfold svtype_is, info_get. destruct (info r !! "SVTYPE") as [v|]; simpl.
  - case_bool_decide; split; intros G; congruence.
  - split; discriminate.
Qed.

Lemma is_tloc_true r :
  is_tloc r = Return true <->
  exists c, info r !! "CHR2" = Some c /\ c <> IStr (chrom r).
Proof.
  unfold is_tloc, info_get. destruct (info r !! "CHR2") as [v|]; simpl.
  - case_bool_decide; split.
    + intros _. exists v. split; [reflexivity | congruence].
    + reflexivity.
    + discriminate.
    + intros (c & [= <-] & Hc). congruence.
  - split; [discriminate | intros (c & ? & _); discriminate].
Qed.

Lemma is_breakend_true r :
  is_breakend r = Return true <->
  info r !! "CHR2" = Some (IStr (chrom r)) /\ info r !! "SVTYPE" = Some (IStr "BND").
Proof.
  unfold is_breakend, info_get. destruct (info r !! "CHR2") as [v|]; simpl.
  - case_bool_decide; rewrite ?svtype_is_true; split.
    + intros G. split; congruence.
    + tauto.
    + discriminate.
    + intros [[= ?] _]. congruence.
  - split; [discriminate | intros [? _]; discriminate].
Qed.

Lemma is_cnv_true r :
  is_cnv r = Return true <->
  info r !! "SVTYPE" = Some (IStr "DEL") \/ info r !! "SVTYPE" = Some (IStr "DUP").
Proof.
  unfold is_cnv, info_get. destruct (info r !! "SVTYPE") as [v|]; simpl.
  - case_bool_decide as Hin; split.
    + intros _. set_unfold in Hin. destruct Hin as [-> | [-> | []]]; auto.
    + reflexivity.
    + discriminate.
    + intros [[= ->] | [= ->]]; exfalso; apply Hin;
        rewrite !elem_of_cons; tauto.
  - split; [discriminate | intros [?|?]; discriminate].
Qed.

(** X15: the classes [organize_records] forms.  Inversions, insertions and
    CNVs are the records of that SVTYPE; the translocations are the records
    whose CHR2 differs from their chromosome, whatever their SVTYPE; the
    breakends are the BND records whose CHR2 is their chromosome.  No record
    is both a translocation and a breakend, and every BND record is one of
    the two. *)
Theorem organize_records_classes (self self' : ComplexSV) :
  organize_records self = Return self' ->
  records self' = records self /\
  (forall r, In r (inversions self') <->
             In r (records self) /\ info r !! "SVTYPE" = Some (IStr "INV")) /\
  (forall r, In r (tlocs self') <->
             In r (records self) /\
             exists c, info r !! "CHR2" = Some c /\ c <> IStr (chrom r)) /\
  (forall r, In r (breakends self') <->
             In r (records self) /\ info r !! "CHR2" = Some (IStr (chrom r)) /\
             info r !! "SVTYPE" = Some (IStr "BND")) /\
  (forall r, In r (insertions self') <->
             In r (records self) /\ info r !! "SVTYPE" = Some (IStr "INS")) /\
  (forall r, In r (cnvs self') <->
             In r (records self) /\
             (info r !! "SVTYPE" = Some (IStr "DEL") \/
              info r !! "SVTYPE" = Some (IStr "DUP"))) /\
  (forall r, In r (tlocs self') -> ~ In r (breakends self')) /\
  (forall r, In r (records self) -> info r !! "SVTYPE" = Some (IStr "BND") ->
             In r (tlocs self') \/ In r (breakends self')).
Proof.
  unfold organize_records. intros H.
  bind_inv H. bind_inv H. bind_inv H. bind_inv H. bind_inv H.
  injection H as <-. cpx_simpl.
  pose proof (filterM_spec _ _ _ E) as Hinv.
  pose proof (filterM_spec _ _ _ E0) as Htl.
  pose proof (filterM_spec _ _ _ E1) as Hbnd.
  pose proof (filterM_spec _ _ _ E2) as Hins.
  pose proof (filterM_spec _ _ _ E3) as Hcnv.
  assert (Hchr2 : forall r, In r (records self) -> is_Some (info r !! "CHR2")).
  { intros r Hr. clear -E0 Hr. revert a0 E0.
    induction (records self) as [|y l IH]; [destruct Hr|]. intros a0 E0.
    simpl in E0. bind_inv E0. bind_inv E0.
    destruct Hr as [<- | Hr]; [|eauto].
    unfold is_tloc in E. bind_inv E. apply info_get_Return in E2. eauto. }
  split; [reflexivity|].
  split; [intros r; rewrite Hinv, svtype_is_true; tauto|].
  split; [intros r; rewrite Htl, is_tloc_true; tauto|].
  split; [intros r; rewrite Hbnd, is_breakend_true; tauto|].
  split; [intros r; rewrite Hins, svtype_is_true; tauto|].
  split; [intros r; rewrite Hcnv, is_cnv_true; tauto|].
  split.
  - intros r. rewrite Htl, Hbnd, is_tloc_true, is_breakend_true.
    intros (_ & c & Hc & Hne) (_ & Hc' & _). congruence.
  - intros r Hr Hsv. rewrite Htl, Hbnd, is_tloc_true, is_breakend_true.
    destruct (Hchr2 r Hr) as [c Hc].
    destruct (decide (c = IStr (chrom r))) as [-> | Hne]; [right | left]; eauto.
Qed.

(** X16: an interchromosomal record that is not a BND is counted twice: a
    lone inversion record whose CHR2 is another chromosome is put among the
    inversions and among the translocations, and its cluster is typed
    MIXED_BREAKENDS, not SINGLE_ENDER. *)
Theorem lone_interchromosomal_inversion_is_mixed
    (self self' : ComplexSV) (r : VariantRecord) (c : info_value) :
  records self = [r] ->
  info r !! "SVTYPE" = Some (IStr "INV") ->
  info r !! "CHR2" = Some c -> c <> IStr (chrom r) ->
  organize_records self = Return self' ->
  inversions self' = [r] /\ tlocs self' = [r] /\
  cluster_type <$> set_cluster_type self' = Return (Some "MIXED_BREAKENDS").
Proof.
  intros Hr Hsv Hc Hne. unfold organize_records. rewrite Hr.
  cbn [filterM]. unfold svtype_is, is_tloc, is_breakend, is_cnv, info_get.
  rewrite Hsv, Hc. cbn [mbind result_bind].
  rewrite (bool_decide_true (IStr "INV" = IStr "INV")) by reflexivity.
  rewrite (bool_decide_true (IStr (chrom r) <> c)) by congruence.
  rewrite (bool_decide_false (IStr (chrom r) = c)) by congruence.
  rewrite (bool_decide_false (IStr "INV" = IStr "INS")) by discriminate.
  rewrite (bool_decide_false (IStr "INV" ∈ [IStr "DEL"; IStr "DUP"]))
    by (rewrite !elem_of_cons, elem_of_nil; intros [?|[?|[]]]; discriminate).
  cbn [mbind result_bind]. intros [= <-]. cpx_simpl.
  split; [reflexivity|]. split; [reflexivity|].
  apply unpaired_cluster_is_mixed; reflexivity.
Qed.

End Classes.

Section ClassWitnesses.
Import complex_sv examples.

Lemma organize_records_classes_witness :
  exists self',
    organize_records (mkCpx [tloc_plus; ins_plus] [] [] [] [] [] None None None tloc_plus)
      = Return self' /\
    In tloc_plus (tlocs self') /\ In ins_plus (breakends self').
Proof.
  destruct (organize_records
              (mkCpx [tloc_plus; ins_plus] [] [] [] [] [] None None None tloc_plus))
    as [e|self'] eqn:H; [vm_compute in H; discriminate|].
  destruct (organize_records_classes _ _ H) as (_ & _ & Htl & Hbnd & _).
  exists self'. split; [reflexivity|]. split.
  - apply Htl. split; [left; reflexivity|].
    exists (IStr "chr2"). split; [reflexivity | discriminate].
  - apply Hbnd. split; [right; left; reflexivity|]. split; reflexivity.
Defined.

Lemma lone_interchromosomal_inversion_is_mixed_witness :
  let r := mk "i1" "chr1" 100 900 "INV" "chr2" "++" in
  exists self',
    organize_records (mkCpx [r] [] [] [] [] [] None None None r) = Return self' /\
    inversions self' = [r] /\ tlocs self' = [r] /\
    cluster_type <$> set_cluster_type self' = Return (Some "MIXED_BREAKENDS").
Proof.
  intros r.
  destruct (organize_records (mkCpx [r] [] [] [] [] [] None None None r))
    as [e|self'] eqn:H; [vm_compute in H; discriminate|].
  exists self'. split; [reflexivity|].
  apply (lone_interchromosomal_inversion_is_mixed
           (mkCpx [r] [] [] [] [] [] None None None r) self' r (IStr "chr2"));
    try reflexivity; [discriminate | exact H].
Defined.

End ClassWitnesses.

(** ** More on the construction of a ComplexSV *)

Section SRFilter.
Import complex_sv examples.
Variable ext : Externals.

Lemma filter_sublist {A} (f : A -> bool) (l : list A) : sublist (List.filter f l) l.
Proof.
  induction l as [|x l IH]; [constructor|]. cbn [List.filter].
  destruct (f x); [by apply sublist_skip | by apply sublist_cons].
Qed.

(** X17: dropping the breakpoints with split-read evidence only never
    empties the cluster: the records kept are a sub-list of the records, in
    the same order; either nothing changed or no split-read-only record is
    left; and nothing changes when the header declares no EVIDENCE field. *)
Theorem sr_filter_keeps_a_record (self self' : ComplexSV) :
  remove_SR_only_breakpoints ext self = Return self' ->
  records self' <> [] /\
  sublist (records self') (records self) /\
  (records self' = records self \/
   Forall (fun r => _is_SR_only r = false) (records self')) /\
  ("EVIDENCE" ∉ header_info ext -> self' = self).
Proof.
  unfold remove_SR_only_breakpoints. intros H.
  destruct (records self) as [|r0 rest] eqn:Er; [discriminate|]. rewrite <- Er in *.
  assert (Hne : records self <> []) by (rewrite Er; discriminate).
  case_bool_decide as Hev.
  - destruct (Z.ltb_spec 0 (Z.of_nat (length
      (List.filter (fun r => negb (_is_SR_only r)) (records self))))) as [Hlen|Hlen];
      injection H as <-; cpx_simpl.
    + split; [intros Hnil; rewrite Hnil in Hlen; simpl in Hlen; lia|].
      split; [apply filter_sublist|]. split; [|tauto].
      right. apply List.Forall_forall. intros r [_ Hr]%filter_In.
      by apply negb_true_iff.
    + repeat split; auto.
  - injection H as <-. repeat split; auto.
Qed.

End SRFilter.

Section MembersSorted.
Import complex_sv examples.
Variable ext : Externals.

Lemma insert_by_perm {A} (key : A -> string) (x : A) (l : list A) :
  insert_by key x l ≡ₚ x :: l.
Proof.
  induction l as [|y l IH]; [reflexivity|]. simpl.
  destruct (String.ltb _ _); [|reflexivity].
  rewrite IH. apply Permutation_swap.
Qed.

Lemma sorted_by_perm {A} (key : A -> string) (l : list A) : sorted_by key l ≡ₚ l.
Proof.
  induction l as [|x l IH]; [reflexivity|]. unfold sorted_by in *. simpl.
  etrans; [apply insert_by_perm|]. by apply Permutation_skip.
Qed.

Lemma ltb_leb (a b : string) : String.ltb a b = true -> String.leb a b = true.
Proof. unfold String.ltb, String.leb. by destruct (String.compare a b). Qed.

Lemma not_ltb_leb (a b : string) : String.ltb a b = false -> String.leb b a = true.
Proof.
  unfold String.ltb, String.leb. rewrite (String.compare_antisym a b).
  by destruct (String.compare b a).
Qed.

Lemma insert_by_sorted (x : string) (l : list string) :
  Sorted (fun a b => String.leb a b = true) l ->
  Sorted (fun a b => String.leb a b = true) (insert_by (fun s => s) x l).
Proof.
  induction 1 as [|y l Hs IH Hhd]; simpl.
  - repeat constructor.
  - destruct (String.ltb y x) eqn:Hlt.
    + constructor; [exact IH|].
      destruct Hhd as [|z l Hyz]; simpl.
      * constructor. by apply ltb_leb.
      * destruct (String.ltb z x); constructor; [assumption | by apply ltb_leb].
    + constructor; [by constructor|]. constructor. by apply not_ltb_leb.
Qed.

Lemma sorted_strings_sorted (l : list string) :
  Sorted (fun a b => String.leb a b = true) (sorted_strings l).
Proof.
  unfold sorted_strings, sorted_by.
  induction l as [|x l IH]; simpl; [constructor|]. by apply insert_by_sorted.
Qed.

(** X18: the MEMBERS field of the record a ComplexSV ends with holds the
    ids of the records the object kept, each once per record, in ascending
    order. *)
Theorem members_are_sorted_ids (l : list VariantRecord) (cpx : ComplexSV) :
  __init__ ext l = Return cpx ->
  exists m,
    info (vcf_record cpx) !! "MEMBERS" = Some (ITuple m) /\
    m ≡ₚ map id (records cpx) /\
    Sorted (fun a b => String.leb a b = true) m.
Proof.
  unfold __init__. intros H. bind_inv H. bind_inv H. bind_inv H.
  unfold clean_record in H. bind_inv H. bind_inv H. bind_inv H.
  injection H as <-. cpx_simpl.
  exists (sorted_strings (map id (records a1))). split.
  - destruct (_ && _); [destruct a4|]; record_simpl; reflexivity.
  - split; [apply sorted_by_perm | apply sorted_strings_sorted].
Qed.

End MembersSorted.

Section Settled.
Import complex_sv examples.
Variable ext : Externals.

Lemma settled_intro c t :
  svtype c = Some t -> In t svtypes -> is_Some (cpx_type c) -> settled c.
Proof. intros. exists t. auto. Qed.

Lemma set_unresolved_settled c :
  is_Some (cluster_type c) -> settled (set_unresolved c).
Proof. intros H. exists "UNR". cbn. auto 10. Qed.

Lemma set_cluster_type_typed self self' :
  set_cluster_type self = Return self' -> is_Some (cluster_type self').
Proof.
  unfold set_cluster_type. intros H. bind_inv H. injection H as <-. cbn. eauto.
Qed.

Lemma resolve_inversion_settled self self' :
  resolve_inversion ext self = Return self' -> settled self'.
Proof.
  unfold resolve_inversion. intros H.
  destruct (inversions self) as [|i0 tl]; [discriminate|].
  bind_inv H. bind_inv H. destruct a0 as [FF RR].
  bind_inv H. destruct a0 as [cpx_type_ kept].
  bind_inv H. bind_inv H. injection H as <-. cpx_simpl.
  assert (Hs : exists t, svtype a0 = Some t /\ In t svtypes /\ is_Some (cpx_type a0)).
  { clear E3. crunch E2; cpx_simpl;
      repeat match goal with
             | |- context [if ?c then _ else _] => destruct c
             end;
      eexists; (split; [reflexivity|]); cbn; auto 10. }
  destruct Hs as (t & Ht & Hin & Hc). exists t. auto.
Qed.

Lemma resolve_translocation_settled self self' :
  resolve_translocation ext self = Return self' -> settled self'.
Proof.
  unfold resolve_translocation. intros H.
  bind_inv H. destruct a as [plus minus].
  bind_inv H. destruct a as [armA armB].
  bind_inv H. bind_inv H. destruct a0 as [svtype_ cpx_type_].
  assert (Ht : svtype_ = "INS" \/ svtype_ = "UNR" \/ svtype_ = "CTX")
    by (clear H; crunch E2; tauto).
  clear E2.
  destruct Ht as [-> | [-> | ->]]; cbn [String.eqb Ascii.eqb Bool.eqb] in H;
    crunch H; eexists; cpx_simpl; (split; [reflexivity|]); cbn; eauto 10.
Qed.

Lemma resolve_insertion_settled self self' :
  is_Some (cluster_type self) ->
  resolve_insertion ext self = Return self' -> settled self'.
Proof.
  intros Hct. unfold resolve_insertion. intros H.
  bind_inv H. destruct a as [plus minus]. bind_inv H.
  destruct (String.eqb a "INS_UNCLASSIFIED").
  { injection H as <-. exists "UNR". cbn. eauto 10. }
  bind_inv H. destruct a0 as [[[s1 s2] s3] s4].
  destruct (100 <=? s2 - s1).
  { injection H as <-. exists "UNR". cbn. auto 10. }
  crunch H; eexists; cpx_simpl; (split; [reflexivity|]); cbn;
    (split; [tauto | discriminate]).
Qed.

Lemma report_simple_insertion_settled self self' :
  is_Some (cluster_type self) ->
  report_simple_insertion self = Return self' -> settled self'.
Proof.
  intros Hct. unfold report_simple_insertion. intros H.
  crunch H; try (apply set_unresolved_settled; assumption);
    eexists; cpx_simpl; (split; [reflexivity|]); cbn;
    (split; [tauto | discriminate]).
Qed.

Lemma dispatch_settled other self self' :
  is_Some (cluster_type self) ->
  (forall c c', is_Some (cluster_type c) -> other c = Return c' -> settled c') ->
  dispatch ext other self = Return self' -> settled self'.
Proof.
  intros Hct Hother. unfold dispatch. intros H.
  repeat match type of H with
         | (if ?c then _ else _) = _ => destruct c
         end;
    eauto using resolve_inversion_settled, resolve_translocation_settled,
                resolve_insertion_settled, report_simple_insertion_settled.
Qed.

(** X19: every ComplexSV that is built has an svtype, one of INV, CPX, INS,
    UNR, CTX and DUP, and has a cpx_type whenever its svtype is UNR: the
    loop of [resolve_complex_sv], which reads [cpx.cpx_type] of the
    unresolved objects, always finds it. *)
Theorem built_object_is_settled (l : list VariantRecord) (cpx : ComplexSV) :
  __init__ ext l = Return cpx -> settled cpx.
Proof.
  unfold __init__. intros H. bind_inv H. bind_inv H. bind_inv H.
  assert (Hres : settled a1).
  { unfold resolve in E1. bind_inv E1.
    eapply dispatch_settled; [| | exact E1].
    - eapply set_cluster_type_typed; eassumption.
    - intros c c' _ Hc. bind_inv Hc. bind_inv Hc. bind_inv Hc.
      eapply dispatch_settled; [| | exact Hc].
      + eapply set_cluster_type_typed; eassumption.
      + intros c1 c1' Hct [= <-]. by apply set_unresolved_settled. }
  unfold clean_record in H. bind_inv H. bind_inv H. bind_inv H.
  injection H as <-. exact Hres.
Qed.

End Settled.

Section InitWitnesses.
Import complex_sv examples.

(** The split-read-only breakpoint is dropped, the other one is kept. *)
Lemma sr_filter_keeps_a_record_witness :
  exists self',
    remove_SR_only_breakpoints evidence_ext sr_state = Return self' /\
    records self' = [inv_FF].
Proof.
  destruct (remove_SR_only_breakpoints evidence_ext sr_state) as [e|self'] eqn:H;
    [vm_compute in H; discriminate|].
  pose proof (sr_filter_keeps_a_record evidence_ext sr_state self' H) as (Hne & _).
  exists self'. split; [reflexivity|].
  vm_compute in H. injection H as <-. reflexivity.
Defined.

Lemma members_are_sorted_ids_witness :
  exists cpx m,
    __init__ (demo_ext "") [inv_RR; inv_FF] = Return cpx /\
    info (vcf_record cpx) !! "MEMBERS" = Some (ITuple m) /\
    Sorted (fun a b => String.leb a b = true) m.
Proof.
  destruct (__init__ (demo_ext "") [inv_RR; inv_FF]) as [e|cpx] eqn:H;
    [vm_compute in H; discriminate|].
  destruct (members_are_sorted_ids (demo_ext "") [inv_RR; inv_FF] cpx H)
    as (m & Hm & _ & Hs).
  exists cpx, m. auto.
Defined.

Lemma built_object_is_settled_witness :
  exists cpx, __init__ (demo_ext "") [inv_FF; inv_RR] = Return cpx /\ settled cpx.
Proof.
  destruct (__init__ (demo_ext "") [inv_FF; inv_RR]) as [e|cpx] eqn:H;
    [vm_compute in H; discriminate|].
  exists cpx. split; [reflexivity|].
  exact (built_object_is_settled (demo_ext "") [inv_FF; inv_RR] cpx H).
Defined.

End InitWitnesses.
(** ** More on the loop over the clusters and the final clean-up *)

Section Queue.
Import complex_sv resolve.
Variable ext : Externals.
Variable rext : ResolveExternals.

Lemma queued_ok_mono prefix n m r :
  (n <= m)%nat -> queued_ok rext prefix n r -> queued_ok rext prefix m r.
Proof.
  intros Hle [(Hu & Hc & k & Hk & He) | (k & Hk & Hi)].
  - left. split; [assumption|]. split; [assumption|]. exists k. split; [lia | assumption].
  - right. exists k. split; [lia | assumption].
Qed.

(** The state of the loop is well formed: one suffix drawn per object
    built, and every queued record as [queued_ok] says. *)
Lemma lone_insertion_queue prefix st st' r :
  resolve_lone_insertion ext rext prefix st r = Return st' ->
  n_random st = length (built st) ->
  Forall (queued_ok rext prefix (n_random st)) (cpx_records st) ->
  n_random st' = length (built st') /\
  Forall (queued_ok rext prefix (n_random st')) (cpx_records st').
Proof.
  unfold resolve_lone_insertion. intros H Hn Hq. bind_inv H. injection H as <-.
  cbn [n_random built cpx_records]. split.
  - rewrite length_app. cbn. lia.
  - apply Forall_app. split.
    + eapply Forall_impl; [exact Hq|]. intros x. apply queued_ok_mono. lia.
    + constructor; [|constructor]. right. exists (n_random st). split; [lia|reflexivity].
Qed.

Lemma lone_insertions_queue prefix l st st' :
  foldM (resolve_lone_insertion ext rext prefix) st l = Return st' ->
  n_random st = length (built st) ->
  Forall (queued_ok rext prefix (n_random st)) (cpx_records st) ->
  n_random st' = length (built st') /\
  Forall (queued_ok rext prefix (n_random st')) (cpx_records st').
Proof.
  revert st. induction l as [|r l IH]; intros st H Hn Hq; cbn [foldM] in H.
  - injection H as <-. auto.
  - bind_inv H. destruct (lone_insertion_queue _ _ _ _ E Hn Hq) as [Hn' Hq'].
    eapply IH; eassumption.
Qed.

Lemma cluster_queue prefix msup st st' cluster :
  resolve_cluster ext rext prefix msup st cluster = Return st' ->
  n_random st = length (built st) ->
  Forall (queued_ok rext prefix (n_random st)) (cpx_records st) ->
  n_random st' = length (built st') /\
  Forall (queued_ok rext prefix (n_random st')) (cpx_records st').
Proof.
  unfold resolve_cluster. intros H Hn Hq. bind_inv H. bind_inv H.
  destruct (forallb _ _).
  - eapply lone_insertions_queue; eassumption.
  - bind_inv H.
    assert (Hold : Forall (queued_ok rext prefix (S (n_random st))) (cpx_records st)).
    { eapply Forall_impl; [exact Hq|]. intros x. apply queued_ok_mono. lia. }
    destruct (bool_decide _).
    + bind_inv H. injection H as <-. cbn [n_random built cpx_records]. split.
      * rewrite length_app. cbn. lia.
      * apply Forall_app. split; [assumption|].
        apply List.Forall_forall. intros x Hx. apply in_map_iff in Hx as (r & <- & _).
        left. record_simpl. split; [reflexivity|]. split; [eauto|].
        exists (n_random st). split; [lia | reflexivity].
    + injection H as <-. cbn [n_random built cpx_records]. split.
      * rewrite length_app. cbn. lia.
      * apply Forall_app. split; [assumption|].
        constructor; [|constructor]. right. exists (n_random st).
        split; [lia | reflexivity].
Qed.

(** X20: what the loop over the clusters queues.  One random suffix is
    drawn per object built; every queued record either is a member of an
    unresolved cluster, carrying the UNRESOLVED flag, a CPX_TYPE and an
    EVENT id made of UNRESOLVED_ and one of the suffixes drawn, or has an id
    made of the variant prefix and one of the suffixes drawn. *)
Theorem queued_records_are_labelled prefix msup clusters st :
  resolve_clusters ext rext prefix msup clusters = Return st ->
  n_random st = length (built st) /\
  Forall (queued_ok rext prefix (n_random st)) (cpx_records st).
Proof.
  unfold resolve_clusters.
  assert (G : forall st0,
             foldM (resolve_cluster ext rext prefix msup) st0 clusters = Return st ->
             n_random st0 = length (built st0) ->
             Forall (queued_ok rext prefix (n_random st0)) (cpx_records st0) ->
             n_random st = length (built st) /\
             Forall (queued_ok rext prefix (n_random st)) (cpx_records st)).
  { induction clusters as [|c cs IH]; intros st0 H Hn Hq; cbn [foldM] in H.
    - injection H as <-. auto.
    - bind_inv H. destruct (cluster_queue _ _ _ _ _ E Hn Hq) as [Hn' Hq'].
      eapply IH; eassumption. }
  intros H. apply (G _ H); [reflexivity | constructor].
Qed.

End Queue.

Section CleanUp.
Import complex_sv resolve.

Lemma pop_if_present_info k r :
  info (pop_if_present k r) = delete k (info r).
Proof.
  unfold pop_if_present, info_has. case_bool_decide as Hk; [reflexivity|].
  symmetry. apply delete_id. destruct (info r !! k) eqn:E; [|reflexivity].
  exfalso. apply Hk. eauto.
Qed.

Lemma pop_if_present_fields k r :
  id (pop_if_present k r) = id r /\ chrom (pop_if_present k r) = chrom r /\
  pos (pop_if_present k r) = pos r.
Proof. unfold pop_if_present. destruct (info_has r k); auto. Qed.

Lemma strip_fields_info r r' :
  strip_fields (Some r) = Return r' ->
  id r' = id r /\ chrom r' = chrom r /\ pos r' = pos r /\
  info r' =
    delete "RMSSTD" (delete "CIEND" (delete "CIPOS"
      (if info_has r "CPX_TYPE" && negb (info_has r "UNRESOLVED")
       then delete "STRANDS" (info r) else info r))).
Proof.
  unfold strip_fields. intros H. bind_inv H. injection H as <-.
  rewrite !pop_if_present_info.
  destruct (pop_if_present_fields "RMSSTD"
              (pop_if_present "CIEND" (pop_if_present "CIPOS" a))) as (-> & -> & ->).
  destruct (pop_if_present_fields "CIEND" (pop_if_present "CIPOS" a)) as (-> & -> & ->).
  destruct (pop_if_present_fields "CIPOS" a) as (-> & -> & ->).
  destruct (_ && _).
  - unfold pop_info in E. destruct (info r !! "STRANDS"); [|discriminate].
    injection E as <-. auto.
  - injection E as <-. auto.
Qed.

Lemma is_resolved_test r :
  is_resolved r <-> info_has r "CPX_TYPE" && negb (info_has r "UNRESOLVED") = true.
Proof.
  unfold is_resolved, info_has. rewrite andb_true_iff, negb_true_iff,
    bool_decide_eq_true, bool_decide_eq_false.
  split; intros [H1 H2]; (split; [assumption|]).
  - rewrite H2. intros [? ?]. discriminate.
  - destruct (info r !! "UNRESOLVED"); [exfalso; eauto | reflexivity].
Qed.

(** X21: the final clean-up of a record.  It keeps the id, the contig and
    the position; the record returned has none of CIPOS, CIEND and RMSSTD;
    a resolved complex record (CPX_TYPE without UNRESOLVED) also loses
    STRANDS, any other record keeps it; every other field is kept. *)
Theorem strip_fields_removes (r r' : VariantRecord) :
  strip_fields (Some r) = Return r' ->
  id r' = id r /\ chrom r' = chrom r /\ pos r' = pos r /\
  (forall k, In k stripped_keys -> info r' !! k = None) /\
  (is_resolved r -> info r' !! "STRANDS" = None) /\
  (~ is_resolved r -> info r' !! "STRANDS" = info r !! "STRANDS") /\
  (forall k, ~ In k ("STRANDS" :: stripped_keys) -> info r' !! k = info r !! k).
Proof.
  intros H. apply strip_fields_info in H as (Hid & Hc & Hp & Hi).
  split; [assumption|]. split; [assumption|]. split; [assumption|].
  rewrite Hi. clear Hi. split; [|split; [|split]].
  - intros k [<- | [<- | [<- | []]]]; record_simpl; reflexivity.
  - intros Hr%is_resolved_test. rewrite Hr. record_simpl. reflexivity.
  - intros Hr. destruct (_ && _) eqn:E; [exfalso; by apply Hr, is_resolved_test|].
    record_simpl. reflexivity.
  - intros k Hk. cbn in Hk.
    rewrite !lookup_delete_ne by (intros <-; tauto).
    destruct (_ && _); [|reflexivity].
    rewrite lookup_delete_ne by (intros <-; tauto). reflexivity.
Qed.

(** X22: the clean-up fails on a resolved complex record that has no
    STRANDS, with the KeyError of [info.pop('STRANDS')]; and that is what it
    returns for every resolved record, so that the records [svtk resolve]
    writes for resolved variants cannot pass through the clean-up again. *)
Theorem strip_fields_not_twice (r r' : VariantRecord) :
  is_resolved r ->
  strip_fields (Some r) = Return r' ->
  strip_fields (Some r') = Raise (KeyError "STRANDS").
Proof.
  intros Hr H. apply strip_fields_info in H as (_ & _ & _ & Hi).
  pose proof (proj1 (is_resolved_test r) Hr) as Ht. rewrite Ht in Hi.
  destruct Hr as [[v Hc] Hu].
  assert (Hc' : info r' !! "CPX_TYPE" = Some v).
  { rewrite Hi. record_simpl. assumption. }
  assert (Hu' : info r' !! "UNRESOLVED" = None).
  { rewrite Hi. record_simpl. assumption. }
  assert (Hs' : info r' !! "STRANDS" = None).
  { rewrite Hi. record_simpl. reflexivity. }
  unfold strip_fields.
  rewrite (proj1 (is_resolved_test r')) by (split; [eauto | assumption]).
  unfold pop_info. rewrite Hs'. reflexivity.
Qed.

End CleanUp.

Section WholeRun.
Import complex_sv resolve.
Variable ext : Externals.
Variable rext : ResolveExternals.

Lemma mapM_Return {A B} (f : A -> result B) (l : list A) (out : list B) :
  mapM f l = Return out -> Forall2 (fun x y => f x = Return y) l out.
Proof.
  revert out. induction l as [|x l IH]; intros out H; cbn [mapM] in H.
  - injection H as <-. constructor.
  - bind_inv H. bind_inv H. injection H as <-. constructor; auto.
Qed.

Lemma resolve_complex_sv_unfold vcf prefix msup out :
  resolve_complex_sv ext rext vcf prefix msup = Return out ->
  exists st,
    resolve_clusters ext rext (with_underscore prefix) msup (link_cpx rext vcf)
      = Return st /\
    mapM strip_fields (_merge_records rext vcf (cpx_records st) (cpx_record_ids st))
      = Return out.
Proof.
  unfold resolve_complex_sv. intros H. bind_inv H. exists a. auto.
Qed.

(** X23: an empty file that gives no cluster makes [resolve_complex_sv]
    fail: the merge of nothing yields [None], and the clean-up reads
    [record.info] of it. *)
Theorem empty_file_fails prefix msup :
  link_cpx rext [] = [] ->
  resolve_complex_sv ext rext [] prefix msup = Raise (AttributeError "info").
Proof.
  intros H. unfold resolve_complex_sv. rewrite H. reflexivity.
Qed.

(** X24: what a run that returns has written.  The records are the merged
    stream, cleaned one by one and in its order: as many records, with the
    ids, contigs and positions of the merged ones; their ids are the ids of
    the queue and of the original records that no object consumed. *)
Theorem output_is_the_cleaned_merge vcf prefix msup out :
  resolve_complex_sv ext rext vcf prefix msup = Return out ->
  exists st merged,
    resolve_clusters ext rext (with_underscore prefix) msup (link_cpx rext vcf)
      = Return st /\
    _merge_records rext vcf (cpx_records st) (cpx_record_ids st) = map Some merged /\
    Forall2 (fun r r' => strip_fields (Some r) = Return r') merged out /\
    map id out = map id merged /\ map chrom out = map chrom merged /\
    map pos out = map pos merged /\
    map id out ≡ₚ
      map id (cpx_records st ++
              List.filter (fun r => bool_decide (id r ∉ cpx_record_ids st)) vcf).
Proof.
  intros H. apply resolve_complex_sv_unfold in H as (st & Hst & H).
  destruct (decide (vcf = [] /\ cpx_records st = [])) as [[-> Hq]|Hne].
  { rewrite Hq in H. discriminate H. }
  destruct (merge_records_only rext vcf (cpx_records st) (cpx_record_ids st))
    as [merged E].
  { destruct vcf; [destruct (cpx_records st); [tauto|] |]; auto. }
  exists st, merged. split; [assumption|]. split; [assumption|].
  rewrite E in H. apply mapM_Return in H.
  assert (HF : Forall2 (fun r r' => strip_fields (Some r) = Return r') merged out).
  { clear E. revert out H. induction merged as [|r m IH]; intros out H;
      inversion H; subst; constructor; auto. }
  assert (Hsame : map id out = map id merged /\ map chrom out = map chrom merged /\
                  map pos out = map pos merged).
  { clear -HF. induction HF as [|r r' m o Hr _ (IH1 & IH2 & IH3)]; [auto|].
    apply strip_fields_info in Hr as (Hi & Hc & Hp & _). cbn [map].
    rewrite Hi, Hc, Hp, IH1, IH2, IH3. auto. }
  destruct Hsame as (Hi & Hc & Hp).
  split; [assumption|]. split; [assumption|]. split; [assumption|]. split; [assumption|].
  rewrite Hi.
  pose proof (merge_records_perm rext vcf (cpx_records st) (cpx_record_ids st)) as P.
  rewrite E, records_of_Some in P. by rewrite P.
Qed.

End WholeRun.

Section LoopWitnesses.
Import complex_sv resolve examples.

(** The clusters [[rec_a; rec_c]] (unresolved) and [[rec_b]] (an
    insertion on its own). *)
Lemma queued_records_are_labelled_witness :
  exists st,
    resolve_clusters (demo_ext "") (demo_rext []) "CPX_" 4 [[rec_a; rec_c]; [rec_b]]
      = Return st /\
    n_random st = length (built st) /\
    Forall (queued_ok (demo_rext []) "CPX_" (n_random st)) (cpx_records st).
Proof.
  destruct (resolve_clusters (demo_ext "") (demo_rext []) "CPX_" 4
              [[rec_a; rec_c]; [rec_b]]) as [e|st] eqn:H;
    [vm_compute in H; discriminate|].
  exists st. split; [reflexivity|].
  exact (queued_records_are_labelled (demo_ext "") (demo_rext []) "CPX_" 4
           [[rec_a; rec_c]; [rec_b]] st H).
Defined.

(** A resolved inversion record loses STRANDS in the clean-up. *)
Lemma strip_fields_removes_witness :
  exists r',
    strip_fields (Some (set_info "CPX_TYPE" (IStr "INV") inv_FF)) = Return r' /\
    info r' !! "STRANDS" = None.
Proof.
  destruct (strip_fields (Some (set_info "CPX_TYPE" (IStr "INV") inv_FF)))
    as [e|r'] eqn:H; [vm_compute in H; discriminate|].
  exists r'. split; [reflexivity|].
  destruct (strip_fields_removes _ _ H) as (_ & _ & _ & _ & Hs & _).
  apply Hs. split; [exists (IStr "INV"); reflexivity | reflexivity].
Defined.

Lemma strip_fields_not_twice_witness :
  exists r',
    strip_fields (Some (set_info "CPX_TYPE" (IStr "INV") inv_FF)) = Return r' /\
    strip_fields (Some r') = Raise (KeyError "STRANDS").
Proof.
  destruct (strip_fields (Some (set_info "CPX_TYPE" (IStr "INV") inv_FF)))
    as [e|r'] eqn:H; [vm_compute in H; discriminate|].
  exists r'. split; [reflexivity|].
  apply (strip_fields_not_twice (set_info "CPX_TYPE" (IStr "INV") inv_FF) r');
    [|exact H].
  split; [exists (IStr "INV"); reflexivity | reflexivity].
Defined.

Lemma empty_file_fails_witness :
  resolve_complex_sv (demo_ext "") (demo_rext []) [] "CPX_" 4
    = Raise (AttributeError "info").
Proof.
  apply (empty_file_fails (demo_ext "") (demo_rext []) "CPX_" 4). reflexivity.
Defined.

Lemma output_is_the_cleaned_merge_witness :
  exists out merged,
    resolve_complex_sv (demo_ext "") (demo_rext [[rec_a; rec_c]; [rec_b]])
      [rec_a; rec_b; rec_c] "CPX_" 4 = Return out /\
    Forall2 (fun r r' => strip_fields (Some r) = Return r') merged out /\
    map pos out = map pos merged.
Proof.
  destruct (resolve_complex_sv (demo_ext "") (demo_rext [[rec_a; rec_c]; [rec_b]])
              [rec_a; rec_b; rec_c] "CPX_" 4) as [e|out] eqn:H;
    [vm_compute in H; discriminate|].
  destruct (output_is_the_cleaned_merge (demo_ext "")
              (demo_rext [[rec_a; rec_c]; [rec_b]]) [rec_a; rec_b; rec_c] "CPX_" 4 out H)
    as (st & merged & _ & _ & HF & _ & _ & Hp & _).
  exists out, merged. auto.
Defined.

End LoopWitnesses.
(** ** Re-running the reconciliation *)

Section Rerun.
Import complex_sv resolve.
Variable ext : Externals.
Variable rext : ResolveExternals.

(** The loop queues a record whenever it consumes an id: with an empty
    queue, nothing is consumed. *)
Lemma lone_insertion_queues prefix st st' r :
  resolve_lone_insertion ext rext prefix st r = Return st' -> cpx_records st' <> [].
Proof.
  unfold resolve_lone_insertion. intros H. bind_inv H. injection H as <-.
  cbn [cpx_records]. by destruct (cpx_records st).
Qed.

Lemma lone_insertions_queue_inv prefix l st st' :
  foldM (resolve_lone_insertion ext rext prefix) st l = Return st' ->
  (cpx_records st = [] -> cpx_record_ids st = ∅) ->
  cpx_records st' = [] -> cpx_record_ids st' = ∅.
Proof.
  revert st. induction l as [|r l IH]; intros st H Hinv; cbn [foldM] in H.
  - injection H as <-. exact Hinv.
  - bind_inv H. apply (IH _ H). intros Hnil.
    by apply lone_insertion_queues in E.
Qed.

Lemma cluster_queue_inv prefix msup st st' cluster :
  resolve_cluster ext rext prefix msup st cluster = Return st' ->
  (cpx_records st = [] -> cpx_record_ids st = ∅) ->
  cpx_records st' = [] -> cpx_record_ids st' = ∅.
Proof.
  unfold resolve_cluster. intros H Hinv. bind_inv H. bind_inv H.
  destruct (forallb _ _).
  - eapply lone_insertions_queue_inv; eassumption.
  - bind_inv H. destruct (bool_decide _).
    + bind_inv H. injection H as <-. cbn [cpx_records cpx_record_ids].
      intros Hnil. apply app_eq_nil in Hnil as [Hq Ht].
      apply map_eq_nil in Ht. unfold record_ids. rewrite Ht, (Hinv Hq).
      cbn. apply (left_id_L ∅ (∪)).
    + injection H as <-. cbn [cpx_records]. intros Hnil.
      by destruct (cpx_records st).
Qed.

Lemma loop_queue_inv prefix msup clusters st :
  resolve_clusters ext rext prefix msup clusters = Return st ->
  cpx_records st = [] -> cpx_record_ids st = ∅.
Proof.
  unfold resolve_clusters.
  assert (G : forall st0,
             foldM (resolve_cluster ext rext prefix msup) st0 clusters = Return st ->
             (cpx_records st0 = [] -> cpx_record_ids st0 = ∅) ->
             cpx_records st = [] -> cpx_record_ids st = ∅).
  { induction clusters as [|c cs IH]; intros st0 H Hinv; cbn [foldM] in H.
    - injection H as <-. exact Hinv.
    - bind_inv H. apply (IH _ H). eapply cluster_queue_inv; eassumption. }
  intros H. apply (G _ H). reflexivity.
Qed.

(** So the merge that follows the loop never emits the empty stream. *)
Lemma run_output_nonempty prefix msup clusters st vcf :
  resolve_clusters ext rext prefix msup clusters = Return st ->
  _merge_records rext vcf (cpx_records st) (cpx_record_ids st) <> [].
Proof.
  intros H Hnil.
  pose proof (merge_records_perm rext vcf (cpx_records st) (cpx_record_ids st)) as P.
  rewrite Hnil in P. cbn in P. symmetry in P. apply Permutation_nil_r in P.
  apply app_eq_nil in P as [Hq Hv].
  pose proof (loop_queue_inv _ _ _ _ H Hq) as Hids.
  rewrite Hq, Hids in Hnil.
  destruct vcf as [|r vcf]; [discriminate Hnil|].
  rewrite merge_no_cpx in Hnil by discriminate.
  rewrite filter_nothing_consumed in Hnil. discriminate Hnil.
Qed.

Lemma resolve_complex_sv_reconciles vcf prefix msup :
  resolve_complex_sv ext rext vcf prefix msup =
  st ← resolve_clusters ext rext (with_underscore prefix) msup (link_cpx rext vcf);
  reconcile rext vcf (cpx_records st) (cpx_record_ids st).
Proof. reflexivity. Qed.

Lemma pop_if_present_absent k r : info r !! k = None -> pop_if_present k r = r.
Proof.
  intros H. unfold pop_if_present, info_has.
  rewrite bool_decide_false; [reflexivity|]. rewrite H. by intros [? ?].
Qed.

(** The clean-up returns a record as it is when the record has none of the
    fields it removes and is not a resolved complex record. *)
Lemma strip_fields_clean r :
  ~ is_resolved r ->
  (forall k, In k stripped_keys -> info r !! k = None) ->
  strip_fields (Some r) = Return r.
Proof.
  intros Hr Hk. unfold strip_fields.
  destruct (info_has r "CPX_TYPE" && negb (info_has r "UNRESOLVED")) eqn:E;
    [exfalso; by apply Hr, is_resolved_test|].
  cbn [mbind result_bind].
  rewrite (pop_if_present_absent "CIPOS") by (apply Hk; cbn; tauto).
  rewrite (pop_if_present_absent "CIEND") by (apply Hk; cbn; tauto).
  rewrite (pop_if_present_absent "RMSSTD") by (apply Hk; cbn; tauto).
  reflexivity.
Qed.

Lemma strip_fields_output_keys r0 r :
  strip_fields (Some r0) = Return r ->
  forall k, In k stripped_keys -> info r !! k = None.
Proof.
  intros H%strip_fields_info. destruct H as (_ & _ & _ & ->).
  intros k [<- | [<- | [<- | []]]]; record_simpl; reflexivity.
Qed.

Lemma mapM_strip_clean (l : list VariantRecord) :
  Forall (fun r => ~ is_resolved r) l ->
  Forall (fun r => forall k, In k stripped_keys -> info r !! k = None) l ->
  mapM strip_fields (map Some l) = Return l.
Proof.
  induction l as [|r l IH]; intros Hr Hk; [reflexivity|].
  inversion Hr; subst. inversion Hk; subst.
  cbn [map mapM]. rewrite strip_fields_clean by assumption.
  cbn [mbind result_bind]. rewrite IH by assumption. reflexivity.
Qed.

(** C9, as amended: for every stream the reconciliation of a run of
    [resolve_complex_sv] emits (a stream that is never empty), merging it
    again with an empty queue and an empty consumed set emits the same
    values in the same order, before the clean-up as after it; and the
    whole reconciliation, clean-up included, run again on the records
    written gives these records back when none of them is a resolved
    complex record. *)
Theorem reconciliation_is_idempotent
    (vcf : list VariantRecord) (variant_prefix : string) (min_rescan_support : Z)
    (clusters : list (list VariantRecord)) (st : LoopState) :
  resolve_clusters ext rext variant_prefix min_rescan_support clusters = Return st ->
  let out := _merge_records rext vcf (cpx_records st) (cpx_record_ids st) in
  out <> [] /\
  _merge_records rext (as_source out) [] ∅ = out /\
  forall written,
    reconcile rext vcf (cpx_records st) (cpx_record_ids st) = Return written ->
    _merge_records rext written [] ∅ = map Some written /\
    (Forall (fun r => ~ is_resolved r) written ->
     reconcile rext written [] ∅ = Return written).
Proof.
  intros H out.
  assert (Hne : out <> []) by (eapply run_output_nonempty; exact H).
  split; [exact Hne|]. split; [apply merge_rerun_back; exact Hne|].
  intros written Hw. unfold reconcile in Hw. fold out in Hw.
  apply mapM_Return in Hw.
  assert (Hwne : written <> []).
  { intros ->. inversion Hw as [Hout|]. congruence. }
  assert (Hmerge : _merge_records rext written [] ∅ = map Some written).
  { destruct written as [|r written]; [congruence|].
    rewrite merge_no_cpx by discriminate. by rewrite filter_nothing_consumed. }
  split; [exact Hmerge|].
  intros Hres. unfold reconcile. rewrite Hmerge.
  apply mapM_strip_clean; [exact Hres|].
  clear -Hw. induction Hw as [|o r l l' Ho _ IH]; constructor; [|exact IH].
  destruct o as [r0|]; [|discriminate Ho].
  eapply strip_fields_output_keys; exact Ho.
Qed.

End Rerun.

Section RerunWitness.
Import complex_sv resolve examples.

(** C9, as stated, fails.  The run on the inversion pair [inv_FF],
    [inv_RR] writes one resolved inversion record, without STRANDS; the
    reconciliation run again on that record, with an empty queue and an
    empty consumed set, does not emit it: the clean-up fails on the
    STRANDS it removes from resolved records. *)
Lemma rerun_fails_on_resolved_record :
  exists written,
    resolve_complex_sv (demo_ext "") (demo_rext [[inv_FF; inv_RR]])
      [inv_FF; inv_RR] "CPX_" 4 = Return written /\
    reconcile (demo_rext []) written [] ∅ = Raise (KeyError "STRANDS").
Proof. eexists. split; vm_compute; reflexivity. Qed.

(** The run on [rec_a], [rec_b], [rec_c] with the clusters [[rec_a; rec_c]]
    and [[rec_b]]: none of the records written is a resolved complex record,
    and the reconciliation run again gives them back. *)
Lemma reconciliation_is_idempotent_witness :
  exists st written,
    resolve_clusters (demo_ext "") (demo_rext []) "CPX_" 4 [[rec_a; rec_c]; [rec_b]]
      = Return st /\
    reconcile (demo_rext []) [rec_a; rec_b; rec_c] (cpx_records st) (cpx_record_ids st)
      = Return written /\
    reconcile (demo_rext []) written [] ∅ = Return written.
Proof.
  destruct (resolve_clusters (demo_ext "") (demo_rext []) "CPX_" 4
              [[rec_a; rec_c]; [rec_b]]) as [e|st] eqn:H;
    [vm_compute in H; discriminate|].
  destruct (reconcile (demo_rext []) [rec_a; rec_b; rec_c]
              (cpx_records st) (cpx_record_ids st)) as [e|written] eqn:Hw;
    [vm_compute in H; injection H as <-; vm_compute in Hw; discriminate|].
  exists st, written. split; [reflexivity|]. split; [exact Hw|].
  destruct (reconciliation_is_idempotent (demo_ext "") (demo_rext [])
              [rec_a; rec_b; rec_c] "CPX_" 4 [[rec_a; rec_c]; [rec_b]] st H)
    as (_ & _ & Hrerun).
  apply (Hrerun written Hw).
  vm_compute in H. injection H as <-. vm_compute in Hw. injection Hw as <-.
  repeat constructor; intros [[v Hv] Hu]; vm_compute in Hv, Hu; discriminate.
Defined.

End RerunWitness.
(** ** Where the consumed ids are in the output *)

Section QueueGroups.
Import complex_sv resolve.
Variable ext : Externals.
Variable rext : ResolveExternals.

Lemma queue_groups_extend st groups cpx g ids n :
  queue_groups st groups -> emitted_as cpx g ->
  queue_groups (mkLoop (cpx_records st ++ g) ids n (built st ++ [cpx])) (groups ++ [g]).
Proof.
  intros [Hq HF] Hg. split; cbn [cpx_records built].
  - rewrite concat_app, Hq. cbn. by rewrite app_nil_r.
  - apply Forall2_app; [exact HF | constructor; [exact Hg | constructor]].
Qed.

Lemma lone_insertions_groups prefix l st st' groups :
  foldM (resolve_lone_insertion ext rext prefix) st l = Return st' ->
  queue_groups st groups -> exists groups', queue_groups st' groups'.
Proof.
  revert st groups. induction l as [|r l IH]; intros st groups H Hg; cbn [foldM] in H.
  - injection H as <-. eauto.
  - bind_inv H. unfold resolve_lone_insertion in E. bind_inv E. injection E as <-.
    eapply IH; [exact H|]. apply queue_groups_extend; [exact Hg|].
    left. eauto.
Qed.

Lemma cluster_groups prefix msup st st' cluster groups :
  resolve_cluster ext rext prefix msup st cluster = Return st' ->
  queue_groups st groups -> exists groups', queue_groups st' groups'.
Proof.
  unfold resolve_cluster. intros H Hg. bind_inv H. bind_inv H.
  destruct (forallb _ _).
  - eapply lone_insertions_groups; eassumption.
  - bind_inv H. destruct (bool_decide _).
    + bind_inv H. injection H as <-. eexists.
      apply queue_groups_extend; [exact Hg|]. right. eauto.
    + injection H as <-. eexists.
      apply queue_groups_extend; [exact Hg|]. left. eauto.
Qed.

Lemma loop_groups prefix msup clusters st :
  resolve_clusters ext rext prefix msup clusters = Return st ->
  exists groups, queue_groups st groups.
Proof.
  unfold resolve_clusters.
  assert (G : forall st0 groups0,
             foldM (resolve_cluster ext rext prefix msup) st0 clusters = Return st ->
             queue_groups st0 groups0 -> exists groups, queue_groups st groups).
  { induction clusters as [|c cs IH]; intros st0 groups0 H Hg; cbn [foldM] in H.
    - injection H as <-. eauto.
    - bind_inv H. destruct (cluster_groups _ _ _ _ _ _ E Hg) as [g1 Hg1].
      eapply IH; eassumption. }
  intros H. apply (G _ [] H). split; [reflexivity | constructor].
Qed.

End QueueGroups.

Section KeptRecords.
Import complex_sv.
Variable ext : Externals.

Lemma resolve_inversion_records self self' :
  resolve_inversion ext self = Return self' -> records self' <> [].
Proof.
  unfold resolve_inversion. intros H.
  destruct (inversions self) as [|i0 tl] eqn:Ei; [discriminate|].
  bind_inv H. bind_inv H. destruct a0 as [FF RR].
  bind_inv H. destruct a0 as [cpx_type_ kept].
  bind_inv H. bind_inv H. injection H as <-.
  assert (Hsame : records a0 = [FF; RR] ++ kept).
  { clear E3. crunch E2; cpx_simpl; reflexivity. }
  cpx_simpl. rewrite Hsame. discriminate.
Qed.

Lemma remove_SR_only_records self self' :
  remove_SR_only_breakpoints ext self = Return self' -> records self' <> [].
Proof.
  unfold remove_SR_only_breakpoints. intros H.
  destruct (records self) as [|r0 rest] eqn:Er; [discriminate|]. rewrite <- Er in *.
  assert (Hne : records self <> []) by (rewrite Er; discriminate).
  destruct (bool_decide _); [|by injection H as <-].
  destruct (Z.ltb_spec 0 (Z.of_nat (length
              (List.filter (fun r => negb (_is_SR_only r)) (records self)))))
    as [Hlt|_]; injection H as <-; [|exact Hne].
  cpx_simpl. intros Hnil. rewrite Hnil in Hlt. simpl in Hlt. lia.
Qed.

Lemma organize_records_records self self' :
  organize_records self = Return self' -> records self' = records self.
Proof.
  unfold organize_records. intros H.
  bind_inv H. bind_inv H. bind_inv H. bind_inv H. bind_inv H.
  injection H as <-. reflexivity.
Qed.

Lemma dispatch_records other self self' :
  (forall c', other self = Return c' -> records c' <> []) ->
  dispatch ext other self = Return self' ->
  records self <> [] -> records self' <> [].
Proof.
  intros Hother. unfold dispatch. intros H Hne.
  repeat match type of H with
         | (if ?c then _ else _) = _ => destruct c
         end.
  - eapply resolve_inversion_records; exact H.
  - apply resolve_translocation_same in H as (-> & _). exact Hne.
  - apply resolve_insertion_same in H as (-> & _). exact Hne.
  - apply report_simple_insertion_same in H as (-> & _). exact Hne.
  - eapply Hother; exact H.
Qed.

(** An object that is built holds at least one record. *)
Lemma init_records_nonempty l cpx :
  __init__ ext l = Return cpx -> records cpx <> [].
Proof.
  unfold __init__. intros H. bind_inv H. bind_inv H. bind_inv H.
  apply clean_record_same in H as [(-> & _) _].
  apply organize_records_records in E. cbn [records] in E.
  assert (Hne : records a0 <> []).
  { unfold make_record in E0. destruct (records a) eqn:Er; [discriminate|].
    bind_inv E0. injection E0 as <-. cpx_simpl. rewrite Er. discriminate. }
  unfold resolve in E1. bind_inv E1.
  match goal with
  | Hs : set_cluster_type a0 = Return _ |- _ =>
      apply set_cluster_type_same in Hs as (R & _)
  end.
  eapply dispatch_records; [| exact E1 | by rewrite R].
  intros c' Hc. bind_inv Hc. bind_inv Hc. bind_inv Hc.
  repeat match goal with
         | Hs : remove_SR_only_breakpoints ext _ = Return _ |- _ =>
             apply remove_SR_only_records in Hs
         | Hs : organize_records _ = Return _ |- _ =>
             apply organize_records_records in Hs
         | Hs : set_cluster_type _ = Return _ |- _ =>
             apply set_cluster_type_same in Hs as (? & _)
         end.
  assert (Hne5 : records a5 <> []) by (rewrite H, E3; exact E2).
  eapply dispatch_records; [| exact Hc | exact Hne5].
  intros c1' [= <-]. exact Hne5.
Qed.

End KeptRecords.

Section ListsMember.

Lemma lists_member_set_id i n r : lists_member i (set_id n r) = lists_member i r.
Proof. reflexivity. Qed.

Lemma lists_member_set_info i k v r :
  k <> "MEMBERS" -> lists_member i (set_info k v r) = lists_member i r.
Proof.
  intros Hk. unfold lists_member. rewrite info_set_info.
  by rewrite lookup_insert_ne.
Qed.

Lemma lists_member_members i cpx :
  lists_member i (complex_sv.vcf_record cpx) = true <-> In i (complex_sv.members cpx).
Proof.
  unfold lists_member, complex_sv.members.
  destruct (info (complex_sv.vcf_record cpx) !! "MEMBERS") as [[]|];
    try (split; [discriminate | intros []]).
  rewrite bool_decide_eq_true. apply list_elem_of_In.
Qed.

(** The clean-up keeps the MEMBERS, the id and the flag of a record. *)
Lemma strip_fields_keeps r r' :
  resolve.strip_fields (Some r) = Return r' ->
  id r' = id r /\
  (forall i, lists_member i r' = lists_member i r) /\
  (flagged_unresolved r -> flagged_unresolved r').
Proof.
  intros H%strip_fields_info. destruct H as (Hid & _ & _ & Hi).
  split; [exact Hid|].
  assert (Hk : forall k, k <> "STRANDS" -> k <> "CIPOS" -> k <> "CIEND" ->
                         k <> "RMSSTD" -> info r' !! k = info r !! k).
  { intros k H1 H2 H3 H4. rewrite Hi.
    rewrite !lookup_delete_ne by congruence.
    destruct (_ && _); [by rewrite lookup_delete_ne by congruence | reflexivity]. }
  split.
  - intros i. unfold lists_member. by rewrite Hk by discriminate.
  - intros [Hu He]. unfold flagged_unresolved. by rewrite !Hk by discriminate.
Qed.

Lemma filter_length_Permutation {A} (p : A -> bool) (l l' : list A) :
  l ≡ₚ l' -> length (List.filter p l) = length (List.filter p l').
Proof.
  induction 1 as [|x l l' _ IH|x y l|l1 l2 l3 _ IH1 _ IH2]; cbn [List.filter].
  - reflexivity.
  - destruct (p x); cbn; congruence.
  - destruct (p x), (p y); reflexivity.
  - congruence.
Qed.

Lemma filter_none {A} (p : A -> bool) (l : list A) :
  (forall x, In x l -> p x = false) -> List.filter p l = [].
Proof.
  induction l as [|x l IH]; intros H; [reflexivity|]. cbn [List.filter].
  rewrite (H x) by (left; reflexivity). apply IH. intros y Hy. apply H. by right.
Qed.

(** When all the groups but one hold nothing that passes [p], what passes
    in their concatenation is what passes in that group. *)
Lemma filter_concat_only {A} (p : A -> bool) (groups : list (list A)) k g :
  groups !! k = Some g ->
  (forall j g', groups !! j = Some g' -> j <> k -> List.filter p g' = []) ->
  List.filter p (concat groups) = List.filter p g.
Proof.
  revert k. induction groups as [|g0 groups IH]; intros k Hk Hother; [discriminate|].
  cbn [concat]. rewrite List.filter_app. destruct k as [|k]; cbn in Hk.
  - injection Hk as ->.
    assert (Hrest : List.filter p (concat groups) = []).
    { apply filter_none. intros x Hx. apply in_concat in Hx as (g' & Hg' & Hx).
      apply list_elem_of_In, list_elem_of_lookup in Hg' as [j Hj].
      assert (Hnil : List.filter p g' = []) by (apply (Hother (S j)); [exact Hj | lia]).
      destruct (p x) eqn:Hp; [|reflexivity].
      assert (In x (List.filter p g')) by (apply filter_In; auto).
      rewrite Hnil in *. contradiction. }
    rewrite Hrest. apply app_nil_r.
  - rewrite (Hother 0%nat g0) by (first [reflexivity | lia]). cbn [app].
    apply (IH k Hk). intros j g' Hj Hjk. apply (Hother (S j)); [exact Hj | lia].
Qed.

(** The filtered image of a list under a map that keeps [p]. *)
Lemma filter_length_Forall2 {A} (R : A -> A -> Prop) (p : A -> bool) (l l' : list A) :
  (forall x y, R x y -> p y = p x) -> Forall2 R l l' ->
  length (List.filter p l') = length (List.filter p l).
Proof.
  intros Hp. induction 1 as [|x y l l' Hxy _ IH]; [reflexivity|].
  cbn [List.filter]. rewrite (Hp _ _ Hxy). destruct (p x); cbn; congruence.
Qed.

End ListsMember.

Section ConsumedIds.
Import complex_sv resolve.
Variable ext : Externals.
Variable rext : ResolveExternals.
Hypothesis Hcnv : keeps_given_cnvs ext.

(** *** What is consumed *)

Lemma lone_insertion_consumes prefix st st' r :
  resolve_lone_insertion ext rext prefix st r = Return st' ->
  cpx_record_ids st ⊆ cpx_record_ids st' /\ id r ∈ cpx_record_ids st'.
Proof.
  unfold resolve_lone_insertion. intros H. bind_inv H. injection H as <-.
  cbn [cpx_record_ids]. split; [apply union_subseteq_l|].
  pose proof (init_records_nonempty _ _ _ E) as Hne.
  destruct (init_members ext Hcnv _ _ E) as [Hsub _].
  destruct (records a) as [|x l] eqn:Er; [congruence|].
  assert (Hx : x = r).
  { destruct (Hsub x) as [Hx | []]; [left; reflexivity | by symmetry]. }
  apply elem_of_union. right. apply elem_of_list_to_set.
  unfold record_ids. rewrite ?Er, Hx. cbn. apply list_elem_of_here.
Qed.

Lemma lone_insertions_consume prefix l st st' :
  foldM (resolve_lone_insertion ext rext prefix) st l = Return st' ->
  cpx_record_ids st ⊆ cpx_record_ids st' /\
  forall r, In r l -> id r ∈ cpx_record_ids st'.
Proof.
  revert st. induction l as [|r l IH]; intros st H; cbn [foldM] in H.
  - injection H as <-. split; [reflexivity | intros r []].
  - bind_inv H. destruct (lone_insertion_consumes _ _ _ _ E) as [Hsub Hr].
    destruct (IH _ H) as [Hsub' Hl]. split; [by etrans|].
    intros x [<- | Hx]; [by apply Hsub' | auto].
Qed.

Lemma all_insertions_test cluster tests :
  mapM (svtype_is "INS") cluster = Return tests ->
  all_insertions cluster -> forallb (fun b => b) tests = true.
Proof.
  revert tests. induction cluster as [|r l IH]; intros tests H Hall; cbn [mapM] in H.
  - injection H as <-. reflexivity.
  - bind_inv H. bind_inv H. injection H as <-.
    inversion Hall as [|? ? Hr Hl]; subst. cbn [forallb].
    rewrite (IH _ E0 Hl), andb_true_r.
    unfold svtype_is in E. bind_inv E. injection E as <-.
    apply info_get_Return in E1. apply bool_decide_eq_true. congruence.
Qed.

Lemma cluster_consumes prefix msup st st' cluster :
  resolve_cluster ext rext prefix msup st cluster = Return st' ->
  cpx_record_ids st ⊆ cpx_record_ids st' /\
  forall rescued, rescue_cluster rext msup cluster = Return rescued ->
    all_insertions rescued ->
    forall r, In r rescued -> id r ∈ cpx_record_ids st'.
Proof.
  unfold resolve_cluster. intros H. bind_inv H. bind_inv H.
  destruct (forallb (fun b => b) a0) eqn:Hall.
  - destruct (lone_insertions_consume _ _ _ _ H) as [Hsub Hl].
    split; [exact Hsub|]. intros rescued Hres _.
    rewrite E in Hres. injection Hres as <-. exact Hl.
  - assert (Hsub : cpx_record_ids st ⊆ cpx_record_ids st').
    { bind_inv H. destruct (bool_decide _).
      - bind_inv H. injection H as <-. cbn [cpx_record_ids]. apply union_subseteq_l.
      - injection H as <-. cbn [cpx_record_ids]. apply union_subseteq_l. }
    split; [exact Hsub|]. intros rescued Hres Hins.
    rewrite E in Hres. injection Hres as <-.
    rewrite (all_insertions_test _ _ E0 Hins) in Hall. discriminate.
Qed.

Lemma clusters_consume prefix msup clusters st st' :
  foldM (resolve_cluster ext rext prefix msup) st clusters = Return st' ->
  cpx_record_ids st ⊆ cpx_record_ids st' /\
  forall rescued, mapM (rescue_cluster rext msup) clusters = Return rescued ->
    forall c, In c rescued -> all_insertions c ->
    forall r, In r c -> id r ∈ cpx_record_ids st'.
Proof.
  revert st. induction clusters as [|c cs IH]; intros st H; cbn [foldM] in H.
  - injection H as <-. split; [reflexivity|]. intros rescued [= <-] c [].
  - bind_inv H. destruct (cluster_consumes _ _ _ _ _ E) as [Hsub Hc].
    destruct (IH _ H) as [Hsub' Hcs]. split; [by etrans|].
    intros rescued Hres c' Hc' Hins r Hr. cbn [mapM] in Hres.
    bind_inv Hres. bind_inv Hres. injection Hres as <-.
    destruct Hc' as [<- | Hc'].
    + apply Hsub'. eapply Hc; eassumption.
    + eapply Hcs; eassumption.
Qed.

(** *** Where a consumed id is in the queue *)

(** The group queued for an object lists an id of the object once, when the
    group is the record of the object, or not at all, when it is made of
    the tagged records, one of which has the id; and it lists no id from
    outside the cluster. *)
Lemma object_group_lists i cpx g u :
  unit_ok cpx u -> emitted_as cpx g ->
  (forall r, In r u -> lists_member i r = false) ->
  (In i (map id (records cpx)) ->
   length (List.filter (lists_member i) g) = 1%nat \/
   (List.filter (lists_member i) g = [] /\
    exists r, In r g /\ id r = i /\ flagged_unresolved r)) /\
  (~ In i (map id u) -> List.filter (lists_member i) g = []).
Proof.
  intros [Hsub Hmem] Hg Hfresh.
  assert (Hlist : lists_member i (vcf_record cpx) = true <-> In i (map id (records cpx))).
  { rewrite lists_member_members, Hmem. apply In_sorted_strings. }
  destruct Hg as [(n & ->) | (vid & t & ->)].
  - split.
    + intros Hi. left. cbn [List.filter]. rewrite lists_member_set_id.
      rewrite (proj2 Hlist Hi). reflexivity.
    + intros Hi. cbn [List.filter]. rewrite lists_member_set_id.
      destruct (lists_member i (vcf_record cpx)) eqn:E; [|reflexivity].
      exfalso. apply Hi. pose proof (proj1 Hlist eq_refl) as E'.
      apply in_map_iff in E' as (r & <- & Hr). apply in_map. auto.
  - assert (Hnone : List.filter (lists_member i)
                      (map (fun record =>
                              set_info "UNRESOLVED" IFlag
                                (set_info "CPX_TYPE" (IStr t)
                                   (set_info "EVENT" (IStr vid) record)))
                           (records cpx)) = []).
    { apply filter_none. intros x Hx. apply in_map_iff in Hx as (r & <- & Hr).
      rewrite !lists_member_set_info by discriminate. auto. }
    split; [|intros _; exact Hnone].
    intros Hi. right. split; [exact Hnone|].
    apply in_map_iff in Hi as (r & <- & Hr).
    eexists. split; [apply in_map; exact Hr|].
    split; [reflexivity|]. split; record_simpl; eauto.
Qed.

Lemma consumed_id_in_queue units groups st i :
  loop_inv st units -> queue_groups st groups ->
  NoDup (map id (concat units)) ->
  (In i (map id (concat units)) ->
   forall r, In r (concat units) -> lists_member i r = false) ->
  i ∈ cpx_record_ids st ->
  In i (map id (concat units)) /\
  (length (List.filter (lists_member i) (cpx_records st)) = 1%nat \/
   (List.filter (lists_member i) (cpx_records st) = [] /\
    exists r, In r (cpx_records st) /\ id r = i /\ flagged_unresolved r)).
Proof.
  intros [HF Hids] [Hq HG] Hnd Hfresh Hi.
  apply Hids in Hi as (cpx & Hcpx & Hi).
  apply list_elem_of_In, list_elem_of_lookup in Hcpx as [k Hk].
  destruct (Forall2_lookup_l _ _ _ _ _ HF Hk) as (u & Hu & Hunit).
  destruct (Forall2_lookup_l _ _ _ _ _ HG Hk) as (g & Hg & Hemit).
  assert (Hin : forall j v, units !! j = Some v -> forall r, In r v -> In r (concat units)).
  { intros j v Hj r Hr. apply in_concat. exists v. split; [|exact Hr].
    apply list_elem_of_In. eapply list_elem_of_lookup_2. exact Hj. }
  assert (Hiu : In i (map id u)).
  { apply in_map_iff in Hi as (r & <- & Hr). apply in_map. by apply Hunit. }
  assert (Hic : In i (map id (concat units))).
  { apply in_map_iff in Hiu as (r & <- & Hr). apply in_map. eauto. }
  specialize (Hfresh Hic).
  split; [exact Hic|].
  assert (Hall : List.filter (lists_member i) (cpx_records st)
                 = List.filter (lists_member i) g).
  { rewrite Hq. apply (filter_concat_only _ _ k g Hg).
    intros j g' Hj Hjk.
    destruct (Forall2_lookup_r _ _ _ _ _ HG Hj) as (cpx' & Hcpx' & Hemit').
    destruct (Forall2_lookup_l _ _ _ _ _ HF Hcpx') as (u' & Hu' & Hunit').
    apply (object_group_lists i cpx' g' u' Hunit' Hemit'); [eauto|].
    intros Hiu'. apply Hjk. eapply group_of_id_unique; eassumption. }
  rewrite Hall.
  destruct (proj1 (object_group_lists i cpx g u Hunit Hemit ltac:(eauto)) Hi)
    as [Hone | (Hnil & r & Hr & Hid & Hflag)]; [left; exact Hone|].
  right. split; [exact Hnil|]. exists r. split; [|auto].
  rewrite Hq. apply in_concat. exists g. split; [|exact Hr].
  apply list_elem_of_In. eapply list_elem_of_lookup_2. exact Hg.
Qed.

End ConsumedIds.

Section ConsumedIdsClaim.
Import complex_sv resolve.
Variable ext : Externals.
Variable rext : ResolveExternals.
Hypothesis Hcnv : keeps_given_cnvs ext.

(** C1, as amended: in every run of [resolve_complex_sv] that returns, on
    clusters with distinct ids that no input record lists among its MEMBERS
    already, each consumed id is the id of a clustered record and is listed
    in the MEMBERS of exactly one record of the output, or of none when its
    cluster was left unresolved: the output then holds a record with that
    id, flagged UNRESOLVED and tagged with its event.  No consumed id is
    listed by two records of the output, and every record of a cluster of
    insertions is consumed. *)
Theorem consumed_ids_in_the_output
    (vcf : list VariantRecord) (variant_prefix : string) (min_rescan_support : Z)
    (out : list VariantRecord) :
  (forall rescued,
      mapM (rescue_cluster rext min_rescan_support) (link_cpx rext vcf) = Return rescued ->
      fresh_clusters vcf rescued) ->
  resolve_complex_sv ext rext vcf variant_prefix min_rescan_support = Return out ->
  exists st rescued,
    resolve_clusters ext rext (with_underscore variant_prefix) min_rescan_support
      (link_cpx rext vcf) = Return st /\
    mapM (rescue_cluster rext min_rescan_support) (link_cpx rext vcf) = Return rescued /\
    (forall c r, In c rescued -> all_insertions c -> In r c ->
                 id r ∈ cpx_record_ids st) /\
    forall i, i ∈ cpx_record_ids st ->
      In i (map id (concat rescued)) /\
      (length (List.filter (lists_member i) out) = 1%nat \/
       (length (List.filter (lists_member i) out) = 0%nat /\
        exists r, In r out /\ id r = i /\ flagged_unresolved r)).
Proof.
  intros Hfresh Hrun.
  apply resolve_complex_sv_unfold in Hrun as (st & Hst & Hout).
  destruct (clusters_inv ext rext Hcnv _ _ _ _ _ [] Hst (loop_inv_init ext Hcnv))
    as (rescued & units & Hres & Hconcat & Hinv).
  cbn [app] in Hinv.
  destruct (loop_groups _ _ _ _ _ _ Hst) as [groups Hgroups].
  destruct (Hfresh _ Hres) as [Hnd Hnew].
  exists st, rescued. split; [exact Hst|]. split; [exact Hres|]. split.
  { intros c r Hc Hins Hr.
    destruct (clusters_consume ext rext Hcnv _ _ _ _ _ Hst) as [_ Hcons].
    eapply Hcons; eassumption. }
  intros i Hi.
  destruct (consumed_id_in_queue units groups st i Hinv Hgroups) as [Hiu Hqueue].
  { by rewrite Hconcat. }
  { intros Hic r Hr. apply Hnew.
    - apply in_or_app. right. by rewrite <- Hconcat.
    - by rewrite <- Hconcat. }
  { exact Hi. }
  rewrite Hconcat in Hiu. split; [exact Hiu|].
  (* the merge and the clean-up *)
  destruct (decide (vcf = [] /\ cpx_records st = [])) as [[-> Hq]|Hne].
  { rewrite Hq in Hout. discriminate Hout. }
  destruct (merge_records_only rext vcf (cpx_records st) (cpx_record_ids st))
    as [merged E].
  { destruct vcf; [destruct (cpx_records st); [tauto|] |]; auto. }
  rewrite E in Hout. apply mapM_Return in Hout.
  assert (HF : Forall2 (fun r r' => strip_fields (Some r) = Return r') merged out).
  { clear E. revert out Hout. induction merged as [|r m IH]; intros out Hout;
      inversion Hout; subst; constructor; auto. }
  pose proof (merge_records_perm rext vcf (cpx_records st) (cpx_record_ids st)) as P.
  rewrite E, records_of_Some in P.
  assert (Hlen : length (List.filter (lists_member i) out)
                 = length (List.filter (lists_member i) (cpx_records st))).
  { rewrite (filter_length_Forall2 _ (lists_member i) merged out
               (fun x y Hxy => proj1 (proj2 (strip_fields_keeps _ _ Hxy)) i) HF).
    rewrite (filter_length_Permutation _ _ _ P), List.filter_app, length_app.
    rewrite (filter_none (lists_member i)
               (List.filter (fun r => bool_decide (id r ∉ cpx_record_ids st)) vcf)).
    - cbn. lia.
    - intros r [Hr _]%filter_In. apply Hnew; [apply in_or_app; by left | exact Hiu]. }
  rewrite Hlen.
  destruct Hqueue as [Hone | (Hnil & r & Hr & Hid & Hflag)]; [left; exact Hone|].
  right. split; [by rewrite Hnil|].
  assert (Hrm : In r merged).
  { apply list_elem_of_In. rewrite P. apply list_elem_of_In.
    apply in_or_app. by left. }
  apply list_elem_of_In, list_elem_of_lookup in Hrm as [k Hk].
  destruct (Forall2_lookup_l _ _ _ _ _ HF Hk) as (r' & Hk' & Hstrip).
  destruct (strip_fields_keeps _ _ Hstrip) as (Hid' & _ & Hflag').
  exists r'. split; [|split; [congruence | auto]].
  apply list_elem_of_In. eapply list_elem_of_lookup_2. exact Hk'.
Qed.

End ConsumedIdsClaim.

Section ConsumedIdsExamples.
Import complex_sv resolve examples.

Lemma demo_keeps_given_cnvs label : keeps_given_cnvs (demo_ext label).
Proof. intros FF RR cnvs_ t kept [= _ <-] r []. Qed.

(** C1, as stated, fails in three ways.  In the run on [rec_a], [rec_b],
    [rec_c] with the clusters [[rec_a; rec_c]] and [[rec_b]], the id of
    [rec_a] is consumed, its cluster is left unresolved, and no record of
    the output lists it among its MEMBERS.  When two clustered records have
    the same id, as [dup_a] and [dup_b], two records of the output list it.
    And when a record of the file lists a consumed id already, as
    [listing_del] does for [rec_b], that record and the one made for the
    cluster both list it. *)
Lemma consumed_ids_not_listed_once :
  (exists st out,
     resolve_clusters (demo_ext "") (demo_rext [[rec_a; rec_c]; [rec_b]]) "CPX_" 4
       [[rec_a; rec_c]; [rec_b]] = Return st /\
     resolve_complex_sv (demo_ext "") (demo_rext [[rec_a; rec_c]; [rec_b]])
       [rec_a; rec_b; rec_c] "CPX_" 4 = Return out /\
     "a" ∈ cpx_record_ids st /\
     List.filter (lists_member "a") out = []) /\
  (exists st out,
     resolve_clusters (demo_ext "") (demo_rext [[dup_a]; [dup_b]]) "CPX_" 4
       [[dup_a]; [dup_b]] = Return st /\
     resolve_complex_sv (demo_ext "") (demo_rext [[dup_a]; [dup_b]])
       [dup_a; dup_b] "CPX_" 4 = Return out /\
     "dup" ∈ cpx_record_ids st /\
     length (List.filter (lists_member "dup") out) = 2%nat) /\
  (exists st out,
     resolve_clusters (demo_ext "") (demo_rext [[rec_b]]) "CPX_" 4 [[rec_b]]
       = Return st /\
     resolve_complex_sv (demo_ext "") (demo_rext [[rec_b]])
       [listing_del; rec_b] "CPX_" 4 = Return out /\
     "b" ∈ cpx_record_ids st /\
     length (List.filter (lists_member "b") out) = 2%nat).
Proof.
  split; [|split]; eexists; eexists;
    (split; [vm_compute; reflexivity|]); (split; [vm_compute; reflexivity|]);
    (split; [cbn [cpx_record_ids]; set_solver | vm_compute; reflexivity]).
Qed.

(** The theorem at the same run, for the id of [rec_b], an insertion on its
    own: one record of the output lists it. *)
Lemma consumed_ids_in_the_output_witness :
  exists out,
    resolve_complex_sv (demo_ext "") (demo_rext [[rec_a; rec_c]; [rec_b]])
      [rec_a; rec_b; rec_c] "CPX_" 4 = Return out /\
    (length (List.filter (lists_member "b") out) = 1%nat \/
     (length (List.filter (lists_member "b") out) = 0%nat /\
      exists r, In r out /\ id r = "b" /\ flagged_unresolved r)).
Proof.
  destruct (resolve_complex_sv (demo_ext "") (demo_rext [[rec_a; rec_c]; [rec_b]])
              [rec_a; rec_b; rec_c] "CPX_" 4) as [e|out] eqn:Hrun;
    [vm_compute in Hrun; discriminate|].
  exists out. split; [reflexivity|].
  destruct (consumed_ids_in_the_output (demo_ext "") (demo_rext [[rec_a; rec_c]; [rec_b]])
              (demo_keeps_given_cnvs "") [rec_a; rec_b; rec_c] "CPX_" 4 out)
    as (st & rescued & Hst & Hres & Hins & Hall).
  - intros rescued Hres. vm_compute in Hres. injection Hres as <-. split.
    + apply (bool_decide_unpack (NoDup (map id (concat [[rec_a; rec_c]; [rec_b]])))).
      vm_compute. exact I.
    + intros r i Hr _.
      repeat (destruct Hr as [<- | Hr]; [reflexivity|]). destruct Hr.
  - exact Hrun.
  - apply Hall. apply (Hins [rec_b] rec_b).
    + vm_compute in Hres. injection Hres as <-. right. left. reflexivity.
    + repeat constructor.
    + left. reflexivity.
Defined.

End ConsumedIdsExamples.
(** ** More on the rescan of single-ended inversions *)

Section MatchCluster.
Import rescan_single_enders.

Lemma extremal_unique s l v v' : extremal s l v -> extremal s l v' -> v = v'.
Proof.
  intros [Hin Hle] [Hin' Hle']. specialize (Hle _ Hin'). specialize (Hle' _ Hin).
  destruct (String.eqb s "+"); lia.
Qed.

Lemma strands_agree_on_inversions s cluster :
  Forall (fun p => is_inversion p = true) cluster ->
  with_strandB s cluster = with_strandA s cluster.
Proof.
  unfold with_strandA, with_strandB. induction 1 as [|p l Hp _ IH]; [reflexivity|].
  cbn [List.filter]. rewrite IH.
  unfold is_inversion in Hp. apply andb_true_iff in Hp as [_ Hp%String.eqb_eq].
  rewrite Hp. reflexivity.
Qed.

Lemma existsb_with_strandA s cluster :
  existsb (fun p => String.eqb (strandA p) s) cluster = true <->
  with_strandA s cluster <> [].
Proof.
  unfold with_strandA. induction cluster as [|p l IH]; cbn [existsb List.filter].
  - split; [discriminate | congruence].
  - destruct (String.eqb (strandA p) s); cbn [orb]; [split; [discriminate|reflexivity]|].
    exact IH.
Qed.

Lemma py_extremal s l :
  s = "+" \/ s = "-" -> l <> [] ->
  exists v, (if String.eqb s "+" then py_max l else py_min l) = Return v /\
            extremal s l v.
Proof.
  intros [-> | ->] Hne; cbn [String.eqb Ascii.eqb Bool.eqb].
  - by apply py_max_extremal.
  - by apply py_min_extremal.
Qed.

(** X28: [match_cluster] on a cluster of inversion pairs (both reads on
    the same strand), for a record with STRANDS '++' or '--'.  It returns,
    and the answer is yes exactly when the cluster has a pair on the strand
    of the record and the extremal coordinates of those pairs (the largest
    for '+', the smallest for '-') both lie within [dist] of the
    coordinates of the record. *)
Theorem match_cluster_on_inversion_pairs
    (record : VariantRecord) (cluster : list DiscPair) (dist : Z) (s : string) :
  s = "+" \/ s = "-" ->
  info record !! "STRANDS" = Some (IStr (s +:+ s)) ->
  Forall (fun p => is_inversion p = true) cluster ->
  exists b,
    match_cluster record cluster dist = Return b /\
    (b = true <->
     exists c_start c_end,
       extremal s (map posA (with_strandA s cluster)) c_start /\
       extremal s (map posB (with_strandA s cluster)) c_end /\
       Z.abs (pos record - c_start) < dist /\ Z.abs (stop record - c_end) < dist).
Proof.
  intros Hs Hstr Hinv. unfold match_cluster.
  apply info_get_Return in Hstr. rewrite Hstr. cbn [mbind result_bind].
  assert (Hshape :
    exists ends,
      (if bool_decide (IStr (s +:+ s) = IStr "++") then
         if negb (existsb (fun p => String.eqb (strandA p) "+") cluster)
         then Return None
         else
           c_start ← py_max (map posA (with_strandA "+" cluster));
           c_end ← py_max (map posB (with_strandB "+" cluster));
           Return (Some (c_start, c_end))
       else if bool_decide (IStr (s +:+ s) = IStr "--") then
         if negb (existsb (fun p => String.eqb (strandA p) "-") cluster)
         then Return None
         else
           c_start ← py_min (map posA (with_strandA "-" cluster));
           c_end ← py_min (map posB (with_strandB "-" cluster));
           Return (Some (c_start, c_end))
       else
         Raise (Exception ("Invalid inversion orientation: " +:+ s +:+ s)))
      = Return ends /\
      match ends with
      | None => with_strandA s cluster = []
      | Some (c_start, c_end) =>
          extremal s (map posA (with_strandA s cluster)) c_start /\
          extremal s (map posB (with_strandA s cluster)) c_end
      end).
  { destruct Hs as [-> | ->]; cbn [String.append].
    - rewrite bool_decide_true by reflexivity.
      rewrite strands_agree_on_inversions by assumption.
      destruct (existsb _ cluster) eqn:Hex; cbn [negb].
      + apply existsb_with_strandA in Hex.
        destruct (py_max_extremal (map posA (with_strandA "+" cluster)))
          as (a & -> & Ha); [by destruct (with_strandA "+" cluster)|].
        destruct (py_max_extremal (map posB (with_strandA "+" cluster)))
          as (b & -> & Hb); [by destruct (with_strandA "+" cluster)|].
        exists (Some (a, b)). split; [reflexivity | auto].
      + exists None. split; [reflexivity|].
        destruct (with_strandA "+" cluster) eqn:E; [reflexivity|].
        assert (existsb (fun p => String.eqb (strandA p) "+") cluster = true)
          by (apply existsb_with_strandA; rewrite E; discriminate).
        congruence.
    - rewrite bool_decide_false by discriminate.
      rewrite bool_decide_true by reflexivity.
      rewrite strands_agree_on_inversions by assumption.
      assert (Hm : "-" <> "+") by discriminate.
      destruct (existsb _ cluster) eqn:Hex; cbn [negb].
      + apply existsb_with_strandA in Hex.
        destruct (py_min_extremal "-" (map posA (with_strandA "-" cluster)) Hm)
          as (a & -> & Ha); [by destruct (with_strandA "-" cluster)|].
        destruct (py_min_extremal "-" (map posB (with_strandA "-" cluster)) Hm)
          as (b & -> & Hb); [by destruct (with_strandA "-" cluster)|].
        exists (Some (a, b)). split; [reflexivity | auto].
      + exists None. split; [reflexivity|].
        destruct (with_strandA "-" cluster) eqn:E; [reflexivity|].
        assert (existsb (fun p => String.eqb (strandA p) "-") cluster = true)
          by (apply existsb_with_strandA; rewrite E; discriminate).
        congruence. }
  destruct Hshape as (ends & Hends & Hprop).
  match goal with
  | |- exists b, mbind _ ?m = _ /\ _ => replace m with (Return ends : result (option (Z * Z))) end.
  cbn [mbind result_bind]. destruct ends as [[a b]|].
  - eexists. split; [reflexivity|]. destruct Hprop as [Ha Hb].
    rewrite andb_true_iff, !Z.ltb_lt. split.
    + intros [H1 H2]. exists a, b. auto.
    + intros (a' & b' & Ha' & Hb' & H1 & H2).
      rewrite (extremal_unique _ _ _ _ Ha Ha'), (extremal_unique _ _ _ _ Hb Hb'). auto.
  - exists false. split; [reflexivity|]. split; [discriminate|].
    intros (a' & _ & [Hin _] & _). rewrite Hprop in Hin. destruct Hin.
Qed.

End MatchCluster.

Section RescanEdges.
Import rescan_single_enders.
Variable pe_fetch : string -> Z -> Z -> list DiscPair.
Variable get_called_samples : VariantRecord -> list string.
Variable slink_cluster : list DiscPair -> Z -> list (list DiscPair).

Lemma filterM_all_false {A} (f : A -> result bool) (l : list A) :
  (forall x, In x l -> f x = Return false) -> filterM f l = Return [].
Proof.
  induction l as [|x l IH]; intros H; [reflexivity|].
  cbn [filterM]. rewrite (H x) by (left; reflexivity). cbn [mbind result_bind].
  rewrite IH by (intros y Hy; apply H; right; exact Hy). reflexivity.
Qed.

(** X29: a record called in no sample is never rescued.  No pair is kept
    for it, so (the clustering of no pair giving no cluster, or empty ones)
    nothing matches a record with STRANDS '++' or '--' and the answer is
    [None]; the division by the number of called samples is not reached. *)
Theorem rescan_of_uncalled_record
    (record : VariantRecord) (window dist min_support : Z) (min_frac_samples : py_float) :
  get_called_samples record = [] ->
  (forall c, In c (slink_cluster [] dist) -> c = []) ->
  info record !! "STRANDS" = Some (IStr "++") \/
  info record !! "STRANDS" = Some (IStr "--") ->
  rescan_single_ender pe_fetch get_called_samples slink_cluster
    record window dist min_support min_frac_samples = Return None.
Proof.
  intros Hcalled Hslink Hstr.
  unfold rescan_single_ender, matching_clusters. rewrite Hcalled.
  assert (Hnone : forall l : list DiscPair,
            List.filter (fun p => bool_decide (sample p ∈ @nil string) && is_inversion p) l
            = []).
  { induction l as [|p l IH]; [reflexivity|]. cbn [List.filter].
    rewrite bool_decide_false by (apply not_elem_of_nil). exact IH. }
  rewrite Hnone.
  rewrite filterM_all_false; [reflexivity|].
  intros c Hc. rewrite (Hslink c Hc). unfold match_cluster.
  destruct Hstr as [Hs | Hs]; apply info_get_Return in Hs; rewrite Hs; reflexivity.
Qed.

(** X30: with a threshold [min_frac_samples] of zero (or less) the sample
    support is not looked at.  For a record called in some sample and with
    a matching cluster, the rescan returns a complementary record as soon as
    the largest matching cluster has one pair on the missing strand, and
    fails with IndexError (the first supporting pair is read in
    [make_new_record]) when it has none. *)
Theorem rescan_with_no_threshold
    (record : VariantRecord) (window dist min_support : Z) (min_frac_samples : py_float)
    (c : list DiscPair) (rest : list (list DiscPair)) :
  float_le min_frac_samples float_zero = true ->
  get_called_samples record <> [] ->
  matching_clusters pe_fetch get_called_samples slink_cluster record window dist
    = Return (c :: rest) ->
  let support := supporting_pairs_of record (largest c rest) in
  let result := rescan_single_ender pe_fetch get_called_samples slink_cluster
                  record window dist min_support min_frac_samples in
  (support = [] -> result = Raise IndexError) /\
  (support <> [] -> exists r, result = Return (Some r) /\
                              id r = id record +:+ "_OPPSTRAND").
Proof.
  intros Hq Hcalled Hmatch support result. subst result.
  unfold rescan_single_ender. rewrite Hmatch. cbn [mbind result_bind]. cbv zeta.
  fold support.
  assert (Hlen : 0 < Z.of_nat (length (get_called_samples record))).
  { destruct (get_called_samples record); [congruence | simpl; lia]. }
  destruct (Z.eqb_spec (Z.of_nat (length (get_called_samples record))) 0) as [E|_]; [lia|].
  rewrite float_le_nonpos_nonneg;
    [| assumption
     | apply int_truediv_nonneg; [unfold n_supported_samples; lia | assumption]].
  split.
  - intros ->. reflexivity.
  - intros Hne.
    set (missing := if bool_decide (info record !! "STRANDS" = Some (IStr "--"))
                    then "+" else "-").
    destruct (make_new_record_spec missing support record) as (r & Hr & Hspec).
    + subst missing. destruct (bool_decide _); tauto.
    + exact Hne.
    + intros p [_ Hp]%filter_In. by apply String.eqb_eq.
    + exists r. rewrite Hr. split; [reflexivity | apply Hspec].
Qed.

End RescanEdges.

Section RescanEdgeWitnesses.
Import rescan_single_enders examples.

Lemma match_cluster_on_inversion_pairs_witness :
  exists b, match_cluster single_ender demo_pairs 500 = Return b /\ b = true.
Proof.
  destruct (match_cluster_on_inversion_pairs single_ender demo_pairs 500 "-")
    as (b & Hb & Hiff).
  - right. reflexivity.
  - reflexivity.
  - repeat constructor.
  - exists b. split; [exact Hb|]. apply Hiff. exists 1000, 2000.
    vm_compute. repeat split; auto 20; intros x Hx;
      repeat (destruct Hx as [<- | Hx]; [discriminate|]); destruct Hx.
Defined.

(** [single_ender] with no called sample. *)
Lemma rescan_of_uncalled_record_witness :
  rescan_single_ender demo_fetch (fun _ => []) demo_slink single_ender 500 300 4 float_half
    = Return None.
Proof.
  apply (rescan_of_uncalled_record demo_fetch (fun _ => []) demo_slink
           single_ender 500 300 4 float_half).
  - reflexivity.
  - intros c [].
  - right. reflexivity.
Defined.

(** [single_ender] where the file has pairs on the '-' strand only. *)
Lemma rescan_with_no_threshold_witness :
  rescan_single_ender minus_fetch demo_called demo_slink single_ender 500 300 4 float_zero
    = Raise IndexError.
Proof.
  destruct (matching_clusters minus_fetch demo_called demo_slink single_ender 500 300)
    as [e|[|c rest]] eqn:H;
    [vm_compute in H; discriminate | vm_compute in H; discriminate |].
  destruct (rescan_with_no_threshold minus_fetch demo_called demo_slink
              single_ender 500 300 4 float_zero c rest) as [Hfail _].
  - reflexivity.
  - discriminate.
  - exact H.
  - apply Hfail. vm_compute in H. injection H as <- <-. reflexivity.
Defined.

End RescanEdgeWitnesses.
Section ClassifierExceptionWitness.
Import complex_sv examples.

(** With the collaborators of the examples, which return, building the
    object for the inversion pair ends in no [Exception]. *)
Lemma classifier_raises_no_Exception_witness :
  no_Exception (__init__ (demo_ext "") [inv_FF; inv_RR]).
Proof.
  apply (classifier_raises_no_Exception (demo_ext "")).
  - intros FF RR cnvs_. apply no_Exception_Return.
  - intros plus minus. apply no_Exception_Return.
  - intros r l. apply no_Exception_Return.
Defined.

End ClassifierExceptionWitness.
